(** * regsafe: the regular-expression tokenizer of [src/index.ts]

    A shallow embedding of the class [Regsafe] and of its scan routines,
    followed by the properties of the token sequence that [tokenize]
    returns.

    Modelling conventions.

    - A JavaScript string is a sequence of UTF-16 code units; a code unit is
      an [N] and a string a [list N].  Every character the tokenizer
      distinguishes is ASCII, written [ch "("]; whole literals are written
      [lit "(?="].
    - [this.regex[this.position]] is the list lookup [regex !! pos]; an
      out-of-range read is [None], JavaScript's [undefined].  [undefined] is
      different from every one-character string, and string concatenation
      and template literals turn it into the text [undefined].
    - The cursor [this.position] is threaded explicitly: a scan routine takes
      the cursor and returns its result together with the new cursor.
    - A [while] loop is a [Fixpoint] on a fuel counter that is only consumed
      when the loop body runs; [None] means that the fuel ran out before the
      loop condition became false.  A routine hands its remaining fuel to
      the routines it calls.
    - Arrays are unbounded.  The number of arguments that a call accepts is
      limited by the engine, which matters where the scanner spreads an
      array into the arguments of [push]: the scan routines are given
      first without that limit, and then again with it (the routines whose
      names end in [_lim]), where a spread of more tokens than the engine
      accepts raises [RangeError]. *)

From stdpp Require Import base list strings.
From Stdlib Require Import NArith Ascii Lia.

Local Open Scope nat_scope.

(** ** Characters and strings *)

Abbreviation char := N (only parsing).
Abbreviation str := (list N) (only parsing).

Definition ch (a : ascii) : char := N_of_ascii a.
Arguments ch a%_char : simpl never.

Definition lit (s : string) : str :=
  map N_of_ascii (Stdlib.Strings.String.list_ascii_of_string s).
Arguments lit s%_string : simpl never.

(** [c === "a"] for a character [c] read inside the string. *)
Definition eqc (c : char) (a : ascii) : bool := N.eqb c (ch a).
Arguments eqc c a%_char : simpl never.

(** [c === "a"] for the result of a read that may be out of range. *)
Definition is_char (c : option char) (a : ascii) : bool :=
  match c with
  | Some x => eqc x a
  | None => false
  end.
Arguments is_char c a%_char.

(** String conversion of the result of a read, as done by [+=] and by a
    template literal. *)
Definition toStr (c : option char) : str :=
  match c with
  | Some x => [x]
  | None => lit "undefined"
  end.

(** [/[0-9]/.test(c)]: the argument is converted to a string first, and the
    text [undefined] holds no digit. *)
Definition isDigit (c : option char) : bool :=
  match c with
  | Some x => (N.leb (ch "0") x && N.leb x (ch "9"))%bool
  | None => false
  end.

(** ** Tokens *)

Inductive TokenType : Set :=
| CHAR
| META_CHAR
| GROUP_OPEN
| GROUP_CLOSE
| RANGE_OPEN
| RANGE_CLOSE
| PIPE
| QUANTIFIER
| ESCAPE
| ANCHOR
| LOOKAHEAD
| NEG_LOOKAHEAD
| UNICODE_ESCAPE
| HEX_ESCAPE
| BACKREFERENCE.

Record Token : Set := mkToken {
  type : TokenType;
  value : str;
  position : nat
}.

(** [createToken]: the token's position is the cursor at the time of the
    call, passed here as the first argument. *)
Definition createToken (pos : nat) (ty : TokenType) (v : str) : Token :=
  {| type := ty; value := v; position := pos |}.

Definition isMetaChar (c : char) : bool :=
  existsb (eqc c) ["*"; "+"; "?"; "."]%char.

Definition isAnchor (c : char) : bool :=
  (eqc c "^" || eqc c "$")%bool.

Definition isQuantifierStart (c : char) : bool :=
  eqc c "{".

(** ** The scan routines

    In this section [tokens.push(...array)] appends the tokens of [array],
    whatever their number; the section on the argument limit of the engine
    gives the same routines with the spread that may raise. *)

Section Scan.

Variable regex : str.

(** The loop of [parseQuantifier]:
    [while (regex[pos] !== "}" && pos < regex.length)]. *)
Fixpoint parseQuantifier_loop (fuel pos : nat) (quantifier : str)
  : option (str * nat) :=
  match regex !! pos with
  | None => Some (quantifier, pos)
  | Some c =>
      if eqc c "}" then Some (quantifier, pos)
      else match fuel with
           | 0 => None
           | S fuel' => parseQuantifier_loop fuel' (S pos) (quantifier ++ [c])
           end
  end.

Definition parseQuantifier (fuel pos : nat) : option (Token * nat) :=
  let quantifier := [] in
  let pos := S pos in
  match parseQuantifier_loop fuel pos quantifier with
  | None => None
  | Some (quantifier, pos) =>
      let quantifier := quantifier ++ lit "}" in
      let pos := S pos in
      Some (createToken pos QUANTIFIER quantifier, pos)
  end.

(** The loop of [parseRange]:
    [while (regex[pos] !== "]" && pos < regex.length)]. *)
Fixpoint parseRange_loop (fuel pos : nat) (tokens : list Token)
  : option (list Token * nat) :=
  match regex !! pos with
  | None => Some (tokens, pos)
  | Some c =>
      if eqc c "]" then Some (tokens, pos)
      else match fuel with
           | 0 => None
           | S fuel' =>
               if eqc c "-"
               then parseRange_loop fuel' (S pos)
                      (tokens ++ [createToken pos CHAR (lit "-")])
               else parseRange_loop fuel' (S pos)
                      (tokens ++ [createToken pos CHAR [c]])
           end
  end.

Definition parseRange (fuel pos : nat) : option (list Token * nat) :=
  let tokens := [createToken pos RANGE_OPEN (lit "[")] in
  let pos := S pos in
  match parseRange_loop fuel pos tokens with
  | None => None
  | Some (tokens, pos) =>
      let tokens := tokens ++ [createToken pos RANGE_CLOSE (lit "]")] in
      Some (tokens, S pos)
  end.

(** The [for] loops of [parseUnicodeEscape] and [parseHexEscape]: [n] times
    [text += regex[pos]; pos++]. *)
Fixpoint appendChars (n : nat) (text : str) (pos : nat) : str * nat :=
  match n with
  | 0 => (text, pos)
  | S n' => appendChars n' (text ++ toStr (regex !! pos)) (S pos)
  end.

Definition parseUnicodeEscape (pos : nat) : Token * nat :=
  let unicode := lit "\u" in
  let pos := S pos in
  let '(unicode, pos) := appendChars 4 unicode pos in
  (createToken pos UNICODE_ESCAPE unicode, pos).

Definition parseHexEscape (pos : nat) : Token * nat :=
  let hex := lit "\x" in
  let pos := S pos in
  let '(hex, pos) := appendChars 2 hex pos in
  (createToken pos HEX_ESCAPE hex, pos).

Definition parseBackreference (pos : nat) : Token * nat :=
  let backref := lit "\" in
  let backref := backref ++ toStr (regex !! pos) in
  let pos := S pos in
  (createToken pos BACKREFERENCE backref, pos).

Definition parseEscape (pos : nat) : Token * nat :=
  let pos := S pos in
  let escapeChar := regex !! pos in
  if is_char escapeChar "u" then parseUnicodeEscape pos
  else if is_char escapeChar "x" then parseHexEscape pos
  else if isDigit escapeChar then parseBackreference pos
  else
    let escapeToken := createToken pos ESCAPE (lit "\" ++ toStr escapeChar) in
    (escapeToken, S pos).

(** One iteration of the loop of [tokenizeGroupContent], at a cursor where
    [char = regex[pos]] has been read. *)
Definition tokenizeGroupContent_body (fuel pos : nat) (char : char)
  : option (list Token * nat) :=
  if isAnchor char then Some ([createToken pos ANCHOR [char]], S pos)
  else if isMetaChar char then Some ([createToken pos META_CHAR [char]], S pos)
  else if eqc char "[" then parseRange fuel pos
  else if isQuantifierStart char then
    match parseQuantifier fuel pos with
    | None => None
    | Some (t, pos) => Some ([t], pos)
    end
  else if eqc char "\" then
    let '(t, pos) := parseEscape pos in Some ([t], pos)
  else if eqc char "|" then Some ([createToken pos PIPE [char]], S pos)
  else Some ([createToken pos CHAR [char]], S pos).

(** The loop of [tokenizeGroupContent]:
    [while (pos < regex.length && regex[pos] !== ")")]. *)
Fixpoint tokenizeGroupContent_loop (fuel pos : nat) (tokens : list Token)
  : option (list Token * nat) :=
  match regex !! pos with
  | None => Some (tokens, pos)
  | Some char =>
      if eqc char ")" then Some (tokens, pos)
      else match fuel with
           | 0 => None
           | S fuel' =>
               match tokenizeGroupContent_body fuel' pos char with
               | None => None
               | Some (ts, pos) =>
                   tokenizeGroupContent_loop fuel' pos (tokens ++ ts)
               end
           end
  end.

Definition tokenizeGroupContent (fuel pos : nat) : option (list Token * nat) :=
  tokenizeGroupContent_loop fuel pos [].

(** The loop of [parseGroup]:
    [while (regex[pos] !== ")" && pos < regex.length)]. *)
Fixpoint parseGroup_loop (fuel pos : nat) (tokens : list Token)
  : option (list Token * nat) :=
  match regex !! pos with
  | None => Some (tokens, pos)
  | Some c =>
      if eqc c ")" then Some (tokens, pos)
      else match fuel with
           | 0 => None
           | S fuel' =>
               match tokenizeGroupContent fuel' pos with
               | None => None
               | Some (ts, pos) => parseGroup_loop fuel' pos (tokens ++ ts)
               end
           end
  end.

(** The optional prefix of [parseGroup], entered after the ["("] has been
    skipped. *)
Definition parseGroup_prefix (pos : nat) (tokens : list Token)
  : list Token * nat :=
  if is_char (regex !! pos) "?" then
    let pos := S pos in
    if is_char (regex !! pos) "=" then
      (tokens ++ [createToken pos LOOKAHEAD (lit "(?=")], S pos)
    else if is_char (regex !! pos) "!" then
      (tokens ++ [createToken pos NEG_LOOKAHEAD (lit "(?!)")], S pos)
    else (tokens, pos)
  else (tokens, pos).

Definition parseGroup (fuel pos : nat) : option (list Token * nat) :=
  let tokens := [createToken pos GROUP_OPEN (lit "(")] in
  let pos := S pos in
  let '(tokens, pos) := parseGroup_prefix pos tokens in
  match parseGroup_loop fuel pos tokens with
  | None => None
  | Some (tokens, pos) =>
      let tokens := tokens ++ [createToken pos GROUP_CLOSE (lit ")")] in
      Some (tokens, S pos)
  end.

(** One iteration of the loop of [tokenize], at a cursor where
    [char = regex[pos]] has been read. *)
Definition tokenize_body (fuel pos : nat) (char : char)
  : option (list Token * nat) :=
  if isAnchor char then Some ([createToken pos ANCHOR [char]], S pos)
  else if isMetaChar char then Some ([createToken pos META_CHAR [char]], S pos)
  else if eqc char "(" then parseGroup fuel pos
  else if eqc char "[" then parseRange fuel pos
  else if isQuantifierStart char then
    match parseQuantifier fuel pos with
    | None => None
    | Some (t, pos) => Some ([t], pos)
    end
  else if eqc char "\" then
    let '(t, pos) := parseEscape pos in Some ([t], pos)
  else if eqc char "|" then Some ([createToken pos PIPE [char]], S pos)
  else Some ([createToken pos CHAR [char]], S pos).

(** The loop of [tokenize]: [while (pos < regex.length)].  The read
    [regex !! pos] is in range exactly when the loop condition holds. *)
Fixpoint tokenize_loop (fuel pos : nat) (tokens : list Token)
  : option (list Token * nat) :=
  match regex !! pos with
  | None => Some (tokens, pos)
  | Some char =>
      match fuel with
      | 0 => None
      | S fuel' =>
          match tokenize_body fuel' pos char with
          | None => None
          | Some (ts, pos) => tokenize_loop fuel' pos (tokens ++ ts)
          end
      end
  end.

End Scan.

(** ** The class [Regsafe] *)

(** An instance holds the immutable input and the cursor.  The cursor is the
    private field [position] of the class; it is called [cursor] here since
    [position] already names the field of [Token]. *)
Record Regsafe : Set := mkRegsafe {
  regex : str;
  cursor : nat
}.

(** [new Regsafe(regex)]: the cursor starts at 0. *)
Definition new_Regsafe (regex : str) : Regsafe :=
  {| regex := regex; cursor := 0 |}.

(** [tokenize()]: returns the tokens and the instance with its cursor where
    the loop left it. *)
Definition tokenize (fuel : nat) (this : Regsafe)
  : option (list Token * Regsafe) :=
  match tokenize_loop (regex this) fuel (cursor this) [] with
  | None => None
  | Some (tokens, pos) =>
      Some (tokens, {| regex := regex this; cursor := pos |})
  end.

(** The tokens of a fresh instance on [input]. *)
Definition tokens_of (fuel : nat) (input : str) : option (list Token) :=
  fst <$> tokenize fuel (new_Regsafe input).

(** ** The argument limit of the engine

    [tokens.push(...array)] passes every element of [array] as an argument
    of one call.  A JavaScript engine accepts only so many arguments in one
    call and raises a [RangeError] when a spread passes more.  How many it
    accepts depends on the engine and on the stack that is left at the call,
    so the limit is a parameter here, given for each of the four places
    where the scanner spreads an array.  A [push] of a single token has no
    such limit.

    The routines of the previous section leave the limit out.  The routines
    of this section take it into account: they are the same scan, in which
    every spread first checks the number of tokens it passes. *)

Inductive SpreadSite : Set :=
| TokenizeGroup
| TokenizeRange
| GroupContent
| ContentRange.

(** How a call ends: it returns a value, it raises [RangeError], or the
    fuel of the model ran out. *)
Inductive Outcome (A : Type) : Type :=
| Returned (a : A)
| RangeError
| NoFuel.

Arguments Returned {A} a.
Arguments RangeError {A}.
Arguments NoFuel {A}.

#[global] Instance Outcome_bind : MBind Outcome := fun A B f o =>
  match o with
  | Returned a => f a
  | RangeError => RangeError
  | NoFuel => NoFuel
  end.

(** The outcome of a routine that spreads nothing. *)
Definition ran {A} (o : option A) : Outcome A :=
  match o with
  | Some a => Returned a
  | None => NoFuel
  end.

Section Engine.

Variable limit : SpreadSite -> nat.
Variable regex : str.

(** [tokens.push(...ts)] at the spread [site]. *)
Definition push_spread (site : SpreadSite) (tokens ts : list Token)
  : Outcome (list Token) :=
  if length ts <=? limit site then Returned (tokens ++ ts) else RangeError.

(** One iteration of the loop of [tokenizeGroupContent]; the spread is the
    one of [tokens.push(...this.parseRange())]. *)
Definition tokenizeGroupContent_body_lim (fuel pos : nat) (char : char)
    (tokens : list Token) : Outcome (list Token * nat) :=
  if isAnchor char then
    Returned (tokens ++ [createToken pos ANCHOR [char]], S pos)
  else if isMetaChar char then
    Returned (tokens ++ [createToken pos META_CHAR [char]], S pos)
  else if eqc char "[" then
    '(ts, pos) ← ran (parseRange regex fuel pos);
    tokens ← push_spread ContentRange tokens ts;
    Returned (tokens, pos)
  else if isQuantifierStart char then
    '(t, pos) ← ran (parseQuantifier regex fuel pos);
    Returned (tokens ++ [t], pos)
  else if eqc char "\" then
    let '(t, pos) := parseEscape regex pos in Returned (tokens ++ [t], pos)
  else if eqc char "|" then
    Returned (tokens ++ [createToken pos PIPE [char]], S pos)
  else Returned (tokens ++ [createToken pos CHAR [char]], S pos).

Fixpoint tokenizeGroupContent_loop_lim (fuel pos : nat) (tokens : list Token)
  : Outcome (list Token * nat) :=
  match regex !! pos with
  | None => Returned (tokens, pos)
  | Some char =>
      if eqc char ")" then Returned (tokens, pos)
      else match fuel with
           | 0 => NoFuel
           | S fuel' =>
               '(tokens, pos) ←
                 tokenizeGroupContent_body_lim fuel' pos char tokens;
               tokenizeGroupContent_loop_lim fuel' pos tokens
           end
  end.

Definition tokenizeGroupContent_lim (fuel pos : nat)
  : Outcome (list Token * nat) :=
  tokenizeGroupContent_loop_lim fuel pos [].

(** The loop of [parseGroup]; the spread is the one of
    [tokens.push(...this.tokenizeGroupContent())]. *)
Fixpoint parseGroup_loop_lim (fuel pos : nat) (tokens : list Token)
  : Outcome (list Token * nat) :=
  match regex !! pos with
  | None => Returned (tokens, pos)
  | Some c =>
      if eqc c ")" then Returned (tokens, pos)
      else match fuel with
           | 0 => NoFuel
           | S fuel' =>
               '(ts, pos) ← tokenizeGroupContent_lim fuel' pos;
               tokens ← push_spread GroupContent tokens ts;
               parseGroup_loop_lim fuel' pos tokens
           end
  end.

Definition parseGroup_lim (fuel pos : nat) : Outcome (list Token * nat) :=
  let tokens := [createToken pos GROUP_OPEN (lit "(")] in
  let pos := S pos in
  let '(tokens, pos) := parseGroup_prefix regex pos tokens in
  '(tokens, pos) ← parseGroup_loop_lim fuel pos tokens;
  let tokens := tokens ++ [createToken pos GROUP_CLOSE (lit ")")] in
  Returned (tokens, S pos).

(** One iteration of the loop of [tokenize]; the spreads are the ones of
    [tokens.push(...this.parseGroup())] and
    [tokens.push(...this.parseRange())]. *)
Definition tokenize_body_lim (fuel pos : nat) (char : char)
    (tokens : list Token) : Outcome (list Token * nat) :=
  if isAnchor char then
    Returned (tokens ++ [createToken pos ANCHOR [char]], S pos)
  else if isMetaChar char then
    Returned (tokens ++ [createToken pos META_CHAR [char]], S pos)
  else if eqc char "(" then
    '(ts, pos) ← parseGroup_lim fuel pos;
    tokens ← push_spread TokenizeGroup tokens ts;
    Returned (tokens, pos)
  else if eqc char "[" then
    '(ts, pos) ← ran (parseRange regex fuel pos);
    tokens ← push_spread TokenizeRange tokens ts;
    Returned (tokens, pos)
  else if isQuantifierStart char then
    '(t, pos) ← ran (parseQuantifier regex fuel pos);
    Returned (tokens ++ [t], pos)
  else if eqc char "\" then
    let '(t, pos) := parseEscape regex pos in Returned (tokens ++ [t], pos)
  else if eqc char "|" then
    Returned (tokens ++ [createToken pos PIPE [char]], S pos)
  else Returned (tokens ++ [createToken pos CHAR [char]], S pos).

Fixpoint tokenize_loop_lim (fuel pos : nat) (tokens : list Token)
  : Outcome (list Token * nat) :=
  match regex !! pos with
  | None => Returned (tokens, pos)
  | Some char =>
      match fuel with
      | 0 => NoFuel
      | S fuel' =>
          '(tokens, pos) ← tokenize_body_lim fuel' pos char tokens;
          tokenize_loop_lim fuel' pos tokens
      end
  end.

End Engine.

(** [tokenize()] on an engine with the given limits. *)
Definition tokenize_lim (limit : SpreadSite -> nat) (fuel : nat)
    (this : Regsafe) : Outcome (list Token * Regsafe) :=
  '(tokens, pos) ← tokenize_loop_lim limit (regex this) fuel (cursor this) [];
  Returned (tokens, {| regex := regex this; cursor := pos |}).

(** ** Vocabulary of the properties *)

(** [chain lo ts hi]: the positions of [ts] are non-decreasing, start at or
    after [lo] and end at or before [hi]. *)
Fixpoint chain (lo : nat) (ts : list Token) (hi : nat) : Prop :=
  match ts with
  | [] => lo <= hi
  | t :: ts' => lo <= position t /\ chain (position t) ts' hi
  end.

(** A closing delimiter [a] was found at [pos], or the input is exhausted. *)
Definition stops_at (regex : str) (a : ascii) (pos : nat) : Prop :=
  regex !! pos = Some (ch a) \/ length regex <= pos.

(** [emits regex t]: [t] is a token that some [createToken] call of the scan
    routines can build on [regex], with what is known about the input at
    that call. *)
Inductive emits (regex : str) : Token -> Prop :=
| emits_anchor pos c :
    regex !! pos = Some c -> emits regex (createToken pos ANCHOR [c])
| emits_meta pos c :
    regex !! pos = Some c -> emits regex (createToken pos META_CHAR [c])
| emits_pipe pos c :
    regex !! pos = Some c -> emits regex (createToken pos PIPE [c])
| emits_char pos c :
    regex !! pos = Some c -> emits regex (createToken pos CHAR [c])
| emits_group_open pos :
    regex !! pos = Some (ch "(") ->
    emits regex (createToken pos GROUP_OPEN (lit "("))
| emits_lookahead pos :
    regex !! pos = Some (ch "(") -> regex !! S pos = Some (ch "?") ->
    regex !! S (S pos) = Some (ch "=") ->
    emits regex (createToken (S (S pos)) LOOKAHEAD (lit "(?="))
| emits_neg_lookahead pos :
    regex !! pos = Some (ch "(") -> regex !! S pos = Some (ch "?") ->
    regex !! S (S pos) = Some (ch "!") ->
    emits regex (createToken (S (S pos)) NEG_LOOKAHEAD (lit "(?!)"))
| emits_group_close pos :
    stops_at regex ")" pos ->
    emits regex (createToken pos GROUP_CLOSE (lit ")"))
| emits_range_open pos :
    regex !! pos = Some (ch "[") ->
    emits regex (createToken pos RANGE_OPEN (lit "["))
| emits_range_close pos :
    stops_at regex "]" pos ->
    emits regex (createToken pos RANGE_CLOSE (lit "]"))
| emits_quantifier pos q :
    emits regex (createToken pos QUANTIFIER q)
| emits_escape pos :
    regex !! pos = Some (ch "\") ->
    emits regex
      (createToken (S pos) ESCAPE (lit "\" ++ toStr (regex !! S pos)))
| emits_unicode pos :
    regex !! pos = Some (ch "\") -> regex !! S pos = Some (ch "u") ->
    emits regex
      (createToken (6 + pos) UNICODE_ESCAPE
         (fst (appendChars regex 4 (lit "\u") (2 + pos))))
| emits_hex pos :
    regex !! pos = Some (ch "\") -> regex !! S pos = Some (ch "x") ->
    emits regex
      (createToken (4 + pos) HEX_ESCAPE
         (fst (appendChars regex 2 (lit "\x") (2 + pos))))
| emits_backreference pos d :
    regex !! pos = Some (ch "\") -> regex !! S pos = Some d ->
    isDigit (Some d) = true ->
    emits regex (createToken (2 + pos) BACKREFERENCE (lit "\" ++ [d])).

(** The cursor after a scan routine is past the cursor before it. *)
Definition advances {A} (scan : nat -> option (A * nat)) : Prop :=
  forall pos r pos', scan pos = Some (r, pos') -> pos < pos'.

(** The cursor after a scan routine is not before the cursor before it. *)
Definition never_decreases {A} (scan : nat -> option (A * nat)) : Prop :=
  forall pos r pos', scan pos = Some (r, pos') -> pos <= pos'.

(** The token kinds that only the group scan builds. *)
Definition group_kind (ty : TokenType) : bool :=
  match ty with
  | GROUP_OPEN | GROUP_CLOSE | LOOKAHEAD | NEG_LOOKAHEAD => true
  | _ => false
  end.

Definition flat (t : Token) : Prop := group_kind (type t) = false.

(** The end of [parseGroup], applied to what its loop returns. *)
Definition close_group (r : option (list Token * nat))
  : option (list Token * nat) :=
  match r with
  | None => None
  | Some (tokens, pos) =>
      Some (tokens ++ [createToken pos GROUP_CLOSE (lit ")")], S pos)
  end.

(** The [len] characters of [s] from offset [start]. *)
Definition sub (s : str) (start len : nat) : str := take len (drop start s).

(** [s] occurs in [input] as a run of consecutive characters. *)
Definition is_substring (s input : str) : Prop :=
  exists start, s = sub input start (length s).

(** Every character of the input occurs in the text of some token. *)
Definition accounts_for (input : str) (toks : list Token) : Prop :=
  forall c, c ∈ input -> exists t, t ∈ toks /\ c ∈ value t.

(** The offset where the characters of a token begin, counted back from the
    cursor at which the token was built. *)
Definition token_start (t : Token) : nat :=
  match type t with
  | LOOKAHEAD | BACKREFERENCE => position t - 2
  | ESCAPE => position t - 1
  | UNICODE_ESCAPE => position t - 6
  | HEX_ESCAPE => position t - 4
  | _ => position t
  end.

(** The input did not end inside the token: the closing delimiter was found,
    the escape has all its characters. *)
Definition in_input (input : str) (t : Token) : Prop :=
  match type t with
  | GROUP_CLOSE | RANGE_CLOSE | ESCAPE => position t < length input
  | UNICODE_ESCAPE | HEX_ESCAPE => position t <= length input
  | _ => True
  end.

(** The text of [t] is the run of characters of the input that begins at
    [token_start t]. *)
Definition exact_text (input : str) (t : Token) : Prop :=
  value t = sub input (token_start t) (length (value t)).

(** The number of characters of the input that a token stands for: one for
    a one-character or delimiter token, the three of ["(?="] and of ["(?!"],
    the backslash and the character after it for an ESCAPE and a
    BACKREFERENCE token, the backslash, the letter and the four or two
    characters after it for a UNICODE_ESCAPE and a HEX_ESCAPE token, and for
    a QUANTIFIER token the ["{"] together with the characters of its text. *)
Definition token_extent (t : Token) : nat :=
  match type t with
  | CHAR | META_CHAR | ANCHOR | PIPE
  | GROUP_OPEN | GROUP_CLOSE | RANGE_OPEN | RANGE_CLOSE => 1
  | LOOKAHEAD | NEG_LOOKAHEAD => 3
  | ESCAPE | BACKREFERENCE => 2
  | UNICODE_ESCAPE => 6
  | HEX_ESCAPE => 4
  | QUANTIFIER => S (length (value t))
  end.

(** How far the position of a token is from the first of its characters:
    the cursor has moved that far when the token is built. *)
Definition token_back (t : Token) : nat :=
  match type t with
  | LOOKAHEAD | BACKREFERENCE => 2
  | ESCAPE => 1
  | UNICODE_ESCAPE => 6
  | HEX_ESCAPE => 4
  | _ => 0
  end.

(** The text of [t] is the whole of the run of the input that [t] stands
    for: the run begins [token_back t] characters before the position of
    [t], it lies inside the input, and the text is that run, no more and no
    less. *)
Definition whole_text (input : str) (t : Token) : Prop :=
  position t = token_start t + token_back t /\
  token_start t + token_extent t <= length input /\
  value t = sub input (token_start t) (token_extent t).

(** ** Vocabulary of the further properties *)

(** The CHAR tokens of the characters [cs], the first one built at [pos]. *)
Fixpoint chars_from (pos : nat) (cs : str) : list Token :=
  match cs with
  | [] => []
  | c :: cs' => createToken pos CHAR [c] :: chars_from (S pos) cs'
  end.

(** The kind of the one-character token built for [c] by the branches of the
    dispatch that are not a scan routine. *)
Definition single_kind (c : char) : TokenType :=
  if isAnchor c then ANCHOR
  else if isMetaChar c then META_CHAR
  else if eqc c "|" then PIPE
  else CHAR.

(** The text that [n] successive reads from offset [pos] on contribute: the
    character read, or the text [undefined] for a read past the end. *)
Fixpoint read_text (input : str) (pos n : nat) : str :=
  match n with
  | 0 => []
  | S n' => toStr (input !! pos) ++ read_text input (S pos) n'
  end.

(** What a token says about the input, by kind: which characters of the
    input it was built from, where they are, and what its text is. *)
Definition token_describes (input : str) (t : Token) : Prop :=
  match type t with
  | ANCHOR =>
      exists c, input !! position t = Some c /\ isAnchor c = true /\
                value t = [c]
  | META_CHAR =>
      exists c, input !! position t = Some c /\ isMetaChar c = true /\
                value t = [c]
  | PIPE => input !! position t = Some (ch "|") /\ value t = lit "|"
  | CHAR => exists c, input !! position t = Some c /\ value t = [c]
  | GROUP_OPEN => input !! position t = Some (ch "(") /\ value t = lit "("
  | RANGE_OPEN => input !! position t = Some (ch "[") /\ value t = lit "["
  | GROUP_CLOSE => stops_at input ")" (position t) /\ value t = lit ")"
  | RANGE_CLOSE => stops_at input "]" (position t) /\ value t = lit "]"
  | LOOKAHEAD =>
      exists pos,
        position t = S (S pos) /\ input !! pos = Some (ch "(") /\
        input !! S pos = Some (ch "?") /\
        input !! S (S pos) = Some (ch "=") /\ value t = lit "(?="
  | NEG_LOOKAHEAD =>
      exists pos,
        position t = S (S pos) /\ input !! pos = Some (ch "(") /\
        input !! S pos = Some (ch "?") /\
        input !! S (S pos) = Some (ch "!") /\ value t = lit "(?!)"
  | QUANTIFIER =>
      exists pos n,
        position t = S (S pos + n) /\ input !! pos = Some (ch "{") /\
        length (sub input (S pos) n) = n /\
        (forall c, c ∈ sub input (S pos) n -> c <> ch "}") /\
        stops_at input "}" (S pos + n) /\
        value t = sub input (S pos) n ++ lit "}"
  | ESCAPE =>
      exists pos,
        position t = S pos /\ input !! pos = Some (ch "\") /\
        is_char (input !! S pos) "u" = false /\
        is_char (input !! S pos) "x" = false /\
        isDigit (input !! S pos) = false /\
        value t = lit "\" ++ toStr (input !! S pos)
  | UNICODE_ESCAPE =>
      exists pos,
        position t = 6 + pos /\ input !! pos = Some (ch "\") /\
        input !! S pos = Some (ch "u") /\
        value t = lit "\u" ++ read_text input (2 + pos) 4
  | HEX_ESCAPE =>
      exists pos,
        position t = 4 + pos /\ input !! pos = Some (ch "\") /\
        input !! S pos = Some (ch "x") /\
        value t = lit "\x" ++ read_text input (2 + pos) 2
  | BACKREFERENCE =>
      exists pos d,
        position t = 2 + pos /\ input !! pos = Some (ch "\") /\
        input !! S pos = Some d /\ isDigit (Some d) = true /\
        value t = lit "\" ++ [d]
  end.

#[global] Instance TokenType_eq_dec : EqDecision TokenType.
Proof. solve_decision. Defined.

(** The kinds of the tokens of [ts] that are among [ks], in order. *)
Definition kinds_among (ks : list TokenType) (ts : list Token)
  : list TokenType :=
  filter (fun k => k ∈ ks) (type <$> ts).

(** Every LOOKAHEAD and NEG_LOOKAHEAD token of [ts] comes right after a
    GROUP_OPEN token built two characters before it. *)
Definition lookahead_after_open (ts : list Token) : Prop :=
  forall i t,
    ts !! i = Some t -> type t = LOOKAHEAD \/ type t = NEG_LOOKAHEAD ->
    exists j o,
      i = S j /\ ts !! j = Some o /\ type o = GROUP_OPEN /\
      position t = position o + 2.

(** One token per character of [cs], the first one built at [pos]. *)
Fixpoint single_tokens (pos : nat) (cs : str) : list Token :=
  match cs with
  | [] => []
  | c :: cs' => createToken pos (single_kind c) [c] :: single_tokens (S pos) cs'
  end.

(** [segment_size input a ts b]: the tokens [ts], built while the cursor
    went from [a] to [b], are no more than the characters passed, and no
    more than the characters left from [a] on plus two (plus one when no
    group token is among them). *)
Definition segment_size (input : str) (a : nat) (ts : list Token) (b : nat)
  : Prop :=
  length ts + a <= b /\
  (a <= length input ->
   (Forall flat ts -> length ts + a <= length input + 1) /\
   length ts + a <= length input + 2).

(** The well-formed inputs on which a spread passes the most tokens for
    their length: a character class and a group of [n] plain characters. *)
Definition long_class (n : nat) : str :=
  ch "[" :: replicate n (ch "a") ++ [ch "]"].

Definition long_group (n : nat) : str :=
  ch "(" :: replicate n (ch "a") ++ [ch ")"].

(** ** Positions along a token sequence *)

Lemma chain_le lo ts hi : chain lo ts hi -> lo <= hi.
Proof.
  revert lo. induction ts as [|t ts IH]; simpl; intros lo H; [exact H|].
  destruct H as [H1 H2]. apply IH in H2. lia.
Qed.

Lemma chain_weaken lo lo' ts hi hi' :
  lo' <= lo -> hi <= hi' -> chain lo ts hi -> chain lo' ts hi'.
Proof.
  revert lo lo'. induction ts as [|t ts IH]; simpl; intros lo lo' Hlo Hhi H.
  - lia.
  - destruct H as [H1 H2]. split; [lia|]. eapply IH; eauto.
Qed.

Lemma chain_one lo t hi :
  lo <= position t -> position t <= hi -> chain lo [t] hi.
Proof. simpl. auto. Qed.

Lemma chain_app a xs b ys c :
  chain a xs b -> chain b ys c -> chain a (xs ++ ys) c.
Proof.
  revert a. induction xs as [|x xs IH]; simpl; intros a Hx Hy.
  - eapply chain_weaken; [exact Hx | reflexivity | exact Hy].
  - destruct Hx as [H1 H2]. split; [exact H1|]. apply IH; assumption.
Qed.

Lemma chain_lookup lo ts hi i t :
  chain lo ts hi -> ts !! i = Some t -> lo <= position t /\ position t <= hi.
Proof.
  revert lo i. induction ts as [|x ts IH]; intros lo i H Hi; [discriminate|].
  destruct H as [H1 H2]. destruct i as [|i]; simpl in Hi.
  - injection Hi as ->. apply chain_le in H2. lia.
  - destruct (IH _ _ H2 Hi). lia.
Qed.

Lemma chain_sorted lo ts hi i j ti tj :
  chain lo ts hi -> i <= j -> ts !! i = Some ti -> ts !! j = Some tj ->
  position ti <= position tj.
Proof.
  revert lo i j. induction ts as [|x ts IH]; intros lo i j H Hij Hi Hj;
    [discriminate|].
  destruct H as [H1 H2]. destruct i as [|i], j as [|j]; simpl in Hi, Hj.
  - assert (ti = tj) as -> by congruence. lia.
  - injection Hi as ->. eapply chain_lookup in H2; [|exact Hj]. lia.
  - lia.
  - eapply IH; [exact H2| |exact Hi|exact Hj]. lia.
Qed.

(** Case analysis on the dispatch of a loop body. *)
Ltac dispatch H :=
  repeat match type of H with
         | context [if ?b then _ else _] => destruct b eqn:?
         | context [parseQuantifier ?r ?f ?p] =>
             destruct (parseQuantifier r f p) as [[? ?]|] eqn:?
         | context [parseEscape ?r ?p] =>
             destruct (parseEscape r p) as [? ?] eqn:?
         end.

Section ScanFacts.

Variable regex : str.

(** *** The cursor and the positions of the tokens of each routine *)

Lemma appendChars_pos n text pos text' pos' :
  appendChars regex n text pos = (text', pos') -> pos' = pos + n.
Proof.
  revert text pos. induction n as [|n IH]; simpl; intros text pos H.
  - injection H as _ <-. lia.
  - apply IH in H. lia.
Qed.

Lemma parseQuantifier_loop_le fuel pos q q' pos' :
  parseQuantifier_loop regex fuel pos q = Some (q', pos') -> pos <= pos'.
Proof.
  revert pos q. induction fuel as [|fuel IH]; simpl; intros pos q H;
    destruct (regex !! pos) as [c|]; try destruct (eqc c "}");
    try (injection H as _ <-; lia); try discriminate.
  apply IH in H. lia.
Qed.

Lemma parseQuantifier_chain fuel pos t pos' :
  parseQuantifier regex fuel pos = Some (t, pos') ->
  pos < pos' /\ position t = pos'.
Proof.
  unfold parseQuantifier. intros H.
  destruct (parseQuantifier_loop regex fuel (S pos) []) as [[q p]|] eqn:E;
    [|discriminate].
  apply parseQuantifier_loop_le in E. injection H as <- <-. simpl. lia.
Qed.

Lemma parseRange_loop_chain fuel pos acc toks pos' :
  parseRange_loop regex fuel pos acc = Some (toks, pos') ->
  exists ts, toks = acc ++ ts /\ chain pos ts pos'.
Proof.
  revert pos acc. induction fuel as [|fuel IH]; simpl; intros pos acc H;
    destruct (regex !! pos) as [c|]; try destruct (eqc c "]");
    try (injection H as <- <-; exists []; rewrite app_nil_r; simpl; auto);
    try discriminate.
  destruct (eqc c "-"); apply IH in H as (ts & -> & Hc);
    (eexists; split; [symmetry; apply app_assoc|]);
    (eapply (chain_app _ [_]); [apply chain_one|exact Hc]); simpl; lia.
Qed.

Lemma parseRange_chain fuel pos toks pos' :
  parseRange regex fuel pos = Some (toks, pos') ->
  pos < pos' /\ chain pos toks pos'.
Proof.
  unfold parseRange. intros H.
  destruct (parseRange_loop regex fuel (S pos) _) as [[ts p]|] eqn:E;
    [|discriminate].
  apply parseRange_loop_chain in E as (ts' & -> & Hc).
  injection H as <- <-. pose proof (chain_le _ _ _ Hc).
  split; [lia|]. simpl. split; [lia|].
  apply (chain_app _ _ p).
  - apply (chain_weaken (S pos) _ _ p); [lia | lia | exact Hc].
  - apply chain_one; simpl; lia.
Qed.

Lemma parseEscape_chain pos t pos' :
  parseEscape regex pos = (t, pos') ->
  pos < pos' /\ pos <= position t /\ position t <= pos'.
Proof.
  unfold parseEscape, parseUnicodeEscape, parseHexEscape, parseBackreference.
  intros H.
  repeat match type of H with
         | context [if ?b then _ else _] => destruct b
         | context [appendChars ?r ?n ?x ?p] =>
             let E := fresh "E" in
             destruct (appendChars r n x p) as [u q] eqn:E;
             apply appendChars_pos in E
         end;
    injection H as <- <-; simpl; lia.
Qed.

Ltac chain_leaf :=
  match goal with
  | H : Some _ = Some _ |- _ =>
      injection H as <- <-; split; [lia | apply chain_one; simpl; lia]
  | H : None = Some _ |- _ => discriminate H
  | H : parseRange _ _ _ = Some _ |- _ => exact (parseRange_chain _ _ _ _ H)
  end.

Lemma tokenizeGroupContent_body_chain fuel pos c ts pos' :
  tokenizeGroupContent_body regex fuel pos c = Some (ts, pos') ->
  pos < pos' /\ chain pos ts pos'.
Proof.
  unfold tokenizeGroupContent_body. intros H. dispatch H;
    repeat match goal with
           | E : parseQuantifier _ _ _ = Some _ |- _ =>
               apply parseQuantifier_chain in E
           | E : parseEscape _ _ = _ |- _ => apply parseEscape_chain in E
           end;
    chain_leaf.
Qed.

Lemma tokenizeGroupContent_loop_chain fuel pos acc toks pos' :
  tokenizeGroupContent_loop regex fuel pos acc = Some (toks, pos') ->
  exists ts, toks = acc ++ ts /\ chain pos ts pos'.
Proof.
  revert pos acc. induction fuel as [|fuel IH]; simpl; intros pos acc H;
    destruct (regex !! pos) as [c|]; try destruct (eqc c ")");
    try (injection H as <- <-; exists []; rewrite app_nil_r; simpl; auto);
    try discriminate.
  destruct (tokenizeGroupContent_body regex fuel pos c) as [[ts p]|] eqn:E;
    [|discriminate].
  apply tokenizeGroupContent_body_chain in E as [Hlt Hc].
  apply IH in H as (ts' & -> & Hc').
  exists (ts ++ ts'). split; [symmetry; apply app_assoc|].
  eapply chain_app; eassumption.
Qed.

Lemma tokenizeGroupContent_chain fuel pos toks pos' :
  tokenizeGroupContent regex fuel pos = Some (toks, pos') ->
  chain pos toks pos'.
Proof.
  unfold tokenizeGroupContent. intros H.
  apply tokenizeGroupContent_loop_chain in H as (ts & -> & Hc). exact Hc.
Qed.

Lemma parseGroup_loop_chain fuel pos acc toks pos' :
  parseGroup_loop regex fuel pos acc = Some (toks, pos') ->
  exists ts, toks = acc ++ ts /\ chain pos ts pos'.
Proof.
  revert pos acc. induction fuel as [|fuel IH]; simpl; intros pos acc H;
    destruct (regex !! pos) as [c|]; try destruct (eqc c ")");
    try (injection H as <- <-; exists []; rewrite app_nil_r; simpl; auto);
    try discriminate.
  destruct (tokenizeGroupContent regex fuel pos) as [[ts p]|] eqn:E;
    [|discriminate].
  apply tokenizeGroupContent_chain in E.
  apply IH in H as (ts' & -> & Hc').
  exists (ts ++ ts'). split; [symmetry; apply app_assoc|].
  eapply chain_app; eassumption.
Qed.

Lemma parseGroup_prefix_chain pos acc toks pos' :
  parseGroup_prefix regex pos acc = (toks, pos') ->
  exists ts, toks = acc ++ ts /\ chain pos ts pos'.
Proof.
  unfold parseGroup_prefix. intros H. dispatch H; injection H as <- <-;
    first [ exists []; rewrite app_nil_r; split; [reflexivity | simpl; lia]
          | eexists; split; [reflexivity | apply chain_one; simpl; lia] ].
Qed.

Lemma parseGroup_chain fuel pos toks pos' :
  parseGroup regex fuel pos = Some (toks, pos') ->
  pos < pos' /\ chain pos toks pos'.
Proof.
  unfold parseGroup. intros H.
  destruct (parseGroup_prefix regex (S pos) _) as [ts0 p0] eqn:E0.
  apply parseGroup_prefix_chain in E0 as (ts1 & -> & Hc1).
  destruct (parseGroup_loop regex fuel p0 _) as [[ts p]|] eqn:E;
    [|discriminate].
  apply parseGroup_loop_chain in E as (ts2 & -> & Hc2).
  injection H as <- <-.
  pose proof (chain_le _ _ _ Hc1). pose proof (chain_le _ _ _ Hc2).
  split; [lia|]. simpl. split; [lia|].
  rewrite <- app_assoc. apply (chain_app _ _ p0).
  - apply (chain_weaken (S pos) _ _ p0); [lia | lia | exact Hc1].
  - apply (chain_app _ _ p); [exact Hc2 | apply chain_one; simpl; lia].
Qed.

Lemma tokenize_body_chain fuel pos c ts pos' :
  tokenize_body regex fuel pos c = Some (ts, pos') ->
  pos < pos' /\ chain pos ts pos'.
Proof.
  unfold tokenize_body. intros H. dispatch H;
    repeat match goal with
           | E : parseQuantifier _ _ _ = Some _ |- _ =>
               apply parseQuantifier_chain in E
           | E : parseEscape _ _ = _ |- _ => apply parseEscape_chain in E
           end;
    first [ exact (parseGroup_chain _ _ _ _ H) | chain_leaf ].
Qed.

Lemma tokenize_loop_chain fuel pos acc toks pos' :
  tokenize_loop regex fuel pos acc = Some (toks, pos') ->
  exists ts, toks = acc ++ ts /\ chain pos ts pos'.
Proof.
  revert pos acc. induction fuel as [|fuel IH]; simpl; intros pos acc H;
    destruct (regex !! pos) as [c|];
    try (injection H as <- <-; exists []; rewrite app_nil_r; simpl; auto);
    try discriminate.
  destruct (tokenize_body regex fuel pos c) as [[ts p]|] eqn:E;
    [|discriminate].
  apply tokenize_body_chain in E as [Hlt Hc].
  apply IH in H as (ts' & -> & Hc').
  exists (ts ++ ts'). split; [symmetry; apply app_assoc|].
  eapply chain_app; eassumption.
Qed.

(** *** Where the loops stop *)

Lemma tokenize_loop_exit fuel pos acc toks pos' :
  tokenize_loop regex fuel pos acc = Some (toks, pos') ->
  length regex <= pos'.
Proof.
  revert pos acc. induction fuel as [|fuel IH]; simpl; intros pos acc H;
    destruct (regex !! pos) as [c|] eqn:Hc;
    try (injection H as _ <-; apply lookup_ge_None; exact Hc);
    try discriminate.
  destruct (tokenize_body regex fuel pos c) as [[ts p]|]; [|discriminate].
  eapply IH; exact H.
Qed.

Lemma tokenize_loop_done fuel pos acc :
  length regex <= pos -> tokenize_loop regex fuel pos acc = Some (acc, pos).
Proof.
  intros H. apply lookup_ge_None in H. destruct fuel; simpl; rewrite H;
    reflexivity.
Qed.

Lemma eqc_true c a : eqc c a = true -> c = ch a.
Proof. unfold eqc. apply N.eqb_eq. Qed.

Lemma parseRange_loop_exit fuel pos acc toks pos' :
  parseRange_loop regex fuel pos acc = Some (toks, pos') ->
  stops_at regex "]" pos'.
Proof.
  unfold stops_at.
  revert pos acc. induction fuel as [|fuel IH]; simpl; intros pos acc H;
    destruct (regex !! pos) as [c|] eqn:Hc;
    try destruct (eqc c "]") eqn:Hb;
    try (injection H as _ <-;
         first [ left; apply eqc_true in Hb; congruence
               | right; apply lookup_ge_None; exact Hc ]);
    try discriminate.
  destruct (eqc c "-"); eapply IH; exact H.
Qed.

Lemma parseGroup_loop_exit fuel pos acc toks pos' :
  parseGroup_loop regex fuel pos acc = Some (toks, pos') ->
  stops_at regex ")" pos'.
Proof.
  unfold stops_at.
  revert pos acc. induction fuel as [|fuel IH]; simpl; intros pos acc H;
    destruct (regex !! pos) as [c|] eqn:Hc;
    try destruct (eqc c ")") eqn:Hb;
    try (injection H as _ <-;
         first [ left; apply eqc_true in Hb; congruence
               | right; apply lookup_ge_None; exact Hc ]);
    try discriminate.
  destruct (tokenizeGroupContent regex fuel pos) as [[ts p]|]; [|discriminate].
  eapply IH; exact H.
Qed.

(** *** Enough fuel *)

Lemma parseQuantifier_loop_total fuel pos q :
  length regex - pos <= fuel ->
  is_Some (parseQuantifier_loop regex fuel pos q).
Proof.
  revert pos q. induction fuel as [|fuel IH]; simpl; intros pos q H;
    destruct (regex !! pos) as [c|] eqn:Hc; try destruct (eqc c "}");
    eauto; apply lookup_lt_Some in Hc; [lia|].
  apply IH. lia.
Qed.

Lemma parseQuantifier_total fuel pos :
  length regex - S pos <= fuel -> is_Some (parseQuantifier regex fuel pos).
Proof.
  intros H. unfold parseQuantifier.
  destruct (parseQuantifier_loop_total fuel (S pos) [] H) as [[q p] ->].
  eauto.
Qed.

Lemma parseRange_loop_total fuel pos acc :
  length regex - pos <= fuel -> is_Some (parseRange_loop regex fuel pos acc).
Proof.
  revert pos acc. induction fuel as [|fuel IH]; simpl; intros pos acc H;
    destruct (regex !! pos) as [c|] eqn:Hc; try destruct (eqc c "]");
    eauto; apply lookup_lt_Some in Hc; [lia|].
  destruct (eqc c "-"); apply IH; lia.
Qed.

Lemma parseRange_total fuel pos :
  length regex - S pos <= fuel -> is_Some (parseRange regex fuel pos).
Proof.
  intros H. unfold parseRange.
  destruct (parseRange_loop_total fuel (S pos)
              [createToken pos RANGE_OPEN (lit "[")] H) as [[ts p] ->].
  eauto.
Qed.

Lemma tokenizeGroupContent_body_total fuel pos c :
  length regex - S pos <= fuel ->
  is_Some (tokenizeGroupContent_body regex fuel pos c).
Proof.
  intros H. unfold tokenizeGroupContent_body.
  destruct (parseQuantifier_total fuel pos H) as [[t p] ->].
  destruct (parseEscape regex pos) as [t' p'].
  repeat match goal with
         | |- context [if ?b then _ else _] => destruct b
         end; eauto using parseRange_total.
Qed.

Lemma tokenizeGroupContent_loop_total fuel pos acc :
  length regex - pos <= fuel ->
  is_Some (tokenizeGroupContent_loop regex fuel pos acc).
Proof.
  revert pos acc. induction fuel as [|fuel IH]; simpl; intros pos acc H;
    destruct (regex !! pos) as [c|] eqn:Hc; try destruct (eqc c ")");
    eauto; apply lookup_lt_Some in Hc; [lia|].
  destruct (tokenizeGroupContent_body_total fuel pos c) as [[ts p] E];
    [lia|].
  rewrite E. apply tokenizeGroupContent_body_chain in E as [Hlt _].
  apply IH. lia.
Qed.

(** The content scan consumes at least one character when it starts on a
    character other than the closing parenthesis. *)
Lemma tokenizeGroupContent_advance fuel pos c toks pos' :
  regex !! pos = Some c -> eqc c ")" = false ->
  tokenizeGroupContent regex fuel pos = Some (toks, pos') -> pos < pos'.
Proof.
  unfold tokenizeGroupContent. intros Hc Hb H.
  destruct fuel as [|fuel]; simpl in H; rewrite Hc, Hb in H; [discriminate|].
  destruct (tokenizeGroupContent_body regex fuel pos c) as [[ts p]|] eqn:E;
    [|discriminate].
  apply tokenizeGroupContent_body_chain in E as [Hlt _].
  apply tokenizeGroupContent_loop_chain in H as (ts' & _ & Hc').
  apply chain_le in Hc'. lia.
Qed.

Lemma parseGroup_loop_total fuel pos acc :
  length regex - pos < fuel -> is_Some (parseGroup_loop regex fuel pos acc).
Proof.
  revert pos acc. induction fuel as [|fuel IH]; intros pos acc H; [lia|].
  simpl. destruct (regex !! pos) as [c|] eqn:Hc; [|eauto].
  destruct (eqc c ")") eqn:Hb; [eauto|].
  destruct (tokenizeGroupContent_loop_total fuel pos []) as [[ts p] E];
    [lia|].
  fold (tokenizeGroupContent regex fuel pos) in E. rewrite E.
  apply (tokenizeGroupContent_advance _ _ _ _ _ Hc Hb) in E.
  apply lookup_lt_Some in Hc. apply IH. lia.
Qed.

Lemma parseGroup_total fuel pos :
  length regex - S pos < fuel -> is_Some (parseGroup regex fuel pos).
Proof.
  intros H. unfold parseGroup.
  destruct (parseGroup_prefix regex (S pos) _) as [ts0 p0] eqn:E0.
  apply parseGroup_prefix_chain in E0 as (ts1 & -> & Hc1).
  apply chain_le in Hc1.
  destruct (parseGroup_loop_total fuel p0
              ([createToken pos GROUP_OPEN (lit "(")] ++ ts1))
    as [[ts p] ->]; [lia|].
  eauto.
Qed.

Lemma tokenize_body_total fuel pos c :
  length regex - S pos < fuel -> is_Some (tokenize_body regex fuel pos c).
Proof.
  intros H. unfold tokenize_body.
  destruct (parseQuantifier_total fuel pos) as [[t p] ->]; [lia|].
  destruct (parseEscape regex pos) as [t' p'].
  repeat match goal with
         | |- context [if ?b then _ else _] => destruct b
         end; eauto using parseRange_total, parseGroup_total with lia.
Qed.

Lemma tokenize_loop_total fuel pos acc :
  length regex - pos < fuel -> is_Some (tokenize_loop regex fuel pos acc).
Proof.
  revert pos acc. induction fuel as [|fuel IH]; intros pos acc H; [lia|].
  simpl. destruct (regex !! pos) as [c|] eqn:Hc; [|eauto].
  apply lookup_lt_Some in Hc.
  destruct (tokenize_body_total fuel pos c) as [[ts p] E]; [lia|].
  rewrite E. apply tokenize_body_chain in E as [Hlt _].
  apply IH. lia.
Qed.

(** *** Where each token comes from *)

Lemma is_char_true o a : is_char o a = true -> o = Some (ch a).
Proof.
  destruct o as [c|]; simpl; [|discriminate].
  intros H. apply eqc_true in H. congruence.
Qed.

Lemma parseQuantifier_emits fuel pos t pos' :
  parseQuantifier regex fuel pos = Some (t, pos') -> emits regex t.
Proof.
  unfold parseQuantifier. intros H.
  destruct (parseQuantifier_loop regex fuel (S pos) []) as [[q p]|];
    [|discriminate].
  injection H as <- _. constructor.
Qed.

Lemma parseRange_loop_emits fuel pos acc toks pos' :
  parseRange_loop regex fuel pos acc = Some (toks, pos') ->
  Forall (emits regex) acc -> Forall (emits regex) toks.
Proof.
  revert pos acc. induction fuel as [|fuel IH]; simpl; intros pos acc H Hacc;
    destruct (regex !! pos) as [c|] eqn:Hc; try destruct (eqc c "]");
    try (injection H as <- _; exact Hacc); try discriminate.
  destruct (eqc c "-") eqn:Hd; (apply IH in H; [exact H|]);
    (apply Forall_app; split; [exact Hacc|]); apply Forall_singleton.
  - apply eqc_true in Hd. subst c.
    change (lit "-") with [ch "-"]. apply emits_char. exact Hc.
  - apply emits_char. exact Hc.
Qed.

Lemma parseRange_emits fuel pos toks pos' :
  regex !! pos = Some (ch "[") ->
  parseRange regex fuel pos = Some (toks, pos') -> Forall (emits regex) toks.
Proof.
  unfold parseRange. intros Hc H.
  destruct (parseRange_loop regex fuel (S pos) _) as [[ts p]|] eqn:E;
    [|discriminate].
  injection H as <- _. apply Forall_app. split.
  - eapply parseRange_loop_emits; [exact E|].
    apply Forall_singleton, emits_range_open, Hc.
  - apply Forall_singleton, emits_range_close.
    eapply parseRange_loop_exit. exact E.
Qed.

Lemma parseEscape_emits pos t pos' :
  regex !! pos = Some (ch "\") ->
  parseEscape regex pos = (t, pos') -> emits regex t.
Proof.
  unfold parseEscape, parseUnicodeEscape, parseHexEscape, parseBackreference.
  intros Hc H.
  destruct (is_char (regex !! S pos) "u") eqn:Hu.
  { apply is_char_true in Hu.
    destruct (appendChars regex 4 (lit "\u") (S (S pos))) as [u q] eqn:E.
    pose proof (appendChars_pos _ _ _ _ _ E) as ->.
    injection H as <- _.
    match goal with
    | |- emits _ ?t =>
        replace t with
          (createToken (6 + pos) UNICODE_ESCAPE
             (fst (appendChars regex 4 (lit "\u") (2 + pos))))
    end.
    - apply emits_unicode; assumption.
    - unfold createToken. f_equal; [|lia].
      change (2 + pos) with (S (S pos)). rewrite E. reflexivity. }
  destruct (is_char (regex !! S pos) "x") eqn:Hx.
  { apply is_char_true in Hx.
    destruct (appendChars regex 2 (lit "\x") (S (S pos))) as [u q] eqn:E.
    pose proof (appendChars_pos _ _ _ _ _ E) as ->.
    injection H as <- _.
    match goal with
    | |- emits _ ?t =>
        replace t with
          (createToken (4 + pos) HEX_ESCAPE
             (fst (appendChars regex 2 (lit "\x") (2 + pos))))
    end.
    - apply emits_hex; assumption.
    - unfold createToken. f_equal; [|lia].
      change (2 + pos) with (S (S pos)). rewrite E. reflexivity. }
  destruct (isDigit (regex !! S pos)) eqn:Hd.
  { destruct (regex !! S pos) as [d|] eqn:Hr; [|discriminate].
    injection H as <- _. apply (emits_backreference regex pos d); assumption. }
  injection H as <- _. apply emits_escape. exact Hc.
Qed.

Ltac emits_leaf Hc :=
  repeat match goal with
         | E : eqc _ _ = true |- _ => apply eqc_true in E; subst
         end;
  match goal with
  | H : Some _ = Some _ |- _ =>
      injection H as <- _; apply Forall_singleton;
      first [ apply emits_anchor, Hc | apply emits_meta, Hc
            | apply emits_pipe, Hc | apply emits_char, Hc
            | eapply parseQuantifier_emits; eassumption
            | eapply parseEscape_emits; eassumption ]
  | H : None = Some _ |- _ => discriminate H
  | H : parseRange _ _ _ = Some _ |- _ =>
      exact (parseRange_emits _ _ _ _ Hc H)
  end.

Lemma tokenizeGroupContent_body_emits fuel pos c ts pos' :
  regex !! pos = Some c ->
  tokenizeGroupContent_body regex fuel pos c = Some (ts, pos') ->
  Forall (emits regex) ts.
Proof.
  unfold tokenizeGroupContent_body, isQuantifierStart. intros Hc H.
  dispatch H; emits_leaf Hc.
Qed.

Lemma tokenizeGroupContent_loop_emits fuel pos acc toks pos' :
  tokenizeGroupContent_loop regex fuel pos acc = Some (toks, pos') ->
  Forall (emits regex) acc -> Forall (emits regex) toks.
Proof.
  revert pos acc. induction fuel as [|fuel IH]; simpl; intros pos acc H Hacc;
    destruct (regex !! pos) as [c|] eqn:Hc; try destruct (eqc c ")");
    try (injection H as <- _; exact Hacc); try discriminate.
  destruct (tokenizeGroupContent_body regex fuel pos c) as [[ts p]|] eqn:E;
    [|discriminate].
  apply (tokenizeGroupContent_body_emits _ _ _ _ _ Hc) in E.
  apply IH in H; [exact H|]. apply Forall_app. split; assumption.
Qed.

Lemma parseGroup_loop_emits fuel pos acc toks pos' :
  parseGroup_loop regex fuel pos acc = Some (toks, pos') ->
  Forall (emits regex) acc -> Forall (emits regex) toks.
Proof.
  revert pos acc. induction fuel as [|fuel IH]; simpl; intros pos acc H Hacc;
    destruct (regex !! pos) as [c|] eqn:Hc; try destruct (eqc c ")");
    try (injection H as <- _; exact Hacc); try discriminate.
  destruct (tokenizeGroupContent regex fuel pos) as [[ts p]|] eqn:E;
    [|discriminate].
  apply tokenizeGroupContent_loop_emits in E; [|constructor].
  apply IH in H; [exact H|]. apply Forall_app. split; assumption.
Qed.

Lemma parseGroup_prefix_emits pos acc toks pos' :
  regex !! pos = Some (ch "(") ->
  parseGroup_prefix regex (S pos) acc = (toks, pos') ->
  Forall (emits regex) acc -> Forall (emits regex) toks.
Proof.
  unfold parseGroup_prefix. intros Hc H Hacc.
  dispatch H; injection H as <- _; try exact Hacc;
    repeat match goal with
           | E : is_char _ _ = true |- _ => apply is_char_true in E
           end;
    (apply Forall_app; split; [exact Hacc|]); apply Forall_singleton.
  - apply emits_lookahead; assumption.
  - apply emits_neg_lookahead; assumption.
Qed.

Lemma parseGroup_emits fuel pos toks pos' :
  regex !! pos = Some (ch "(") ->
  parseGroup regex fuel pos = Some (toks, pos') -> Forall (emits regex) toks.
Proof.
  unfold parseGroup. intros Hc H.
  destruct (parseGroup_prefix regex (S pos) _) as [ts0 p0] eqn:E0.
  apply (parseGroup_prefix_emits _ _ _ _ Hc) in E0;
    [|apply Forall_singleton, emits_group_open, Hc].
  destruct (parseGroup_loop regex fuel p0 ts0) as [[ts p]|] eqn:E;
    [|discriminate].
  injection H as <- _. apply Forall_app. split.
  - eapply parseGroup_loop_emits; eassumption.
  - apply Forall_singleton, emits_group_close.
    eapply parseGroup_loop_exit. exact E.
Qed.

Lemma tokenize_body_emits fuel pos c ts pos' :
  regex !! pos = Some c ->
  tokenize_body regex fuel pos c = Some (ts, pos') -> Forall (emits regex) ts.
Proof.
  unfold tokenize_body, isQuantifierStart. intros Hc H.
  dispatch H;
    first [ match goal with
            | E : eqc c "(" = true |- _ =>
                apply eqc_true in E; subst c;
                exact (parseGroup_emits _ _ _ _ Hc H)
            end
          | emits_leaf Hc ].
Qed.

Lemma tokenize_loop_emits fuel pos acc toks pos' :
  tokenize_loop regex fuel pos acc = Some (toks, pos') ->
  Forall (emits regex) acc -> Forall (emits regex) toks.
Proof.
  revert pos acc. induction fuel as [|fuel IH]; simpl; intros pos acc H Hacc;
    destruct (regex !! pos) as [c|] eqn:Hc;
    try (injection H as <- _; exact Hacc); try discriminate.
  destruct (tokenize_body regex fuel pos c) as [[ts p]|] eqn:E;
    [|discriminate].
  apply (tokenize_body_emits _ _ _ _ _ Hc) in E.
  apply IH in H; [exact H|]. apply Forall_app. split; assumption.
Qed.

(** *** More fuel changes nothing *)

Lemma parseQuantifier_loop_mono fuel fuel' pos q r :
  fuel <= fuel' ->
  parseQuantifier_loop regex fuel pos q = Some r ->
  parseQuantifier_loop regex fuel' pos q = Some r.
Proof.
  revert fuel' pos q.
  induction fuel as [|fuel IH]; intros [|fuel'] pos q Hle; simpl;
    destruct (regex !! pos) as [c|]; try destruct (eqc c "}");
    auto; try discriminate; try lia.
  apply IH. lia.
Qed.

Lemma parseQuantifier_mono fuel fuel' pos r :
  fuel <= fuel' ->
  parseQuantifier regex fuel pos = Some r ->
  parseQuantifier regex fuel' pos = Some r.
Proof.
  unfold parseQuantifier. intros Hle H.
  destruct (parseQuantifier_loop regex fuel (S pos) []) as [x|] eqn:E;
    [|discriminate].
  rewrite (parseQuantifier_loop_mono _ _ _ _ _ Hle E). exact H.
Qed.

Lemma parseRange_loop_mono fuel fuel' pos acc r :
  fuel <= fuel' ->
  parseRange_loop regex fuel pos acc = Some r ->
  parseRange_loop regex fuel' pos acc = Some r.
Proof.
  revert fuel' pos acc.
  induction fuel as [|fuel IH]; intros [|fuel'] pos acc Hle; simpl;
    destruct (regex !! pos) as [c|]; try destruct (eqc c "]");
    auto; try discriminate; try lia.
  destruct (eqc c "-"); apply IH; lia.
Qed.

Lemma parseRange_mono fuel fuel' pos r :
  fuel <= fuel' ->
  parseRange regex fuel pos = Some r -> parseRange regex fuel' pos = Some r.
Proof.
  unfold parseRange. intros Hle H.
  destruct (parseRange_loop regex fuel (S pos) _) as [x|] eqn:E;
    [|discriminate].
  rewrite (parseRange_loop_mono _ _ _ _ _ Hle E). exact H.
Qed.

Lemma tokenizeGroupContent_body_mono fuel fuel' pos c r :
  fuel <= fuel' ->
  tokenizeGroupContent_body regex fuel pos c = Some r ->
  tokenizeGroupContent_body regex fuel' pos c = Some r.
Proof.
  unfold tokenizeGroupContent_body. intros Hle H.
  repeat match goal with
         | |- context [if ?b then _ else _] => destruct b
         end; eauto using parseRange_mono.
  destruct (parseQuantifier regex fuel pos) as [x|] eqn:E; [|discriminate].
  rewrite (parseQuantifier_mono _ _ _ _ Hle E). exact H.
Qed.

Lemma tokenizeGroupContent_loop_mono fuel fuel' pos acc r :
  fuel <= fuel' ->
  tokenizeGroupContent_loop regex fuel pos acc = Some r ->
  tokenizeGroupContent_loop regex fuel' pos acc = Some r.
Proof.
  revert fuel' pos acc.
  induction fuel as [|fuel IH]; intros [|fuel'] pos acc Hle; simpl;
    destruct (regex !! pos) as [c|]; try destruct (eqc c ")");
    auto; try discriminate; try lia.
  intros H.
  destruct (tokenizeGroupContent_body regex fuel pos c) as [[ts p]|] eqn:E;
    [|discriminate].
  rewrite (tokenizeGroupContent_body_mono fuel fuel' _ _ _ ltac:(lia) E).
  apply IH; [lia | exact H].
Qed.

Lemma parseGroup_loop_mono fuel fuel' pos acc r :
  fuel <= fuel' ->
  parseGroup_loop regex fuel pos acc = Some r ->
  parseGroup_loop regex fuel' pos acc = Some r.
Proof.
  revert fuel' pos acc.
  induction fuel as [|fuel IH]; intros [|fuel'] pos acc Hle; simpl;
    destruct (regex !! pos) as [c|]; try destruct (eqc c ")");
    auto; try discriminate; try lia.
  intros H. unfold tokenizeGroupContent in *.
  destruct (tokenizeGroupContent_loop regex fuel pos []) as [[ts p]|] eqn:E;
    [|discriminate].
  rewrite (tokenizeGroupContent_loop_mono fuel fuel' _ _ _ ltac:(lia) E).
  apply IH; [lia | exact H].
Qed.

Lemma parseGroup_mono fuel fuel' pos r :
  fuel <= fuel' ->
  parseGroup regex fuel pos = Some r -> parseGroup regex fuel' pos = Some r.
Proof.
  unfold parseGroup. intros Hle H.
  destruct (parseGroup_prefix regex (S pos) _) as [ts0 p0].
  destruct (parseGroup_loop regex fuel p0 ts0) as [x|] eqn:E; [|discriminate].
  rewrite (parseGroup_loop_mono _ _ _ _ _ Hle E). exact H.
Qed.

Lemma tokenize_body_mono fuel fuel' pos c r :
  fuel <= fuel' ->
  tokenize_body regex fuel pos c = Some r ->
  tokenize_body regex fuel' pos c = Some r.
Proof.
  unfold tokenize_body. intros Hle H.
  repeat match goal with
         | |- context [if ?b then _ else _] => destruct b
         end; eauto using parseRange_mono, parseGroup_mono.
  destruct (parseQuantifier regex fuel pos) as [x|] eqn:E; [|discriminate].
  rewrite (parseQuantifier_mono _ _ _ _ Hle E). exact H.
Qed.

Lemma tokenize_loop_mono fuel fuel' pos acc r :
  fuel <= fuel' ->
  tokenize_loop regex fuel pos acc = Some r ->
  tokenize_loop regex fuel' pos acc = Some r.
Proof.
  revert fuel' pos acc.
  induction fuel as [|fuel IH]; intros [|fuel'] pos acc Hle; simpl;
    destruct (regex !! pos) as [c|]; auto; try discriminate; try lia.
  intros H.
  destruct (tokenize_body regex fuel pos c) as [[ts p]|] eqn:E;
    [|discriminate].
  rewrite (tokenize_body_mono fuel fuel' _ _ _ ltac:(lia) E).
  apply IH; [lia | exact H].
Qed.

End ScanFacts.

(** ** The public method *)

Lemma tokenize_inv fuel this toks this' :
  tokenize fuel this = Some (toks, this') ->
  tokenize_loop (regex this) fuel (cursor this) [] = Some (toks, cursor this')
  /\ regex this' = regex this.
Proof.
  unfold tokenize. intros H.
  destruct (tokenize_loop (regex this) fuel (cursor this) [])
    as [[ts p]|]; [|discriminate].
  injection H as <- <-. split; reflexivity.
Qed.

Lemma tokens_of_inv fuel input toks :
  tokens_of fuel input = Some toks ->
  exists pos', tokenize_loop input fuel 0 [] = Some (toks, pos').
Proof.
  unfold tokens_of. intros H.
  destruct (tokenize fuel (new_Regsafe input)) as [[ts this']|] eqn:E;
    [|discriminate].
  injection H as <-. apply tokenize_inv in E as [E _]. eauto.
Qed.

Lemma tokenize_mono fuel fuel' this r :
  fuel <= fuel' -> tokenize fuel this = Some r -> tokenize fuel' this = Some r.
Proof.
  unfold tokenize. intros Hle H.
  destruct (tokenize_loop (regex this) fuel (cursor this) []) as [x|] eqn:E;
    [|discriminate].
  rewrite (tokenize_loop_mono _ _ _ _ _ _ Hle E). exact H.
Qed.

Lemma tokens_of_mono fuel fuel' input toks :
  fuel <= fuel' ->
  tokens_of fuel input = Some toks -> tokens_of fuel' input = Some toks.
Proof.
  unfold tokens_of. intros Hle H.
  destruct (tokenize fuel (new_Regsafe input)) as [x|] eqn:E; [|discriminate].
  rewrite (tokenize_mono _ _ _ _ Hle E). exact H.
Qed.

Lemma parseGroup_shape input fuel pos toks pos' :
  parseGroup input fuel pos = Some (toks, pos') ->
  exists ts p,
    toks = ts ++ [createToken p GROUP_CLOSE (lit ")")] /\ pos' = S p /\
    stops_at input ")" p.
Proof.
  unfold parseGroup. intros H.
  destruct (parseGroup_prefix input (S pos) _) as [ts0 p0].
  destruct (parseGroup_loop input fuel p0 ts0) as [[ts p]|] eqn:E;
    [|discriminate].
  injection H as <- <-. exists ts, p. repeat split.
  eapply parseGroup_loop_exit. exact E.
Qed.

Lemma tokenize_loop_runs input fuel pos acc toks pos' :
  pos < length input ->
  tokenize_loop input fuel pos acc = Some (toks, pos') -> pos < pos'.
Proof.
  intros Hlt H. destruct (lookup_lt_is_Some_2 input pos Hlt) as [c Hc].
  destruct fuel as [|fuel]; simpl in H; rewrite Hc in H; [discriminate|].
  destruct (tokenize_body input fuel pos c) as [[ts p]|] eqn:E;
    [|discriminate].
  apply tokenize_body_chain in E as [Hp _].
  apply tokenize_loop_chain in H as (ts' & _ & Hc').
  apply chain_le in Hc'. lia.
Qed.

(** C4: [tokenize] runs to completion on every input string.  Every scan
    routine leaves the cursor past where it found it (the content scan, which
    may have nothing to do, at least not before it), so the cursor never
    decreases and every iteration of the top-level loop strictly advances
    it.  Whether the loop goes on depends on the cursor and the input length
    alone: at or past the length it stops at once, whatever the fuel and
    the tokens so far, and before the length it does not stop there.  With
    more fuel than characters left the loop ends with a result and a cursor
    at or past the input length. *)
Theorem tokenize_terminates (input : str) (fuel : nat) :
  advances (parseQuantifier input fuel) /\
  advances (parseRange input fuel) /\
  advances (fun pos => Some (parseEscape input pos)) /\
  never_decreases (tokenizeGroupContent input fuel) /\
  advances (parseGroup input fuel) /\
  (forall c, advances (fun pos => tokenize_body input fuel pos c)) /\
  (forall pos acc,
      length input <= pos ->
      tokenize_loop input fuel pos acc = Some (acc, pos)) /\
  (forall pos acc toks pos',
      pos < length input ->
      tokenize_loop input fuel pos acc = Some (toks, pos') -> pos < pos') /\
  (forall pos acc,
      length input - pos < fuel ->
      exists toks pos',
        tokenize_loop input fuel pos acc = Some (toks, pos') /\
        pos <= pos' /\ length input <= pos').
Proof.
  unfold advances, never_decreases. repeat split.
  - intros pos t pos' H. apply parseQuantifier_chain in H. lia.
  - intros pos t pos' H. apply parseRange_chain in H. lia.
  - intros pos t pos' H. injection H as H. apply parseEscape_chain in H. lia.
  - intros pos t pos' H. apply tokenizeGroupContent_chain, chain_le in H.
    exact H.
  - intros pos t pos' H. apply parseGroup_chain in H. lia.
  - intros c pos t pos' H. apply tokenize_body_chain in H. lia.
  - intros pos acc H. apply tokenize_loop_done. exact H.
  - intros pos acc toks pos'. apply tokenize_loop_runs.
  - intros pos acc H.
    destruct (tokenize_loop_total input fuel pos acc H) as [[toks pos'] E].
    exists toks, pos'. split; [exact E|]. split.
    + apply tokenize_loop_chain in E as (ts & _ & Hc).
      apply chain_le in Hc. exact Hc.
    + eapply tokenize_loop_exit. exact E.
Qed.

Lemma tokenize_terminates_witness :
  length (lit "(a{[\") - 0 < 6 /\
  exists toks pos',
    tokenize_loop (lit "(a{[\") 6 0 [] = Some (toks, pos') /\
    0 <= pos' /\ length (lit "(a{[\") <= pos'.
Proof.
  assert (H : length (lit "(a{[\") - 0 < 6) by (vm_compute; lia).
  split; [exact H|].
  destruct (tokenize_terminates (lit "(a{[\") 6)
    as (_ & _ & _ & _ & _ & _ & _ & _ & T).
  exact (T 0 [] H).
Defined.

(** C9: the positions of the tokens that [tokenize] returns are
    non-decreasing in sequence order: a token never has a smaller position
    than a token before it. *)
Theorem positions_non_decreasing (input : str) (fuel : nat)
    (toks : list Token) (i j : nat) (ti tj : Token) :
  tokens_of fuel input = Some toks ->
  i <= j -> toks !! i = Some ti -> toks !! j = Some tj ->
  position ti <= position tj.
Proof.
  intros H Hij Hi Hj. apply tokens_of_inv in H as [pos' H].
  apply tokenize_loop_chain in H as (ts & -> & Hc). simpl in Hi, Hj.
  eapply chain_sorted; eassumption.
Qed.

Lemma positions_non_decreasing_witness :
  tokens_of 4 (lit "\10") =
    Some [createToken 2 BACKREFERENCE (lit "\1"); createToken 2 CHAR (lit "0")]
  /\ position (createToken 2 BACKREFERENCE (lit "\1"))
     <= position (createToken 2 CHAR (lit "0")).
Proof.
  assert (H : tokens_of 4 (lit "\10") =
    Some [createToken 2 BACKREFERENCE (lit "\1"); createToken 2 CHAR (lit "0")])
    by (vm_compute; reflexivity).
  split; [exact H|].
  apply (positions_non_decreasing (lit "\10") 4 _ 0 1 _ _ H);
    [lia | reflexivity | reflexivity].
Defined.

(** C10: a second call of [tokenize] on the same instance returns the empty
    token sequence.  The first call leaves the cursor at or past the input
    length and nothing resets it, so the loop body of the second call never
    runs (it needs no fuel). *)
Theorem second_tokenize_is_empty (input : str) (fuel fuel' : nat)
    (toks : list Token) (this' : Regsafe) :
  tokenize fuel (new_Regsafe input) = Some (toks, this') ->
  length input <= cursor this' /\
  tokenize fuel' this' = Some ([], this').
Proof.
  intros H. apply tokenize_inv in H as [H Hr]. simpl in H, Hr.
  apply tokenize_loop_exit in H.
  split; [exact H|]. unfold tokenize. rewrite Hr.
  rewrite tokenize_loop_done by exact H.
  destruct this' as [r c]. simpl in *. subst r. reflexivity.
Qed.

Lemma second_tokenize_is_empty_witness :
  tokenize 6 (new_Regsafe (lit "(a|b)")) =
    Some ([createToken 0 GROUP_OPEN (lit "("); createToken 1 CHAR (lit "a");
           createToken 2 PIPE (lit "|"); createToken 3 CHAR (lit "b");
           createToken 4 GROUP_CLOSE (lit ")")],
          {| regex := lit "(a|b)"; cursor := 5 |})
  /\ tokenize 0 {| regex := lit "(a|b)"; cursor := 5 |} =
       Some ([], {| regex := lit "(a|b)"; cursor := 5 |}).
Proof.
  assert (H : tokenize 6 (new_Regsafe (lit "(a|b)")) =
    Some ([createToken 0 GROUP_OPEN (lit "("); createToken 1 CHAR (lit "a");
           createToken 2 PIPE (lit "|"); createToken 3 CHAR (lit "b");
           createToken 4 GROUP_CLOSE (lit ")")],
          {| regex := lit "(a|b)"; cursor := 5 |}))
    by (vm_compute; reflexivity).
  split; [exact H|].
  exact (proj2 (second_tokenize_is_empty (lit "(a|b)") 6 0 _ _ H)).
Defined.

(** ** The documented example *)

(** The first six tokens that the README lists for its sample input, and
    the tokens that follow them. *)
Example readme_sample :
  tokens_of 30 (lit "(a|b)*[a-z]{1,3}\d+\u0041") =
    Some [createToken 0 GROUP_OPEN (lit "("); createToken 1 CHAR (lit "a");
          createToken 2 PIPE (lit "|"); createToken 3 CHAR (lit "b");
          createToken 4 GROUP_CLOSE (lit ")");
          createToken 5 META_CHAR (lit "*");
          createToken 6 RANGE_OPEN (lit "["); createToken 7 CHAR (lit "a");
          createToken 8 CHAR (lit "-"); createToken 9 CHAR (lit "z");
          createToken 10 RANGE_CLOSE (lit "]");
          createToken 16 QUANTIFIER (lit "1,3}");
          createToken 17 ESCAPE (lit "\d");
          createToken 18 META_CHAR (lit "+");
          createToken 25 UNICODE_ESCAPE (lit "\u0041")].
Proof. vm_compute. reflexivity. Qed.

(** Malformed input: an unmatched delimiter still gets its closing token,
    and a read past the end of the input contributes the text [undefined]. *)
Example unmatched_delimiters :
  tokens_of 5 (lit "[a") =
    Some [createToken 0 RANGE_OPEN (lit "["); createToken 1 CHAR (lit "a");
          createToken 2 RANGE_CLOSE (lit "]")]
  /\ tokens_of 5 (lit "{1") = Some [createToken 3 QUANTIFIER (lit "1}")]
  /\ tokens_of 5 (lit "\") = Some [createToken 1 ESCAPE (lit "\undefined")]
  /\ tokens_of 5 (lit "\x4") =
       Some [createToken 4 HEX_ESCAPE (lit "\x4undefined")].
Proof. vm_compute. repeat split. Qed.

(** ** Groups *)

Lemma parseRange_loop_flat input fuel pos acc toks pos' :
  parseRange_loop input fuel pos acc = Some (toks, pos') ->
  Forall flat acc -> Forall flat toks.
Proof.
  revert pos acc. induction fuel as [|fuel IH]; simpl; intros pos acc H Hacc;
    destruct (input !! pos) as [c|]; try destruct (eqc c "]");
    try (injection H as <- _; exact Hacc); try discriminate.
  destruct (eqc c "-"); (apply IH in H; [exact H|]);
    (apply Forall_app; split; [exact Hacc|]); apply Forall_singleton;
    reflexivity.
Qed.

Lemma parseRange_flat input fuel pos toks pos' :
  parseRange input fuel pos = Some (toks, pos') -> Forall flat toks.
Proof.
  unfold parseRange. intros H.
  destruct (parseRange_loop input fuel (S pos) _) as [[ts p]|] eqn:E;
    [|discriminate].
  injection H as <- _. apply Forall_app. split.
  - eapply parseRange_loop_flat; [exact E|]. apply Forall_singleton.
    reflexivity.
  - apply Forall_singleton. reflexivity.
Qed.

Lemma parseQuantifier_flat input fuel pos t pos' :
  parseQuantifier input fuel pos = Some (t, pos') -> flat t.
Proof.
  unfold parseQuantifier. intros H.
  destruct (parseQuantifier_loop input fuel (S pos) []) as [[q p]|];
    [|discriminate].
  injection H as <- _. reflexivity.
Qed.

Lemma parseEscape_flat input pos t pos' :
  parseEscape input pos = (t, pos') -> flat t.
Proof.
  unfold parseEscape, parseUnicodeEscape, parseHexEscape, parseBackreference.
  intros H.
  repeat match type of H with
         | context [if ?b then _ else _] => destruct b
         | context [appendChars ?r ?n ?x ?p] =>
             destruct (appendChars r n x p) as [? ?]
         end;
    injection H as <- _; reflexivity.
Qed.

Lemma tokenizeGroupContent_body_flat input fuel pos c ts pos' :
  tokenizeGroupContent_body input fuel pos c = Some (ts, pos') ->
  Forall flat ts.
Proof.
  unfold tokenizeGroupContent_body. intros H. dispatch H;
    match goal with
    | H : parseRange _ _ _ = Some _ |- _ => exact (parseRange_flat _ _ _ _ _ H)
    | H : None = Some _ |- _ => discriminate H
    | H : Some _ = Some _ |- _ =>
        injection H as <- _; apply Forall_singleton;
        first [ reflexivity
              | eapply parseQuantifier_flat; eassumption
              | eapply parseEscape_flat; eassumption ]
    end.
Qed.

Lemma tokenizeGroupContent_loop_flat input fuel pos acc toks pos' :
  tokenizeGroupContent_loop input fuel pos acc = Some (toks, pos') ->
  Forall flat acc -> Forall flat toks.
Proof.
  revert pos acc. induction fuel as [|fuel IH]; simpl; intros pos acc H Hacc;
    destruct (input !! pos) as [c|]; try destruct (eqc c ")");
    try (injection H as <- _; exact Hacc); try discriminate.
  destruct (tokenizeGroupContent_body input fuel pos c) as [[ts p]|] eqn:E;
    [|discriminate].
  apply tokenizeGroupContent_body_flat in E.
  apply IH in H; [exact H|]. apply Forall_app. split; assumption.
Qed.

(** C5: group content is emitted flat.  Inside a group a ["("] is not
    special-cased: the content scan turns it into a plain CHAR token and
    moves on by one character; the content scan never builds a GROUP_OPEN,
    GROUP_CLOSE, LOOKAHEAD or NEG_LOOKAHEAD token; and on ["(a|b)"]
    [tokenize] returns exactly GROUP_OPEN, CHAR [a], PIPE, CHAR [b],
    GROUP_CLOSE, at positions 0 to 4. *)
Theorem group_content_is_flat :
  (forall input fuel pos,
      tokenizeGroupContent_body input fuel pos (ch "(") =
        Some ([createToken pos CHAR (lit "(")], S pos)) /\
  (forall input fuel pos toks pos',
      tokenizeGroupContent input fuel pos = Some (toks, pos') ->
      Forall (fun t => group_kind (type t) = false) toks) /\
  (forall fuel,
      5 < fuel ->
      tokens_of fuel (lit "(a|b)") =
        Some [createToken 0 GROUP_OPEN (lit "("); createToken 1 CHAR (lit "a");
              createToken 2 PIPE (lit "|"); createToken 3 CHAR (lit "b");
              createToken 4 GROUP_CLOSE (lit ")")]).
Proof.
  repeat split.
  - intros input fuel pos toks pos' H.
    apply tokenizeGroupContent_loop_flat in H; [exact H | constructor].
  - intros fuel Hfuel. apply (tokens_of_mono 6); [lia|].
    vm_compute. reflexivity.
Qed.

Lemma group_content_is_flat_witness :
  tokenizeGroupContent (lit "((a))") 5 1 =
    Some ([createToken 1 CHAR (lit "("); createToken 2 CHAR (lit "a")], 3)
  /\ Forall (fun t => group_kind (type t) = false)
       [createToken 1 CHAR (lit "("); createToken 2 CHAR (lit "a")]
  /\ 5 < 6
  /\ tokens_of 6 (lit "(a|b)") =
       Some [createToken 0 GROUP_OPEN (lit "("); createToken 1 CHAR (lit "a");
             createToken 2 PIPE (lit "|"); createToken 3 CHAR (lit "b");
             createToken 4 GROUP_CLOSE (lit ")")].
Proof.
  assert (H : tokenizeGroupContent (lit "((a))") 5 1 =
    Some ([createToken 1 CHAR (lit "("); createToken 2 CHAR (lit "a")], 3))
    by (vm_compute; reflexivity).
  assert (L : 5 < 6) by lia.
  destruct group_content_is_flat as (_ & F & E).
  split; [exact H|]. split; [exact (F _ _ _ _ _ H)|].
  split; [exact L | exact (E 6 L)].
Defined.

Lemma is_char_Some (input : str) (pos : nat) a :
  input !! pos = Some (ch a) -> is_char (input !! pos) a = true.
Proof. intros ->. simpl. unfold eqc. apply N.eqb_refl. Qed.

(** C6: when a group opens with ["(?"] and the next character is ["="], the
    group scan builds a LOOKAHEAD token with text ["(?="] right after the
    GROUP_OPEN token and before it scans the content, which starts three
    characters after the ["("]; when the next character is ["!"], it builds
    in the same place a NEG_LOOKAHEAD token whose text is the fixed ["(?!)"],
    whatever the input holds after it.  On ["(?=a)"] the tokens are
    GROUP_OPEN, LOOKAHEAD ["(?="], CHAR [a], GROUP_CLOSE. *)
Theorem lookahead_tokens :
  (forall (input : str) (fuel pos : nat),
      input !! S pos = Some (ch "?") ->
      input !! S (S pos) = Some (ch "=") ->
      parseGroup input fuel pos =
        close_group
          (parseGroup_loop input fuel (3 + pos)
             [createToken pos GROUP_OPEN (lit "(");
              createToken (2 + pos) LOOKAHEAD (lit "(?=")])) /\
  (forall (input : str) (fuel pos : nat),
      input !! S pos = Some (ch "?") ->
      input !! S (S pos) = Some (ch "!") ->
      parseGroup input fuel pos =
        close_group
          (parseGroup_loop input fuel (3 + pos)
             [createToken pos GROUP_OPEN (lit "(");
              createToken (2 + pos) NEG_LOOKAHEAD (lit "(?!)")])) /\
  (forall fuel,
      5 < fuel ->
      tokens_of fuel (lit "(?=a)") =
        Some [createToken 0 GROUP_OPEN (lit "(");
              createToken 2 LOOKAHEAD (lit "(?=");
              createToken 3 CHAR (lit "a");
              createToken 4 GROUP_CLOSE (lit ")")]).
Proof.
  split; [|split].
  - intros input fuel pos Hq He. unfold parseGroup, parseGroup_prefix.
    rewrite (is_char_Some _ _ _ Hq), (is_char_Some _ _ _ He). reflexivity.
  - intros input fuel pos Hq He. unfold parseGroup, parseGroup_prefix.
    rewrite (is_char_Some _ _ _ Hq), He.
    change (is_char (Some (ch "!")) "=") with false.
    change (is_char (Some (ch "!")) "!") with true. reflexivity.
  - intros fuel Hfuel. apply (tokens_of_mono 6); [lia|].
    vm_compute. reflexivity.
Qed.

Lemma lookahead_tokens_witness :
  parseGroup (lit "(?=a)") 5 0 =
    Some ([createToken 0 GROUP_OPEN (lit "(");
           createToken 2 LOOKAHEAD (lit "(?=");
           createToken 3 CHAR (lit "a");
           createToken 4 GROUP_CLOSE (lit ")")], 5)
  /\ parseGroup (lit "(?!a)") 5 0 =
    Some ([createToken 0 GROUP_OPEN (lit "(");
           createToken 2 NEG_LOOKAHEAD (lit "(?!)");
           createToken 3 CHAR (lit "a");
           createToken 4 GROUP_CLOSE (lit ")")], 5)
  /\ tokens_of 6 (lit "(?=a)") =
       Some [createToken 0 GROUP_OPEN (lit "(");
             createToken 2 LOOKAHEAD (lit "(?=");
             createToken 3 CHAR (lit "a");
             createToken 4 GROUP_CLOSE (lit ")")].
Proof.
  destruct lookahead_tokens as (A & B & C).
  split; [|split].
  - rewrite (A (lit "(?=a)") 5 0); reflexivity.
  - rewrite (B (lit "(?!a)") 5 0); reflexivity.
  - apply (C 6). lia.
Defined.

(** C7: the prefixes ["(?:"], ["(?<="] and ["(?<!"] have no token kind of
    their own.  When the character after ["(?"] is neither ["="] nor ["!"],
    the prefix of the group scan builds no token and leaves the cursor on
    that character, which the content scan then handles like any other:
    [":"], ["<"], ["="] and ["!"] each become a plain CHAR token. *)
Theorem other_group_prefixes_fall_through :
  (forall (input : str) (pos : nat) tokens,
      input !! pos = Some (ch "?") ->
      is_char (input !! S pos) "=" = false ->
      is_char (input !! S pos) "!" = false ->
      parseGroup_prefix input pos tokens = (tokens, S pos)) /\
  (forall input fuel pos c,
      c ∈ [ch ":"; ch "<"; ch "="; ch "!"] ->
      tokenizeGroupContent_body input fuel pos c =
        Some ([createToken pos CHAR [c]], S pos)) /\
  (forall fuel,
      6 < fuel ->
      tokens_of fuel (lit "(?:a)") =
        Some [createToken 0 GROUP_OPEN (lit "("); createToken 2 CHAR (lit ":");
              createToken 3 CHAR (lit "a");
              createToken 4 GROUP_CLOSE (lit ")")]
      /\ tokens_of fuel (lit "(?<=a)") =
        Some [createToken 0 GROUP_OPEN (lit "("); createToken 2 CHAR (lit "<");
              createToken 3 CHAR (lit "="); createToken 4 CHAR (lit "a");
              createToken 5 GROUP_CLOSE (lit ")")]
      /\ tokens_of fuel (lit "(?<!a)") =
        Some [createToken 0 GROUP_OPEN (lit "("); createToken 2 CHAR (lit "<");
              createToken 3 CHAR (lit "!"); createToken 4 CHAR (lit "a");
              createToken 5 GROUP_CLOSE (lit ")")]).
Proof.
  split; [|split].
  - intros input pos tokens Hq He Hb. unfold parseGroup_prefix.
    rewrite (is_char_Some _ _ _ Hq), He, Hb. reflexivity.
  - intros input fuel pos c Hc.
    repeat (apply elem_of_cons in Hc as [->|Hc]; [reflexivity|]).
    apply elem_of_nil in Hc. contradiction.
  - intros fuel Hfuel.
    repeat split; (apply (tokens_of_mono 7); [lia|]); vm_compute; reflexivity.
Qed.

Lemma other_group_prefixes_fall_through_witness :
  parseGroup_prefix (lit "(?:a)") 1 [createToken 0 GROUP_OPEN (lit "(")] =
    ([createToken 0 GROUP_OPEN (lit "(")], 2)
  /\ tokenizeGroupContent_body (lit "(?:a)") 4 2 (ch ":") =
       Some ([createToken 2 CHAR [ch ":"]], 3)
  /\ tokens_of 7 (lit "(?:a)") =
        Some [createToken 0 GROUP_OPEN (lit "("); createToken 2 CHAR (lit ":");
              createToken 3 CHAR (lit "a");
              createToken 4 GROUP_CLOSE (lit ")")].
Proof.
  destruct other_group_prefixes_fall_through as (A & B & C).
  split; [|split].
  - apply (A (lit "(?:a)") 1); reflexivity.
  - apply (B (lit "(?:a)") 4 2). apply list_elem_of_here.
  - apply (C 7). lia.
Defined.

(** ** Escapes *)

Lemma isDigit_not (d : N) (a : ascii) :
  isDigit (Some d) = true ->
  (N.leb (ch "0") (ch a) && N.leb (ch a) (ch "9"))%bool = false ->
  is_char (Some d) a = false.
Proof.
  simpl. intros Hd Ha. destruct (eqc d a) eqn:E; [|reflexivity].
  apply eqc_true in E. subst d. congruence.
Qed.

Lemma parseEscape_digit (input : str) (pos : nat) (d : N) :
  input !! S pos = Some d -> isDigit (Some d) = true ->
  parseEscape input pos =
    (createToken (2 + pos) BACKREFERENCE (lit "\" ++ [d]), 2 + pos).
Proof.
  intros Hr Hd. unfold parseEscape, parseBackreference. rewrite Hr, Hd.
  rewrite (isDigit_not d "u" Hd eq_refl), (isDigit_not d "x" Hd eq_refl).
  reflexivity.
Qed.

(** C8: a backslash followed by a decimal digit yields one BACKREFERENCE
    token whose text is the backslash and that one digit, and the cursor
    moves past exactly these two characters.  Where the input holds
    [\10], the top-level loop builds BACKREFERENCE [\1] and, on its next
    iteration, a separate plain CHAR [0]; on the input [\10] these are the
    two tokens returned. *)
Theorem backreference_takes_one_digit :
  (forall (input : str) (pos : nat) (d : N),
      input !! S pos = Some d -> isDigit (Some d) = true ->
      parseEscape input pos =
        (createToken (2 + pos) BACKREFERENCE (lit "\" ++ [d]), 2 + pos)) /\
  (forall (input : str) (fuel pos : nat) (tokens : list Token),
      input !! pos = Some (ch "\") ->
      input !! S pos = Some (ch "1") ->
      input !! S (S pos) = Some (ch "0") ->
      tokenize_loop input (S (S fuel)) pos tokens =
        tokenize_loop input fuel (3 + pos)
          ((tokens ++ [createToken (2 + pos) BACKREFERENCE (lit "\1")])
             ++ [createToken (2 + pos) CHAR (lit "0")])) /\
  (forall fuel,
      2 < fuel ->
      tokens_of fuel (lit "\10") =
        Some [createToken 2 BACKREFERENCE (lit "\1");
              createToken 2 CHAR (lit "0")]).
Proof.
  split; [|split].
  - exact parseEscape_digit.
  - intros input fuel pos tokens H0 H1 H2.
    change (tokenize_loop input (S (S fuel)) pos tokens)
      with (match input !! pos with
            | None => Some (tokens, pos)
            | Some c =>
                match tokenize_body input (S fuel) pos c with
                | None => None
                | Some (ts, p) => tokenize_loop input (S fuel) p (tokens ++ ts)
                end
            end).
    rewrite H0.
    change (tokenize_body input (S fuel) pos (ch "\"))
      with (let '(t, p) := parseEscape input pos in Some ([t], p)).
    rewrite (parseEscape_digit input pos (ch "1") H1 eq_refl).
    simpl. rewrite H2. reflexivity.
  - intros fuel Hfuel. apply (tokens_of_mono 3); [lia|].
    vm_compute. reflexivity.
Qed.

Lemma backreference_takes_one_digit_witness :
  parseEscape (lit "a\10") 1 = (createToken 3 BACKREFERENCE (lit "\1"), 3)
  /\ tokenize_loop (lit "a\10") 2 1 [] =
       Some ([createToken 3 BACKREFERENCE (lit "\1");
              createToken 3 CHAR (lit "0")], 4)
  /\ tokens_of 3 (lit "\10") =
       Some [createToken 2 BACKREFERENCE (lit "\1");
             createToken 2 CHAR (lit "0")].
Proof.
  destruct backreference_takes_one_digit as (A & B & C).
  split; [|split].
  - apply (A (lit "a\10") 1 (ch "1")); reflexivity.
  - rewrite (B (lit "a\10") 0 1 []); reflexivity.
  - apply (C 3). lia.
Defined.

(** ** Token text and the input *)

Lemma sub_cons (s : str) start len c :
  s !! start = Some c -> sub s start (S len) = c :: sub s (S start) len.
Proof. intros H. unfold sub. rewrite (drop_S _ _ _ H). reflexivity. Qed.

Lemma sub_0 (s : str) start : sub s start 0 = [].
Proof. reflexivity. Qed.

Lemma sub_length (s : str) start len :
  start + len <= length s -> length (sub s start len) = len.
Proof. intros H. unfold sub. rewrite length_take, length_drop. lia. Qed.

Lemma appendChars_in_range (input : str) n text pos :
  pos + n <= length input ->
  appendChars input n text pos = (text ++ sub input pos n, pos + n).
Proof.
  revert text pos. induction n as [|n IH]; simpl; intros text pos H.
  - rewrite app_nil_r. f_equal. lia.
  - destruct (lookup_lt_is_Some_2 input pos) as [c Hc]; [lia|].
    rewrite Hc, (sub_cons _ _ _ _ Hc), IH by lia. simpl.
    rewrite <- app_assoc. f_equal. lia.
Qed.

Lemma emits_exact (input : str) (t : Token) :
  emits input t ->
  type t <> NEG_LOOKAHEAD -> type t <> QUANTIFIER -> in_input input t ->
  exact_text input t.
Proof.
  unfold exact_text, in_input, token_start.
  destruct 1 as [pos c H|pos c H|pos c H|pos c H|pos H|pos H0 H1 H2
                |pos H0 H1 H2|pos H|pos H|pos H|pos q|pos H|pos H0 H1
                |pos H0 H1|pos d H0 H1 Hd];
    cbn [type value position createToken]; intros Hn Hq Hin;
    try congruence.
  - simpl. rewrite (sub_cons _ _ _ _ H). reflexivity.
  - simpl. rewrite (sub_cons _ _ _ _ H). reflexivity.
  - simpl. rewrite (sub_cons _ _ _ _ H). reflexivity.
  - simpl. rewrite (sub_cons _ _ _ _ H). reflexivity.
  - change (lit "(") with [ch "("]. simpl.
    rewrite (sub_cons _ _ _ _ H). reflexivity.
  - change (lit "(?=") with [ch "("; ch "?"; ch "="]. simpl.
    rewrite Nat.sub_0_r.
    rewrite (sub_cons _ _ _ _ H0), (sub_cons _ _ _ _ H1),
      (sub_cons _ _ _ _ H2). reflexivity.
  - destruct H as [H|H]; [|lia].
    change (lit ")") with [ch ")"]. simpl.
    rewrite (sub_cons _ _ _ _ H). reflexivity.
  - change (lit "[") with [ch "["]. simpl.
    rewrite (sub_cons _ _ _ _ H). reflexivity.
  - destruct H as [H|H]; [|lia].
    change (lit "]") with [ch "]"]. simpl.
    rewrite (sub_cons _ _ _ _ H). reflexivity.
  - destruct (lookup_lt_is_Some_2 input (S pos)) as [c Hc]; [lia|].
    rewrite Hc. change (lit "\") with [ch "\"]. simpl.
    rewrite Nat.sub_0_r.
    rewrite (sub_cons _ _ _ _ H), (sub_cons _ _ _ _ Hc). reflexivity.
  - rewrite (appendChars_in_range input 4 _ (2 + pos)) by lia.
    change (lit "\u") with [ch "\"; ch "u"]. simpl.
    rewrite Nat.sub_0_r, sub_length by lia.
    rewrite (sub_cons _ _ _ _ H0), (sub_cons _ _ _ _ H1). reflexivity.
  - rewrite (appendChars_in_range input 2 _ (2 + pos)) by lia.
    change (lit "\x") with [ch "\"; ch "x"]. simpl.
    rewrite Nat.sub_0_r, sub_length by lia.
    rewrite (sub_cons _ _ _ _ H0), (sub_cons _ _ _ _ H1). reflexivity.
  - change (lit "\") with [ch "\"]. simpl.
    rewrite Nat.sub_0_r.
    rewrite (sub_cons _ _ _ _ H0), (sub_cons _ _ _ _ H1). reflexivity.
Qed.

Lemma tokens_of_det f1 f2 input a b :
  tokens_of f1 input = Some a -> tokens_of f2 input = Some b -> a = b.
Proof.
  intros H1 H2.
  apply (tokens_of_mono f1 (f1 `max` f2)) in H1; [|lia].
  apply (tokens_of_mono f2 (f1 `max` f2)) in H2; [|lia].
  congruence.
Qed.

Lemma not_substring_short (s input : str) :
  (forall start, start <= length input -> s <> sub input start (length s)) ->
  s <> [] -> ~ is_substring s input.
Proof.
  intros Hall Hne [start H].
  destruct (Nat.le_gt_cases start (length input)) as [Hle|Hgt].
  - exact (Hall start Hle H).
  - unfold sub in H. rewrite drop_ge, take_nil in H by lia. contradiction.
Qed.

(** Counterexample to the unrestricted form of C2: the text of a token is
    not always a substring of the input.  On ["(a"] the group scan closes
    the group with a GROUP_CLOSE token whose text [")"] occurs nowhere in
    the input. *)
Lemma token_text_not_always_substring :
  ~ (forall (input : str) (fuel : nat) (toks : list Token) (t : Token),
        tokens_of fuel input = Some toks -> t ∈ toks ->
        is_substring (value t) input).
Proof.
  intros H.
  assert (E : tokens_of 3 (lit "(a") =
    Some [createToken 0 GROUP_OPEN (lit "("); createToken 1 CHAR (lit "a");
          createToken 2 GROUP_CLOSE (lit ")")]) by (vm_compute; reflexivity).
  assert (Hno : ~ is_substring (lit ")") (lit "(a")).
  { apply not_substring_short.
    - intros start Hle Heq.
      destruct start as [|[|[|start]]]; vm_compute in Heq, Hle;
        first [discriminate Heq | lia].
    - intros Heq. vm_compute in Heq. discriminate Heq. }
  apply Hno. apply (H _ _ _ (createToken 2 GROUP_CLOSE (lit ")")) E).
  do 2 apply list_elem_of_further. apply list_elem_of_here.
Qed.

Lemma emits_extent (input : str) (t : Token) :
  emits input t ->
  type t <> NEG_LOOKAHEAD -> type t <> QUANTIFIER -> in_input input t ->
  length (value t) = token_extent t /\
  position t = token_start t + token_back t /\
  token_start t + token_extent t <= length input.
Proof.
  unfold token_extent, token_back, in_input, token_start.
  destruct 1 as [pos c H|pos c H|pos c H|pos c H|pos H|pos H0 H1 H2
                |pos H0 H1 H2|pos H|pos H|pos H|pos q|pos H|pos H0 H1
                |pos H0 H1|pos d H0 H1 Hd];
    cbn [type value position createToken]; intros Hn Hq Hin;
    try congruence;
    try (apply lookup_lt_Some in H);
    try (apply lookup_lt_Some in H1);
    try (apply lookup_lt_Some in H2).
  - split; [reflexivity | split; lia].
  - split; [reflexivity | split; lia].
  - split; [reflexivity | split; lia].
  - split; [reflexivity | split; lia].
  - split; [reflexivity | split; lia].
  - split; [reflexivity | split; lia].
  - split; [reflexivity | split; lia].
  - split; [reflexivity | split; lia].
  - split; [reflexivity | split; lia].
  - destruct (lookup_lt_is_Some_2 input (S pos)) as [c Hc]; [lia|].
    rewrite Hc. split; [reflexivity | split; lia].
  - rewrite (appendChars_in_range input 4 _ (2 + pos)) by lia.
    cbn [fst]. rewrite length_app, sub_length by lia.
    split; [reflexivity | split; lia].
  - rewrite (appendChars_in_range input 2 _ (2 + pos)) by lia.
    cbn [fst]. rewrite length_app, sub_length by lia.
    split; [reflexivity | split; lia].
  - split; [reflexivity | split; lia].
Qed.

(** C2: every token that [tokenize] returns, NEG_LOOKAHEAD and QUANTIFIER
    tokens apart, has as text exactly the characters of the input that it
    stands for, prefix characters included, whenever the input did not end
    inside the token.  The characters a token stands for are the
    [token_extent] characters from [token_start] on, which is [token_back]
    characters before the position: the one character at the position of a
    one-character or delimiter token; the three characters ["(?="] that end
    at the position of a LOOKAHEAD token; the backslash before the position
    of an ESCAPE token and the character at it; the two characters before
    the position of a BACKREFERENCE token; the six and the four characters
    before the position of a UNICODE_ESCAPE and of a HEX_ESCAPE token.  That
    run lies inside the input, the text of the token is that run, and so the
    text has exactly [token_extent] characters and is a substring of the
    input. *)
Theorem token_text_is_exact_substring (input : str) (fuel : nat)
    (toks : list Token) (t : Token) :
  tokens_of fuel input = Some toks -> t ∈ toks ->
  type t <> NEG_LOOKAHEAD -> type t <> QUANTIFIER -> in_input input t ->
  whole_text input t /\
  length (value t) = token_extent t /\
  is_substring (value t) input.
Proof.
  intros H Ht Hn Hq Hin. apply tokens_of_inv in H as [pos' H].
  apply tokenize_loop_emits in H; [|constructor].
  rewrite Forall_forall in H. specialize (H t Ht).
  pose proof (emits_exact input t H Hn Hq Hin) as He.
  destruct (emits_extent input t H Hn Hq Hin) as (Hl & Hb & Hr).
  unfold exact_text in He. unfold whole_text.
  repeat split.
  - exact Hb.
  - exact Hr.
  - rewrite <- Hl. exact He.
  - exact Hl.
  - exists (token_start t). exact He.
Qed.

Lemma token_text_is_exact_substring_witness :
  tokens_of 12 (lit "(?=\u0041)") =
    Some [createToken 0 GROUP_OPEN (lit "(");
          createToken 2 LOOKAHEAD (lit "(?=");
          createToken 9 UNICODE_ESCAPE (lit "\u0041");
          createToken 9 GROUP_CLOSE (lit ")")]
  /\ in_input (lit "(?=\u0041)") (createToken 9 UNICODE_ESCAPE (lit "\u0041"))
  /\ whole_text (lit "(?=\u0041)")
       (createToken 9 UNICODE_ESCAPE (lit "\u0041"))
  /\ length (lit "\u0041") = 6
  /\ is_substring (lit "\u0041") (lit "(?=\u0041)").
Proof.
  assert (E : tokens_of 12 (lit "(?=\u0041)") =
    Some [createToken 0 GROUP_OPEN (lit "(");
          createToken 2 LOOKAHEAD (lit "(?=");
          createToken 9 UNICODE_ESCAPE (lit "\u0041");
          createToken 9 GROUP_CLOSE (lit ")")]) by (vm_compute; reflexivity).
  assert (I : in_input (lit "(?=\u0041)")
                (createToken 9 UNICODE_ESCAPE (lit "\u0041")))
    by (vm_compute; lia).
  split; [exact E|]. split; [exact I|].
  apply (token_text_is_exact_substring _ 12 _
           (createToken 9 UNICODE_ESCAPE (lit "\u0041")) E).
  - do 2 apply list_elem_of_further. apply list_elem_of_here.
  - discriminate.
  - discriminate.
  - exact I.
Defined.

(** The two kinds that the theorem above leaves out.  The NEG_LOOKAHEAD text
    is the fixed ["(?!)"], which is no substring of ["(?!a)"]; the text of a
    QUANTIFIER token starts after the ["{"] and always ends with ["}"]. *)
Example neg_lookahead_and_quantifier_text :
  tokens_of 6 (lit "(?!a)") =
    Some [createToken 0 GROUP_OPEN (lit "(");
          createToken 2 NEG_LOOKAHEAD (lit "(?!)");
          createToken 3 CHAR (lit "a"); createToken 4 GROUP_CLOSE (lit ")")]
  /\ ~ is_substring (lit "(?!)") (lit "(?!a)")
  /\ tokens_of 6 (lit "{1,3}") = Some [createToken 5 QUANTIFIER (lit "1,3}")]
  /\ tokens_of 6 (lit "{1") = Some [createToken 3 QUANTIFIER (lit "1}")]
  /\ ~ is_substring (lit "1}") (lit "{1").
Proof.
  split; [vm_compute; reflexivity|]. split.
  { apply not_substring_short.
    - intros start Hle Heq.
      destruct start as [|[|[|[|[|[|start]]]]]]; vm_compute in Heq, Hle;
        first [discriminate Heq | lia].
    - intros Heq. vm_compute in Heq. discriminate Heq. }
  split; [vm_compute; reflexivity|]. split; [vm_compute; reflexivity|].
  apply not_substring_short.
  - intros start Hle Heq.
    destruct start as [|[|[|start]]]; vm_compute in Heq, Hle;
      first [discriminate Heq | lia].
  - intros Heq. vm_compute in Heq. discriminate Heq.
Qed.

(** C1: on the well-formed input ["(?:a)"], which has neither a
    backreference nor a nested group, the tokens that [tokenize] returns do
    not account for every character of the input: the ["?"] occurs in the
    text of no token.  The same holds for the ["{"] of ["a{1,3}"]. *)
Theorem question_mark_of_group_prefix_is_dropped (fuel : nat)
    (toks : list Token) :
  (tokens_of fuel (lit "(?:a)") = Some toks ->
   ch "?" ∈ lit "(?:a)" /\
   toks = [createToken 0 GROUP_OPEN (lit "("); createToken 2 CHAR (lit ":");
           createToken 3 CHAR (lit "a"); createToken 4 GROUP_CLOSE (lit ")")]
   /\ ~ accounts_for (lit "(?:a)") toks) /\
  (tokens_of fuel (lit "a{1,3}") = Some toks ->
   ch "{" ∈ lit "a{1,3}" /\
   toks = [createToken 0 CHAR (lit "a"); createToken 6 QUANTIFIER (lit "1,3}")]
   /\ ~ accounts_for (lit "a{1,3}") toks).
Proof.
  split; intros H.
  - assert (Hin : ch "?" ∈ lit "(?:a)")
      by (apply list_elem_of_further, list_elem_of_here).
    split; [exact Hin|].
    assert (E : tokens_of 6 (lit "(?:a)") =
      Some [createToken 0 GROUP_OPEN (lit "("); createToken 2 CHAR (lit ":");
            createToken 3 CHAR (lit "a"); createToken 4 GROUP_CLOSE (lit ")")])
      by (vm_compute; reflexivity).
    rewrite (tokens_of_det _ _ _ _ _ H E). split; [reflexivity|].
    intros A. destruct (A _ Hin) as (t & Ht & Hc).
    repeat (apply elem_of_cons in Ht as [->|Ht];
            [vm_compute in Hc; apply list_elem_of_singleton in Hc;
             discriminate Hc|]).
    apply elem_of_nil in Ht. exact Ht.
  - assert (Hin : ch "{" ∈ lit "a{1,3}")
      by (apply list_elem_of_further, list_elem_of_here).
    split; [exact Hin|].
    assert (E : tokens_of 7 (lit "a{1,3}") =
      Some [createToken 0 CHAR (lit "a");
            createToken 6 QUANTIFIER (lit "1,3}")])
      by (vm_compute; reflexivity).
    rewrite (tokens_of_det _ _ _ _ _ H E). split; [reflexivity|].
    intros A. destruct (A _ Hin) as (t & Ht & Hc).
    repeat (apply elem_of_cons in Ht as [->|Ht];
            [vm_compute in Hc;
             repeat (apply elem_of_cons in Hc as [Hc|Hc]; [discriminate Hc|]);
             apply elem_of_nil in Hc; exact Hc|]).
    apply elem_of_nil in Ht. exact Ht.
Qed.

Lemma question_mark_of_group_prefix_is_dropped_witness :
  tokens_of 6 (lit "(?:a)") =
    Some [createToken 0 GROUP_OPEN (lit "("); createToken 2 CHAR (lit ":");
          createToken 3 CHAR (lit "a"); createToken 4 GROUP_CLOSE (lit ")")]
  /\ ch "?" ∈ lit "(?:a)"
  /\ ~ accounts_for (lit "(?:a)")
       [createToken 0 GROUP_OPEN (lit "("); createToken 2 CHAR (lit ":");
        createToken 3 CHAR (lit "a"); createToken 4 GROUP_CLOSE (lit ")")].
Proof.
  assert (E : tokens_of 6 (lit "(?:a)") =
    Some [createToken 0 GROUP_OPEN (lit "("); createToken 2 CHAR (lit ":");
          createToken 3 CHAR (lit "a"); createToken 4 GROUP_CLOSE (lit ")")])
    by (vm_compute; reflexivity).
  split; [exact E|].
  destruct (proj1 (question_mark_of_group_prefix_is_dropped 6 _) E)
    as (Hin & _ & Hno).
  split; [exact Hin | exact Hno].
Defined.

(** * Further properties of the scanner *)

(** ** The quantifier and the character-class scans *)

Lemma eqc_false c a : eqc c a = false -> c <> ch a.
Proof. unfold eqc. apply N.eqb_neq. Qed.

Lemma eqc_refl a : eqc (ch a) a = true.
Proof. unfold eqc. apply N.eqb_refl. Qed.

Lemma parseQuantifier_loop_run (input : str) fuel pos q q' pos' :
  parseQuantifier_loop input fuel pos q = Some (q', pos') ->
  exists n,
    pos' = pos + n /\ length (sub input pos n) = n /\
    (forall c, c ∈ sub input pos n -> c <> ch "}") /\
    q' = q ++ sub input pos n /\ stops_at input "}" pos'.
Proof.
  revert pos q. induction fuel as [|fuel IH]; simpl; intros pos q H;
    destruct (input !! pos) as [c|] eqn:Hc;
    try destruct (eqc c "}") eqn:Hb; try discriminate;
    try (injection H as <- <-; exists 0; rewrite Nat.add_0_r, app_nil_r;
         repeat split;
         [ intros c' Hin; apply elem_of_nil in Hin; contradiction
         | first [ left; apply eqc_true in Hb; congruence
                 | right; apply lookup_ge_None; exact Hc ] ]).
  apply IH in H as (n & -> & Hlen & Hno & -> & Hstop).
  exists (S n). rewrite (sub_cons _ _ _ _ Hc). simpl.
  split; [lia|]. split; [congruence|]. split.
  - intros c' Hin. apply elem_of_cons in Hin as [->|Hin];
      [apply eqc_false, Hb | apply Hno, Hin].
  - split; [rewrite <- app_assoc; reflexivity | exact Hstop].
Qed.

Lemma parseRange_loop_run (input : str) fuel pos acc toks pos' :
  parseRange_loop input fuel pos acc = Some (toks, pos') ->
  exists n,
    pos' = pos + n /\ length (sub input pos n) = n /\
    (forall c, c ∈ sub input pos n -> c <> ch "]") /\
    toks = acc ++ chars_from pos (sub input pos n) /\ stops_at input "]" pos'.
Proof.
  revert pos acc. induction fuel as [|fuel IH]; simpl; intros pos acc H;
    destruct (input !! pos) as [c|] eqn:Hc;
    try destruct (eqc c "]") eqn:Hb; try discriminate;
    try (injection H as <- <-; exists 0; rewrite Nat.add_0_r, app_nil_r;
         repeat split;
         [ intros c' Hin; apply elem_of_nil in Hin; contradiction
         | first [ left; apply eqc_true in Hb; congruence
                 | right; apply lookup_ge_None; exact Hc ] ]).
  assert (Hd : lit "-" = [c] \/ eqc c "-" = false).
  { destruct (eqc c "-") eqn:Hd; [left|right; reflexivity].
    apply eqc_true in Hd. subst c. reflexivity. }
  assert (H' : parseRange_loop input fuel (S pos)
                 (acc ++ [createToken pos CHAR [c]]) = Some (toks, pos')).
  { destruct Hd as [Hd|Hd]; [rewrite Hd in H|rewrite Hd in H];
      [destruct (eqc c "-")|]; exact H. }
  clear H Hd. apply IH in H' as (n & -> & Hlen & Hno & -> & Hstop).
  exists (S n). rewrite (sub_cons _ _ _ _ Hc). simpl.
  split; [lia|]. split; [congruence|]. split.
  - intros c' Hin. apply elem_of_cons in Hin as [->|Hin];
      [apply eqc_false, Hb | apply Hno, Hin].
  - split; [rewrite <- app_assoc; reflexivity | exact Hstop].
Qed.

Lemma parseQuantifier_inv (input : str) fuel pos t pos' :
  parseQuantifier input fuel pos = Some (t, pos') ->
  exists n,
    length (sub input (S pos) n) = n /\
    (forall c, c ∈ sub input (S pos) n -> c <> ch "}") /\
    stops_at input "}" (S pos + n) /\
    t = createToken (S (S pos + n)) QUANTIFIER
          (sub input (S pos) n ++ lit "}") /\
    pos' = S (S pos + n).
Proof.
  unfold parseQuantifier. intros E.
  destruct (parseQuantifier_loop input fuel (S pos) []) as [[q p0]|] eqn:El;
    [|discriminate].
  apply parseQuantifier_loop_run in El as (n & -> & Hlen & Hno & -> & Hstop).
  injection E as <- <-. exists n. repeat split; assumption.
Qed.

Lemma parseRange_inv (input : str) fuel pos toks pos' :
  parseRange input fuel pos = Some (toks, pos') ->
  exists n,
    length (sub input (S pos) n) = n /\
    (forall c, c ∈ sub input (S pos) n -> c <> ch "]") /\
    stops_at input "]" (S pos + n) /\
    toks = createToken pos RANGE_OPEN (lit "[")
             :: chars_from (S pos) (sub input (S pos) n)
             ++ [createToken (S pos + n) RANGE_CLOSE (lit "]")] /\
    pos' = S (S pos + n).
Proof.
  unfold parseRange. intros E.
  destruct (parseRange_loop input fuel (S pos) _) as [[q p0]|] eqn:El;
    [|discriminate].
  apply parseRange_loop_run in El as (n & -> & Hlen & Hno & -> & Hstop).
  injection E as <- <-. exists n. repeat split; assumption.
Qed.

(** X2: the quantifier scan, given enough fuel, returns one QUANTIFIER
    token.  Its text is the run of characters after the ["{"] up to, and
    without, the first ["}"] (or up to the end of the input when there is
    none), followed by a ["}"]; the ["{"] itself is not part of the text.
    Its position and the new cursor are both the offset just past the
    closing brace. *)
Theorem quantifier_scan (input : str) (fuel pos : nat) :
  length input - S pos <= fuel ->
  exists n,
    length (sub input (S pos) n) = n /\
    (forall c, c ∈ sub input (S pos) n -> c <> ch "}") /\
    (input !! (S pos + n) = Some (ch "}") \/ length input <= S pos + n) /\
    parseQuantifier input fuel pos =
      Some (createToken (S (S pos + n)) QUANTIFIER
              (sub input (S pos) n ++ lit "}"),
            S (S pos + n)).
Proof.
  intros Hfuel.
  destruct (parseQuantifier_total input fuel pos Hfuel) as [[t p] E].
  rewrite E.
  apply parseQuantifier_inv in E as (n & Hlen & Hno & Hstop & -> & ->).
  exists n. repeat split; assumption.
Qed.

Lemma quantifier_scan_witness :
  length (lit "a{1,3}b") - 2 <= 5 /\
  exists n,
    length (sub (lit "a{1,3}b") 2 n) = n /\
    (forall c, c ∈ sub (lit "a{1,3}b") 2 n -> c <> ch "}") /\
    (lit "a{1,3}b" !! (2 + n) = Some (ch "}")
     \/ length (lit "a{1,3}b") <= 2 + n) /\
    parseQuantifier (lit "a{1,3}b") 5 1 =
      Some (createToken (S (2 + n)) QUANTIFIER
              (sub (lit "a{1,3}b") 2 n ++ lit "}"),
            S (2 + n)).
Proof.
  assert (H : length (lit "a{1,3}b") - 2 <= 5) by (vm_compute; lia).
  split; [exact H|]. exact (quantifier_scan (lit "a{1,3}b") 5 1 H).
Defined.

(** X1: the character-class scan, given enough fuel, returns RANGE_OPEN at
    the ["["], then one CHAR token for every character up to, and without,
    the first ["]"] (or up to the end of the input when there is none), each
    at its own offset and with that one character as text, then RANGE_CLOSE
    at the offset where the run ends; the cursor ends one past it.  Every
    character of the run is treated alike: a backslash, a ["-"], a ["("] or
    a ["["] inside a class is a plain CHAR. *)
Theorem character_class_scan (input : str) (fuel pos : nat) :
  length input - S pos <= fuel ->
  exists n,
    length (sub input (S pos) n) = n /\
    (forall c, c ∈ sub input (S pos) n -> c <> ch "]") /\
    (input !! (S pos + n) = Some (ch "]") \/ length input <= S pos + n) /\
    parseRange input fuel pos =
      Some (createToken pos RANGE_OPEN (lit "[")
              :: chars_from (S pos) (sub input (S pos) n)
              ++ [createToken (S pos + n) RANGE_CLOSE (lit "]")],
            S (S pos + n)).
Proof.
  intros Hfuel.
  destruct (parseRange_total input fuel pos Hfuel) as [[t p] E].
  rewrite E.
  apply parseRange_inv in E as (n & Hlen & Hno & Hstop & -> & ->).
  exists n. repeat split; assumption.
Qed.

Lemma character_class_scan_witness :
  length (lit "[a\]-") - 1 <= 5 /\
  exists n,
    length (sub (lit "[a\]-") 1 n) = n /\
    (forall c, c ∈ sub (lit "[a\]-") 1 n -> c <> ch "]") /\
    (lit "[a\]-" !! (1 + n) = Some (ch "]")
     \/ length (lit "[a\]-") <= 1 + n) /\
    parseRange (lit "[a\]-") 5 0 =
      Some (createToken 0 RANGE_OPEN (lit "[")
              :: chars_from 1 (sub (lit "[a\]-") 1 n)
              ++ [createToken (1 + n) RANGE_CLOSE (lit "]")],
            S (1 + n)).
Proof.
  assert (H : length (lit "[a\]-") - 1 <= 5) by (vm_compute; lia).
  split; [exact H|]. exact (character_class_scan (lit "[a\]-") 5 0 H).
Defined.

(** ** The group scan *)

Lemma tokenizeGroupContent_loop_exit (input : str) fuel pos acc toks pos' :
  tokenizeGroupContent_loop input fuel pos acc = Some (toks, pos') ->
  stops_at input ")" pos'.
Proof.
  unfold stops_at.
  revert pos acc. induction fuel as [|fuel IH]; simpl; intros pos acc H;
    destruct (input !! pos) as [c|] eqn:Hc;
    try destruct (eqc c ")") eqn:Hb;
    try (injection H as _ <-;
         first [ left; apply eqc_true in Hb; congruence
               | right; apply lookup_ge_None; exact Hc ]);
    try discriminate.
  destruct (tokenizeGroupContent_body input fuel pos c) as [[ts p]|];
    [|discriminate].
  eapply IH; exact H.
Qed.

Lemma parseGroup_loop_done (input : str) fuel pos acc :
  stops_at input ")" pos ->
  parseGroup_loop input fuel pos acc = Some (acc, pos).
Proof.
  intros [H|H]; destruct fuel; simpl.
  1,2: rewrite H, eqc_refl; reflexivity.
  1,2: apply lookup_ge_None in H; rewrite H; reflexivity.
Qed.

Lemma tokenizeGroupContent_loop_done (input : str) fuel pos acc :
  stops_at input ")" pos ->
  tokenizeGroupContent_loop input fuel pos acc = Some (acc, pos).
Proof.
  intros [H|H]; destruct fuel; simpl.
  1,2: rewrite H, eqc_refl; reflexivity.
  1,2: apply lookup_ge_None in H; rewrite H; reflexivity.
Qed.

Lemma tokenizeGroupContent_done (input : str) fuel pos :
  stops_at input ")" pos ->
  tokenizeGroupContent input fuel pos = Some ([], pos).
Proof. apply tokenizeGroupContent_loop_done. Qed.

Lemma parseGroup_loop_once (input : str) fuel pos acc toks pos' :
  parseGroup_loop input fuel pos acc = Some (toks, pos') ->
  exists content,
    toks = acc ++ content /\
    tokenizeGroupContent input fuel pos = Some (content, pos') /\
    stops_at input ")" pos'.
Proof.
  intros H. pose proof (parseGroup_loop_exit _ _ _ _ _ _ H) as Hstop.
  destruct fuel as [|fuel]; simpl in H;
    destruct (input !! pos) as [c|] eqn:Hc;
    try destruct (eqc c ")") eqn:Hb; try discriminate;
    try (injection H as <- <-; exists []; rewrite app_nil_r;
         split; [reflexivity|]; split; [|exact Hstop];
         apply tokenizeGroupContent_done; exact Hstop).
  destruct (tokenizeGroupContent input fuel pos) as [[ts p]|] eqn:E;
    [|discriminate].
  pose proof (tokenizeGroupContent_loop_exit _ _ _ _ _ _ E) as Hp.
  rewrite (parseGroup_loop_done _ _ _ _ Hp) in H. injection H as <- <-.
  exists ts. split; [reflexivity|]. split; [|exact Hp].
  unfold tokenizeGroupContent in *.
  apply (tokenizeGroupContent_loop_mono input fuel (S fuel)); [lia | exact E].
Qed.

Lemma parseGroup_inv (input : str) (fuel pos : nat)
    (toks : list Token) (pos' : nat) :
  parseGroup input fuel pos = Some (toks, pos') ->
  exists pre p0 content p,
    parseGroup_prefix input (S pos) [createToken pos GROUP_OPEN (lit "(")]
      = (pre, p0) /\
    tokenizeGroupContent input fuel p0 = Some (content, p) /\
    Forall flat content /\
    stops_at input ")" p /\
    toks = pre ++ content ++ [createToken p GROUP_CLOSE (lit ")")] /\
    pos' = S p.
Proof.
  unfold parseGroup. intros H.
  destruct (parseGroup_prefix input (S pos) _) as [pre p0] eqn:E0.
  destruct (parseGroup_loop input fuel p0 pre) as [[ts p]|] eqn:E;
    [|discriminate].
  injection H as <- <-.
  apply parseGroup_loop_once in E as (content & -> & Ec & Hstop).
  exists pre, p0, content, p. split; [reflexivity|]. split; [exact Ec|].
  split; [|split; [exact Hstop|split; [rewrite app_assoc|]; reflexivity]].
  unfold tokenizeGroupContent in Ec.
  eapply tokenizeGroupContent_loop_flat; [exact Ec | constructor].
Qed.

(** X3: the group scan is its opening token, the optional prefix token, the
    tokens of one content scan started where the prefix left the cursor, and
    the closing token.  The loop of the group scan never needs the content
    scan twice: a content scan only returns on a [")"] or at the end of the
    input, which is where the loop stops.  The content tokens hold no group
    token, and the closing token is built where the content scan stopped. *)
Theorem group_scan_is_one_content_scan (input : str) (fuel pos : nat)
    (toks : list Token) (pos' : nat) :
  parseGroup input fuel pos = Some (toks, pos') ->
  exists pre p0 content p,
    parseGroup_prefix input (S pos) [createToken pos GROUP_OPEN (lit "(")]
      = (pre, p0) /\
    tokenizeGroupContent input fuel p0 = Some (content, p) /\
    Forall flat content /\
    (input !! p = Some (ch ")") \/ length input <= p) /\
    toks = pre ++ content ++ [createToken p GROUP_CLOSE (lit ")")] /\
    pos' = S p.
Proof.
  unfold parseGroup. intros H.
  destruct (parseGroup_prefix input (S pos) _) as [pre p0] eqn:E0.
  destruct (parseGroup_loop input fuel p0 pre) as [[ts p]|] eqn:E;
    [|discriminate].
  injection H as <- <-.
  apply parseGroup_loop_once in E as (content & -> & Ec & Hstop).
  exists pre, p0, content, p. split; [reflexivity|]. split; [exact Ec|].
  split; [|split; [exact Hstop|split; [rewrite app_assoc|]; reflexivity]].
  unfold tokenizeGroupContent in Ec.
  eapply tokenizeGroupContent_loop_flat; [exact Ec | constructor].
Qed.

Lemma group_scan_is_one_content_scan_witness :
  parseGroup (lit "(?=a|[b])c") 9 0 =
    Some ([createToken 0 GROUP_OPEN (lit "(");
           createToken 2 LOOKAHEAD (lit "(?=");
           createToken 3 CHAR (lit "a"); createToken 4 PIPE (lit "|");
           createToken 5 RANGE_OPEN (lit "["); createToken 6 CHAR (lit "b");
           createToken 7 RANGE_CLOSE (lit "]");
           createToken 8 GROUP_CLOSE (lit ")")], 9)
  /\ exists pre p0 content p,
    parseGroup_prefix (lit "(?=a|[b])c") 1 [createToken 0 GROUP_OPEN (lit "(")]
      = (pre, p0) /\
    tokenizeGroupContent (lit "(?=a|[b])c") 9 p0 = Some (content, p) /\
    Forall flat content /\
    (lit "(?=a|[b])c" !! p = Some (ch ")")
     \/ length (lit "(?=a|[b])c") <= p) /\
    [createToken 0 GROUP_OPEN (lit "(");
     createToken 2 LOOKAHEAD (lit "(?=");
     createToken 3 CHAR (lit "a"); createToken 4 PIPE (lit "|");
     createToken 5 RANGE_OPEN (lit "["); createToken 6 CHAR (lit "b");
     createToken 7 RANGE_CLOSE (lit "]");
     createToken 8 GROUP_CLOSE (lit ")")]
      = pre ++ content ++ [createToken p GROUP_CLOSE (lit ")")] /\
    9 = S p.
Proof.
  assert (H : parseGroup (lit "(?=a|[b])c") 9 0 =
    Some ([createToken 0 GROUP_OPEN (lit "(");
           createToken 2 LOOKAHEAD (lit "(?=");
           createToken 3 CHAR (lit "a"); createToken 4 PIPE (lit "|");
           createToken 5 RANGE_OPEN (lit "["); createToken 6 CHAR (lit "b");
           createToken 7 RANGE_CLOSE (lit "]");
           createToken 8 GROUP_CLOSE (lit ")")], 9))
    by (vm_compute; reflexivity).
  split; [exact H|].
  exact (group_scan_is_one_content_scan _ _ _ _ _ H).
Defined.

(** ** An induction principle for the scanner *)

Lemma single_kind_anchor c : isAnchor c = true -> single_kind c = ANCHOR.
Proof. unfold single_kind. intros ->. reflexivity. Qed.

Lemma single_kind_meta c :
  isAnchor c = false -> isMetaChar c = true -> single_kind c = META_CHAR.
Proof. unfold single_kind. intros -> ->. reflexivity. Qed.

Lemma single_kind_pipe c :
  isAnchor c = false -> isMetaChar c = false -> eqc c "|" = true ->
  single_kind c = PIPE.
Proof. unfold single_kind. intros -> -> ->. reflexivity. Qed.

Lemma single_kind_char c :
  isAnchor c = false -> isMetaChar c = false -> eqc c "|" = false ->
  single_kind c = CHAR.
Proof. unfold single_kind. intros -> -> ->. reflexivity. Qed.

Lemma parseGroup_prefix_le (input : str) pos acc toks pos' :
  pos <= length input ->
  parseGroup_prefix input pos acc = (toks, pos') ->
  pos <= pos' /\ pos' <= length input.
Proof.
  unfold parseGroup_prefix. intros Hle H.
  destruct (is_char (input !! pos) "?") eqn:Hq;
    [|injection H as _ <-; lia].
  apply is_char_true, lookup_lt_Some in Hq.
  destruct (is_char (input !! S pos) "=") eqn:He.
  { apply is_char_true, lookup_lt_Some in He. injection H as _ <-. lia. }
  destruct (is_char (input !! S pos) "!") eqn:Hb.
  { apply is_char_true, lookup_lt_Some in Hb. injection H as _ <-. lia. }
  injection H as _ <-. lia.
Qed.

Section ScanInduction.

Variable input : str.

(** [Q pos ts pos']: what is to be shown of the tokens [ts] built while the
    cursor went from [pos] to [pos']. *)
Variable Q : nat -> list Token -> nat -> Prop.

Hypothesis Q_nil : forall p, Q p [] p.

Hypothesis Q_app : forall a xs b ys c,
  a <= b -> b <= c -> b < length input ->
  Q a xs b -> Q b ys c -> Q a (xs ++ ys) c.

Hypothesis Q_single : forall pos c,
  input !! pos = Some c ->
  Q pos [createToken pos (single_kind c) [c]] (S pos).

Hypothesis Q_range : forall pos n,
  input !! pos = Some (ch "[") ->
  length (sub input (S pos) n) = n ->
  (forall c, c ∈ sub input (S pos) n -> c <> ch "]") ->
  stops_at input "]" (S pos + n) ->
  Q pos
    (createToken pos RANGE_OPEN (lit "[")
       :: chars_from (S pos) (sub input (S pos) n)
       ++ [createToken (S pos + n) RANGE_CLOSE (lit "]")])
    (S (S pos + n)).

Hypothesis Q_quantifier : forall pos n,
  input !! pos = Some (ch "{") ->
  length (sub input (S pos) n) = n ->
  (forall c, c ∈ sub input (S pos) n -> c <> ch "}") ->
  stops_at input "}" (S pos + n) ->
  Q pos
    [createToken (S (S pos + n)) QUANTIFIER (sub input (S pos) n ++ lit "}")]
    (S (S pos + n)).

Hypothesis Q_escape : forall pos t pos',
  input !! pos = Some (ch "\") ->
  parseEscape input pos = (t, pos') ->
  Q pos [t] pos'.

Hypothesis Q_group : forall pos pre p0 content p,
  input !! pos = Some (ch "(") ->
  parseGroup_prefix input (S pos) [createToken pos GROUP_OPEN (lit "(")]
    = (pre, p0) ->
  p0 <= p -> Forall flat content -> Q p0 content p ->
  stops_at input ")" p ->
  Q pos (pre ++ content ++ [createToken p GROUP_CLOSE (lit ")")]) (S p).

Ltac single_leaf Hc :=
  match goal with
  | H : Some _ = Some _ |- _ =>
      injection H as <- <-;
      first [ erewrite <- single_kind_anchor by eassumption
            | erewrite <- single_kind_meta by eassumption
            | erewrite <- single_kind_pipe by eassumption
            | erewrite <- single_kind_char by eassumption ];
      apply Q_single, Hc
  end.

Ltac routine_leaf Hc :=
  repeat match goal with
         | E : eqc _ _ = true |- _ => apply eqc_true in E; subst
         end;
  lazymatch goal with
  | H : None = Some _ |- _ => discriminate H
  | H : parseRange _ _ _ = Some _ |- _ =>
      apply parseRange_inv in H as (? & ? & ? & ? & -> & ->);
      apply Q_range; assumption
  | E : parseQuantifier _ _ _ = Some _, H : Some _ = Some _ |- _ =>
      apply parseQuantifier_inv in E as (? & ? & ? & ? & -> & ->);
      injection H as <- <-; apply Q_quantifier; assumption
  | E : parseEscape _ _ = _, H : Some _ = Some _ |- _ =>
      injection H as <- <-; apply (Q_escape _ _ _ Hc E)
  end.

Ltac scan_leaf Hc := first [ single_leaf Hc | routine_leaf Hc ].

Lemma tokenizeGroupContent_body_Q fuel pos c ts pos' :
  input !! pos = Some c ->
  tokenizeGroupContent_body input fuel pos c = Some (ts, pos') ->
  Q pos ts pos'.
Proof.
  unfold tokenizeGroupContent_body, isQuantifierStart. intros Hc H.
  dispatch H; scan_leaf Hc.
Qed.

Lemma tokenizeGroupContent_loop_Q fuel pos acc toks pos' :
  tokenizeGroupContent_loop input fuel pos acc = Some (toks, pos') ->
  exists ts, toks = acc ++ ts /\ pos <= pos' /\ Q pos ts pos'.
Proof.
  revert pos acc. induction fuel as [|fuel IH]; simpl; intros pos acc H;
    destruct (input !! pos) as [c|] eqn:Hc; try destruct (eqc c ")");
    try (injection H as <- <-; exists []; rewrite app_nil_r; auto);
    try discriminate.
  destruct (tokenizeGroupContent_body input fuel pos c) as [[ts p]|] eqn:E;
    [|discriminate].
  pose proof (tokenizeGroupContent_body_chain _ _ _ _ _ _ E) as [Hlt _].
  apply (tokenizeGroupContent_body_Q _ _ _ _ _ Hc) in E.
  destruct (Nat.le_gt_cases (length input) p) as [Hge|Hin].
  - rewrite tokenizeGroupContent_loop_done in H by (right; exact Hge).
    injection H as <- <-. exists ts. split; [reflexivity|].
    split; [lia | exact E].
  - apply IH in H as (ts' & -> & Hle & HQ).
    exists (ts ++ ts'). split; [symmetry; apply app_assoc|].
    split; [lia|]. apply (Q_app pos ts p ts' pos'); auto; lia.
Qed.

Lemma parseGroup_Q fuel pos toks pos' :
  input !! pos = Some (ch "(") ->
  parseGroup input fuel pos = Some (toks, pos') -> Q pos toks pos'.
Proof.
  intros Hc H.
  apply parseGroup_inv in H
    as (pre & p0 & content & p & Hpre & Hcont & Hflat & Hstop & -> & ->).
  unfold tokenizeGroupContent in Hcont.
  apply tokenizeGroupContent_loop_Q in Hcont as (ts & Hts & Hle & HQ).
  simpl in Hts. subst ts.
  apply (Q_group pos pre p0 content p); assumption.
Qed.

Lemma tokenize_body_Q fuel pos c ts pos' :
  input !! pos = Some c ->
  tokenize_body input fuel pos c = Some (ts, pos') -> Q pos ts pos'.
Proof.
  unfold tokenize_body, isQuantifierStart. intros Hc H.
  dispatch H;
    first [ match goal with
            | E : eqc c "(" = true |- _ =>
                apply eqc_true in E; subst c;
                exact (parseGroup_Q _ _ _ _ Hc H)
            end
          | scan_leaf Hc ].
Qed.

Lemma tokenize_loop_Q fuel pos acc toks pos' :
  tokenize_loop input fuel pos acc = Some (toks, pos') ->
  exists ts, toks = acc ++ ts /\ pos <= pos' /\ Q pos ts pos'.
Proof.
  revert pos acc. induction fuel as [|fuel IH]; simpl; intros pos acc H;
    destruct (input !! pos) as [c|] eqn:Hc;
    try (injection H as <- <-; exists []; rewrite app_nil_r; auto);
    try discriminate.
  destruct (tokenize_body input fuel pos c) as [[ts p]|] eqn:E;
    [|discriminate].
  pose proof (tokenize_body_chain _ _ _ _ _ _ E) as [Hlt _].
  apply (tokenize_body_Q _ _ _ _ _ Hc) in E.
  destruct (Nat.le_gt_cases (length input) p) as [Hge|Hin].
  - rewrite tokenize_loop_done in H by exact Hge.
    injection H as <- <-. exists ts. split; [reflexivity|].
    split; [lia | exact E].
  - apply IH in H as (ts' & -> & Hle & HQ).
    exists (ts ++ ts'). split; [symmetry; apply app_assoc|].
    split; [lia|]. apply (Q_app pos ts p ts' pos'); auto; lia.
Qed.

(** What holds of every scan segment holds of the whole run of a fresh
    instance, which ends with the cursor at or past the input length. *)
Lemma tokenize_Q fuel toks this' :
  tokenize fuel (new_Regsafe input) = Some (toks, this') ->
  Q 0 toks (cursor this') /\ length input <= cursor this'.
Proof.
  intros H. apply tokenize_inv in H as [H _]. simpl in H.
  pose proof (tokenize_loop_exit _ _ _ _ _ _ H) as Hexit.
  apply tokenize_loop_Q in H as (ts & -> & _ & HQ). simpl.
  split; assumption.
Qed.

End ScanInduction.

(** ** Facts about the pieces *)

Lemma sub_add (s : str) a m n :
  sub s a (m + n) = sub s a m ++ sub s (a + m) n.
Proof.
  unfold sub. rewrite <- take_take_drop, drop_drop. reflexivity.
Qed.

Lemma sub_join (s : str) a b c :
  a <= b -> b <= c -> sub s a (b - a) ++ sub s b (c - b) = sub s a (c - a).
Proof.
  intros Hab Hbc. replace (c - a) with ((b - a) + (c - b)) by lia.
  rewrite sub_add. do 2 f_equal. lia.
Qed.

Lemma sub_all (s : str) : sub s 0 (length s) = s.
Proof. unfold sub. rewrite drop_0. apply take_ge. lia. Qed.

Lemma chars_from_values pos cs : concat (value <$> chars_from pos cs) = cs.
Proof.
  revert pos. induction cs as [|c cs IH]; intros pos; simpl;
    [reflexivity | rewrite IH; reflexivity].
Qed.

Lemma chars_from_length pos cs : length (chars_from pos cs) = length cs.
Proof.
  revert pos. induction cs as [|c cs IH]; intros pos; simpl;
    [reflexivity | rewrite IH; reflexivity].
Qed.

Lemma chars_from_Forall (P : Token -> Prop) pos cs :
  (forall i c, cs !! i = Some c -> P (createToken (pos + i) CHAR [c])) ->
  Forall P (chars_from pos cs).
Proof.
  revert pos. induction cs as [|c cs IH]; intros pos H; simpl; constructor.
  - specialize (H 0 c eq_refl). rewrite Nat.add_0_r in H. exact H.
  - apply IH. intros i c' Hi. specialize (H (S i) c' Hi).
    replace (S pos + i) with (pos + S i) by lia. exact H.
Qed.

Lemma lookup_sub (s : str) a n i c :
  sub s a n !! i = Some c -> i < n /\ s !! (a + i) = Some c.
Proof.
  unfold sub. intros H. apply lookup_take_Some in H as [H Hi].
  rewrite lookup_drop in H. split; assumption.
Qed.

Lemma parseGroup_prefix_cases (input : str) pos acc toks pos' :
  parseGroup_prefix input pos acc = (toks, pos') ->
  (toks = acc /\ (pos' = pos \/ pos' = S pos)) \/
  (toks = acc ++ [createToken (S pos) LOOKAHEAD (lit "(?=")] /\
   pos' = S (S pos) /\ input !! pos = Some (ch "?") /\
   input !! S pos = Some (ch "=")) \/
  (toks = acc ++ [createToken (S pos) NEG_LOOKAHEAD (lit "(?!)")] /\
   pos' = S (S pos) /\ input !! pos = Some (ch "?") /\
   input !! S pos = Some (ch "!")).
Proof.
  unfold parseGroup_prefix. intros H.
  destruct (is_char (input !! pos) "?") eqn:Hq;
    [|injection H as <- <-; left; auto].
  apply is_char_true in Hq.
  destruct (is_char (input !! S pos) "=") eqn:He.
  { apply is_char_true in He. injection H as <- <-. right; left. auto. }
  destruct (is_char (input !! S pos) "!") eqn:Hb.
  { apply is_char_true in Hb. injection H as <- <-. right; right. auto. }
  injection H as <- <-. left. auto.
Qed.

Lemma is_char_false_Some (input : str) pos a c :
  input !! pos = Some c -> c <> ch a -> is_char (input !! pos) a = false.
Proof.
  intros -> Hne. simpl. destruct (eqc c a) eqn:E; [|reflexivity].
  apply eqc_true in E. contradiction.
Qed.

(** The escape scan and the end of the input. *)
Lemma parseEscape_end (input : str) pos t pos' :
  pos < length input ->
  parseEscape input pos = (t, pos') -> pos' <= length input + 4.
Proof.
  unfold parseEscape, parseUnicodeEscape, parseHexEscape, parseBackreference.
  intros Hlt H.
  destruct (is_char (input !! S pos) "u") eqn:Hu.
  { apply is_char_true, lookup_lt_Some in Hu.
    destruct (appendChars input 4 (lit "\u") (S (S pos))) as [u q] eqn:E.
    apply appendChars_pos in E. injection H as _ <-. lia. }
  destruct (is_char (input !! S pos) "x") eqn:Hx.
  { apply is_char_true, lookup_lt_Some in Hx.
    destruct (appendChars input 2 (lit "\x") (S (S pos))) as [u q] eqn:E.
    apply appendChars_pos in E. injection H as _ <-. lia. }
  destruct (isDigit (input !! S pos)); injection H as _ <-; lia.
Qed.

Lemma parseEscape_text (input : str) pos t pos' :
  input !! pos = Some (ch "\") ->
  parseEscape input pos = (t, pos') -> pos' <= length input ->
  value t = sub input pos (pos' - pos).
Proof.
  intros Hc H Hle.
  pose proof (parseEscape_chain _ _ _ _ H) as (Hlt & Hp1 & Hp2).
  unfold parseEscape, parseUnicodeEscape, parseHexEscape, parseBackreference
    in H.
  destruct (is_char (input !! S pos) "u") eqn:Hu.
  { apply is_char_true in Hu.
    destruct (appendChars input 4 (lit "\u") (S (S pos))) as [u q] eqn:E.
    pose proof (appendChars_pos _ _ _ _ _ _ E) as ->.
    rewrite appendChars_in_range in E by (injection H as _ <-; lia).
    injection E as <-. injection H as <- <-. simpl.
    replace (S (S (pos + 4)) - pos) with 6 by lia.
    rewrite (sub_cons _ _ _ _ Hc), (sub_cons _ _ _ _ Hu). reflexivity. }
  destruct (is_char (input !! S pos) "x") eqn:Hx.
  { apply is_char_true in Hx.
    destruct (appendChars input 2 (lit "\x") (S (S pos))) as [u q] eqn:E.
    pose proof (appendChars_pos _ _ _ _ _ _ E) as ->.
    rewrite appendChars_in_range in E by (injection H as _ <-; lia).
    injection E as <-. injection H as <- <-. simpl.
    replace (S (S (pos + 2)) - pos) with 4 by lia.
    rewrite (sub_cons _ _ _ _ Hc), (sub_cons _ _ _ _ Hx). reflexivity. }
  destruct (lookup_lt_is_Some_2 input (S pos)) as [d Hd].
  { destruct (isDigit (input !! S pos)); injection H as _ <-; lia. }
  rewrite Hd in H.
  destruct (isDigit (Some d)); injection H as <- <-; simpl;
    replace (S (S pos) - pos) with 2 by lia;
    rewrite (sub_cons _ _ _ _ Hc), (sub_cons _ _ _ _ Hd); reflexivity.
Qed.

(** ** Round trip *)

Lemma tiling_segments (input : str) :
  (forall c, c ∈ input -> c <> ch "{") ->
  (forall i, input !! i = Some (ch "(") -> input !! S i <> Some (ch "?")) ->
  forall fuel toks this',
    tokenize fuel (new_Regsafe input) = Some (toks, this') ->
    cursor this' <= length input ->
    concat (value <$> toks) = sub input 0 (cursor this' - 0).
Proof.
  intros Hbrace Hprefix fuel toks this' H.
  apply (tokenize_Q input
           (fun a ts b =>
              b <= length input ->
              concat (value <$> ts) = sub input a (b - a))) in H.
  - exact (proj1 H).
  - intros p _. rewrite Nat.sub_diag. reflexivity.
  - intros a xs b ys c Hab Hbc Hb Hx Hy Hc.
    rewrite fmap_app, concat_app, Hx, Hy by lia. apply sub_join; lia.
  - intros pos c Hc _. replace (S pos - pos) with 1 by lia.
    rewrite (sub_cons _ _ _ _ Hc). reflexivity.
  - intros pos n Hc Hlen Hno [Hstop|Hstop] Hle; [|lia].
    replace (S (S pos + n) - pos) with (S (n + 1)) by lia.
    rewrite (sub_cons _ _ _ _ Hc), sub_add, (sub_cons _ _ _ _ Hstop).
    simpl. rewrite fmap_app, concat_app, chars_from_values. reflexivity.
  - intros pos n Hc. apply list_elem_of_lookup_2, Hbrace in Hc.
    contradiction.
  - intros pos t pos' Hc E Hle. simpl. rewrite app_nil_r.
    apply parseEscape_text; assumption.
  - intros pos pre p0 content p Hc Hpre Hle Hflat Hcont [Hstop|Hstop] Hend;
      [|lia].
    unfold parseGroup_prefix in Hpre.
    assert (Hq : is_char (input !! S pos) "?" = false).
    { destruct (is_char (input !! S pos) "?") eqn:Hq; [|reflexivity].
      apply is_char_true in Hq. destruct (Hprefix pos Hc Hq). }
    rewrite Hq in Hpre. injection Hpre as <- <-.
    rewrite !fmap_app, !concat_app, Hcont by lia. simpl.
    replace (S p - pos) with (S ((p - S pos) + 1)) by lia.
    rewrite (sub_cons _ _ _ _ Hc), sub_add.
    replace (S pos + (p - S pos)) with p by lia.
    rewrite (sub_cons _ _ _ _ Hstop). reflexivity.
Qed.

(** X4: on an input without ["{"] and without a ["("] directly followed by
    ["?"], if the run ends with the cursor exactly at the end of the input
    (no scan routine ran past it), the texts of the tokens, concatenated in
    order, are the input: the tokens cut the input into consecutive
    pieces. *)
Theorem token_texts_give_back_the_input (input : str) (fuel : nat)
    (toks : list Token) (this' : Regsafe) :
  (forall c, c ∈ input -> c <> ch "{") ->
  (forall i, input !! i = Some (ch "(") -> input !! S i <> Some (ch "?")) ->
  tokenize fuel (new_Regsafe input) = Some (toks, this') ->
  cursor this' = length input ->
  concat (value <$> toks) = input.
Proof.
  intros Hbrace Hprefix H Hend.
  rewrite (tiling_segments input Hbrace Hprefix fuel toks this' H) by lia.
  rewrite Hend, Nat.sub_0_r. apply sub_all.
Qed.

(** Discharging the conditions on a given input. *)
Ltac no_such_char :=
  let c := fresh "c" in let Hc := fresh "Hc" in let E := fresh "E" in
  intros c Hc E; apply list_elem_of_In in Hc; vm_compute in Hc, E;
  repeat (destruct Hc as [Hc|Hc]; [congruence|]); exact Hc.

Ltac no_such_pair :=
  let i := fresh "i" in let Hi := fresh "Hi" in let Hq := fresh "Hq" in
  let Hlt := fresh "Hlt" in
  intros i Hi Hq; pose proof (lookup_lt_Some _ _ _ Hi) as Hlt;
  vm_compute in Hlt;
  repeat (destruct i as [|i];
          [vm_compute in Hi, Hq; first [discriminate Hi | discriminate Hq]
          |try lia]).

Lemma token_texts_give_back_the_input_witness :
  (forall c, c ∈ lit "(a|b)*[a-z]\d+\u0041" -> c <> ch "{") /\
  (forall i, lit "(a|b)*[a-z]\d+\u0041" !! i = Some (ch "(") ->
             lit "(a|b)*[a-z]\d+\u0041" !! S i <> Some (ch "?")) /\
  (exists toks,
      tokenize 21 (new_Regsafe (lit "(a|b)*[a-z]\d+\u0041")) =
        Some (toks, {| regex := lit "(a|b)*[a-z]\d+\u0041"; cursor := 20 |}) /\
      concat (value <$> toks) = lit "(a|b)*[a-z]\d+\u0041").
Proof.
  assert (H1 : forall c, c ∈ lit "(a|b)*[a-z]\d+\u0041" -> c <> ch "{") by no_such_char.
  assert (H2 : forall i, lit "(a|b)*[a-z]\d+\u0041" !! i = Some (ch "(") ->
                         lit "(a|b)*[a-z]\d+\u0041" !! S i <> Some (ch "?")) by no_such_pair.
  split; [exact H1|]. split; [exact H2|].
  destruct (tokenize 21 (new_Regsafe (lit "(a|b)*[a-z]\d+\u0041"))) as [[toks this']|] eqn:E;
    [|vm_compute in E; discriminate E].
  assert (Hthis : this' = {| regex := lit "(a|b)*[a-z]\d+\u0041"; cursor := 20 |}).
  { vm_compute in E. injection E as _ <-. reflexivity. }
  subst this'. exists toks. split; [reflexivity|].
  apply (token_texts_give_back_the_input _ 21 toks _ H1 H2 E). reflexivity.
Defined.

(** ** Bounds *)

Lemma sub_length_le (s : str) a n :
  length (sub s a n) = n -> a <= length s -> a + n <= length s.
Proof. unfold sub. rewrite length_take, length_drop. lia. Qed.

Lemma group_open_not_flat pos v ts :
  ~ Forall flat (createToken pos GROUP_OPEN v :: ts).
Proof. intros H. inversion H as [|? ? Hf _]. discriminate Hf. Qed.

Lemma parseGroup_prefix_head (input : str) pos t acc toks pos' :
  parseGroup_prefix input pos (t :: acc) = (toks, pos') ->
  exists rest, toks = t :: rest.
Proof.
  intros H. apply parseGroup_prefix_cases in H as [[-> _]|[[-> _]|[-> _]]];
    eauto.
Qed.

Lemma parseGroup_prefix_count (input : str) pos t toks pos' :
  parseGroup_prefix input pos [t] = (toks, pos') ->
  length toks + pos <= S pos'.
Proof.
  intros H. apply parseGroup_prefix_cases in H
    as [[-> [->| ->]]|[(-> & -> & _)|(-> & -> & _)]]; simpl; lia.
Qed.

(** X5: [tokenize] never returns more tokens than the input has characters
    plus two, and never more than the final value of the cursor; so an input
    whose run ends exactly at its end yields at most one token per
    character.  (Two more than the length is reached: ["(["] gives four
    tokens.) *)
Theorem token_count_bound (input : str) (fuel : nat) (toks : list Token)
    (this' : Regsafe) :
  tokenize fuel (new_Regsafe input) = Some (toks, this') ->
  length toks <= cursor this' /\ length toks <= length input + 2.
Proof.
  intros H.
  apply (tokenize_Q input
           (fun a ts b =>
              length ts + a <= b /\
              (a <= length input ->
               (Forall flat ts -> length ts + a <= length input + 1) /\
               length ts + a <= length input + 2))) in H.
  - destruct H as [[H1 H2] _]. destruct H2 as [_ H2]; lia.
  - intros p. simpl. lia.
  - intros a xs b ys c Hab Hbc Hb [Hx1 Hx2] [Hy1 Hy2].
    rewrite length_app. split; [lia|]. intros Ha.
    destruct Hy2 as [Hy2 Hy3]; [lia|]. split; [|lia].
    intros Hf. apply Forall_app in Hf as [_ Hf]. specialize (Hy2 Hf). lia.
  - intros pos c Hc. apply lookup_lt_Some in Hc. simpl. lia.
  - intros pos n Hc Hlen Hno Hstop. apply lookup_lt_Some in Hc.
    apply sub_length_le in Hlen as Hle; [|lia].
    simpl. rewrite length_app, chars_from_length, Hlen. simpl. lia.
  - intros pos n Hc Hlen Hno Hstop. apply lookup_lt_Some in Hc. simpl. lia.
  - intros pos t pos' Hc E. apply lookup_lt_Some in Hc.
    apply parseEscape_chain in E. simpl. lia.
  - intros pos pre p0 content p Hc Hpre Hle Hflat [Hc1 Hc2] Hstop.
    apply lookup_lt_Some in Hc.
    pose proof (parseGroup_prefix_count _ _ _ _ _ Hpre) as Hn.
    assert (Hs : S pos <= length input) by lia.
    pose proof (parseGroup_prefix_le _ _ _ _ _ Hs Hpre) as [_ Hp0].
    apply parseGroup_prefix_head in Hpre as [rest ->].
    destruct (Hc2 Hp0) as [Hc3 _]. specialize (Hc3 Hflat).
    rewrite !length_app. simpl length.
    split; [simpl in Hn; lia|]. intros _. split; [|simpl in Hn; lia].
    intros Hf. apply group_open_not_flat in Hf. contradiction.
Qed.

Lemma token_count_bound_witness :
  tokenize 3 (new_Regsafe (lit "([")) =
    Some ([createToken 0 GROUP_OPEN (lit "(");
           createToken 1 RANGE_OPEN (lit "[");
           createToken 2 RANGE_CLOSE (lit "]");
           createToken 3 GROUP_CLOSE (lit ")")],
          {| regex := lit "(["; cursor := 4 |})
  /\ 4 <= 4 /\ 4 <= length (lit "([") + 2.
Proof.
  assert (H : tokenize 3 (new_Regsafe (lit "([")) =
    Some ([createToken 0 GROUP_OPEN (lit "(");
           createToken 1 RANGE_OPEN (lit "[");
           createToken 2 RANGE_CLOSE (lit "]");
           createToken 3 GROUP_CLOSE (lit ")")],
          {| regex := lit "(["; cursor := 4 |}))
    by (vm_compute; reflexivity).
  split; [exact H|]. exact (token_count_bound _ _ _ _ H).
Defined.

(** X6: after [tokenize] the cursor is at least the input length and at most
    five past it, and no token has a position more than four past the end of
    the input or past the final cursor.  (Both bounds are reached on the
    three characters ["("], backslash, ["u"]: the cursor ends at 8 and the
    GROUP_CLOSE token has position 7.) *)
Theorem cursor_and_position_bounds (input : str) (fuel : nat)
    (toks : list Token) (this' : Regsafe) :
  tokenize fuel (new_Regsafe input) = Some (toks, this') ->
  length input <= cursor this' /\ cursor this' <= length input + 5 /\
  forall t, t ∈ toks ->
    position t <= length input + 4 /\ position t <= cursor this'.
Proof.
  intros H.
  assert (Hchain : forall t, t ∈ toks -> position t <= cursor this').
  { apply tokenize_inv in H as [H _]. simpl in H.
    apply tokenize_loop_chain in H as (ts & -> & Hc). simpl.
    intros t Ht. apply list_elem_of_lookup_1 in Ht as [i Hi].
    apply (chain_lookup _ _ _ _ _ Hc Hi). }
  apply (tokenize_Q input
           (fun a ts b =>
              a <= length input ->
              (Forall flat ts -> b <= length input + 4) /\
              b <= length input + 5 /\
              Forall (fun t => position t <= length input + 4) ts)) in H.
  - destruct H as [H Hexit]. destruct H as (_ & Hb & Hpos); [lia|].
    split; [exact Hexit|]. split; [exact Hb|]. intros t Ht.
    rewrite Forall_forall in Hpos. split; [apply Hpos, Ht | apply Hchain, Ht].
  - intros p Hp. repeat split; try lia. constructor.
  - intros a xs b ys c Hab Hbc Hb Hx Hy Ha.
    destruct (Hx Ha) as (_ & _ & Hxp). destruct Hy as (Hy1 & Hy2 & Hyp); [lia|].
    split; [|split; [exact Hy2 | apply Forall_app; split; assumption]].
    intros Hf. apply Forall_app in Hf as [_ Hf]. exact (Hy1 Hf).
  - intros pos c Hc _. apply lookup_lt_Some in Hc.
    repeat split; try lia. apply Forall_singleton. simpl. lia.
  - intros pos n Hc Hlen Hno Hstop _. apply lookup_lt_Some in Hc.
    apply sub_length_le in Hlen as Hle; [|lia].
    repeat split; try lia. constructor; [simpl; lia|].
    apply Forall_app. split; [|apply Forall_singleton; simpl; lia].
    apply chars_from_Forall. intros i c Hi. apply lookup_sub in Hi. simpl. lia.
  - intros pos n Hc Hlen Hno Hstop _. apply lookup_lt_Some in Hc.
    apply sub_length_le in Hlen as Hle; [|lia].
    repeat split; try lia. apply Forall_singleton. simpl. lia.
  - intros pos t pos' Hc E _. apply lookup_lt_Some in Hc.
    pose proof (parseEscape_end _ _ _ _ Hc E).
    apply parseEscape_chain in E.
    repeat split; try lia. apply Forall_singleton. lia.
  - intros pos pre p0 content p Hc Hpre Hle Hflat Hcont Hstop _.
    apply lookup_lt_Some in Hc.
    assert (Hs : S pos <= length input) by lia.
    pose proof (parseGroup_prefix_le _ _ _ _ _ Hs Hpre) as [_ Hp0].
    destruct (Hcont Hp0) as (Hp & _ & Hpos). specialize (Hp Hflat).
    split; [|split; [lia|]].
    + intros Hf. apply parseGroup_prefix_head in Hpre as [rest ->].
      apply group_open_not_flat in Hf. contradiction.
    + apply Forall_app. split;
        [|apply Forall_app; split;
          [exact Hpos | apply Forall_singleton; simpl; lia]].
      apply parseGroup_prefix_cases in Hpre
        as [[-> _]|[(-> & _ & _ & He)|(-> & _ & _ & He)]];
        try apply lookup_lt_Some in He;
        repeat (constructor; [simpl; lia|]); constructor.
Qed.

Lemma cursor_and_position_bounds_witness :
  tokenize 4 (new_Regsafe (lit "(\u")) =
    Some ([createToken 0 GROUP_OPEN (lit "(");
           createToken 7 UNICODE_ESCAPE
             (lit "\uundefinedundefinedundefinedundefined");
           createToken 7 GROUP_CLOSE (lit ")")],
          {| regex := lit "(\u"; cursor := 8 |})
  /\ length (lit "(\u") <= 8 /\ 8 <= length (lit "(\u") + 5
  /\ position (createToken 7 GROUP_CLOSE (lit ")")) <= length (lit "(\u") + 4.
Proof.
  assert (H : tokenize 4 (new_Regsafe (lit "(\u")) =
    Some ([createToken 0 GROUP_OPEN (lit "(");
           createToken 7 UNICODE_ESCAPE
             (lit "\uundefinedundefinedundefinedundefined");
           createToken 7 GROUP_CLOSE (lit ")")],
          {| regex := lit "(\u"; cursor := 8 |}))
    by (vm_compute; reflexivity).
  split; [exact H|].
  destruct (cursor_and_position_bounds _ _ _ _ H) as (H1 & H2 & H3).
  split; [exact H1|]. split; [exact H2|].
  apply (H3 (createToken 7 GROUP_CLOSE (lit ")"))).
  do 2 apply list_elem_of_further. apply list_elem_of_here.
Defined.

(** ** What a token says about the input *)

Lemma appendChars_read_text (input : str) n text pos :
  appendChars input n text pos = (text ++ read_text input pos n, pos + n).
Proof.
  revert text pos. induction n as [|n IH]; simpl; intros text pos.
  - rewrite app_nil_r. f_equal. lia.
  - rewrite IH, <- app_assoc. f_equal. lia.
Qed.

Lemma parseEscape_describes (input : str) pos t pos' :
  input !! pos = Some (ch "\") ->
  parseEscape input pos = (t, pos') -> token_describes input t.
Proof.
  unfold parseEscape, parseUnicodeEscape, parseHexEscape, parseBackreference.
  intros Hc H.
  destruct (is_char (input !! S pos) "u") eqn:Hu.
  { apply is_char_true in Hu. rewrite appendChars_read_text in H.
    injection H as <- _. exists pos. repeat split; try assumption.
    simpl. f_equal. lia. }
  destruct (is_char (input !! S pos) "x") eqn:Hx.
  { apply is_char_true in Hx. rewrite appendChars_read_text in H.
    injection H as <- _. exists pos. repeat split; try assumption.
    simpl. f_equal. lia. }
  destruct (isDigit (input !! S pos)) eqn:Hd.
  { destruct (input !! S pos) as [d|] eqn:Hr; [|discriminate].
    injection H as <- _. exists pos, d. repeat split; assumption. }
  injection H as <- _. exists pos. repeat split; assumption.
Qed.

Lemma single_describes (input : str) pos c :
  input !! pos = Some c ->
  token_describes input (createToken pos (single_kind c) [c]).
Proof.
  intros Hc. unfold single_kind, token_describes.
  destruct (isAnchor c) eqn:Ha; [exists c; auto|].
  destruct (isMetaChar c) eqn:Hm; [exists c; auto|].
  destruct (eqc c "|") eqn:Hp; simpl.
  - apply eqc_true in Hp. subst c. auto.
  - exists c. auto.
Qed.

(** X7: every token that [tokenize] returns is accounted for by the input,
    according to its kind.  A one-character token (ANCHOR, META_CHAR, PIPE,
    CHAR, GROUP_OPEN, RANGE_OPEN) sits at the offset of its character, which
    is of the class its kind names, and has it as text; a closing token
    sits on its delimiter or at or past the end of the input; a LOOKAHEAD
    or NEG_LOOKAHEAD token sits on the ["="] or ["!"] of a ["(?="] or
    ["(?!"]; an escape token sits after (ESCAPE: on) the last character it
    read, starts at a backslash, and its kind is decided by the character
    after the backslash, with the text [undefined] standing for each read
    past the end; a QUANTIFIER token sits just past the brace that ends its
    run, and its text is the run followed by ["}"]. *)
Theorem tokens_describe_the_input (input : str) (fuel : nat)
    (toks : list Token) :
  tokens_of fuel input = Some toks -> Forall (token_describes input) toks.
Proof.
  unfold tokens_of. intros H.
  destruct (tokenize fuel (new_Regsafe input)) as [[ts this']|] eqn:E;
    [|discriminate].
  injection H as <-.
  apply (tokenize_Q input (fun _ ts _ => Forall (token_describes input) ts))
    in E; [exact (proj1 E)|..].
  - constructor.
  - intros a xs b ys c _ _ _ Hx Hy. apply Forall_app. split; assumption.
  - intros pos c Hc. apply Forall_singleton, single_describes, Hc.
  - intros pos n Hc Hlen Hno Hstop.
    constructor; [split; [exact Hc|reflexivity]|].
    apply Forall_app. split;
      [|apply Forall_singleton; split; [exact Hstop|reflexivity]].
    apply chars_from_Forall. intros i c Hi. apply lookup_sub in Hi as [_ Hi].
    exists c. split; [exact Hi | reflexivity].
  - intros pos n Hc Hlen Hno Hstop. apply Forall_singleton.
    exists pos, n. repeat split; assumption.
  - intros pos t pos' Hc Ht. apply Forall_singleton.
    eapply parseEscape_describes; eassumption.
  - intros pos pre p0 content p Hc Hpre Hle Hflat Hcont Hstop.
    apply Forall_app. split;
      [|apply Forall_app; split;
        [exact Hcont
        |apply Forall_singleton; split; [exact Hstop|reflexivity]]].
    apply parseGroup_prefix_cases in Hpre
      as [[-> _]|[(-> & _ & Hq & He)|(-> & _ & Hq & He)]];
      (constructor; [split; [exact Hc | reflexivity]|]);
      [constructor | |]; apply Forall_singleton; exists pos;
      repeat split; assumption.
Qed.

Lemma tokens_describe_the_input_witness :
  tokens_of 9 (lit "^(?!a{2})\") =
    Some [createToken 0 ANCHOR (lit "^"); createToken 1 GROUP_OPEN (lit "(");
          createToken 3 NEG_LOOKAHEAD (lit "(?!)");
          createToken 4 CHAR (lit "a"); createToken 8 QUANTIFIER (lit "2}");
          createToken 8 GROUP_CLOSE (lit ")");
          createToken 10 ESCAPE (lit "\undefined")]
  /\ Forall (token_describes (lit "^(?!a{2})\"))
       [createToken 0 ANCHOR (lit "^"); createToken 1 GROUP_OPEN (lit "(");
        createToken 3 NEG_LOOKAHEAD (lit "(?!)");
        createToken 4 CHAR (lit "a"); createToken 8 QUANTIFIER (lit "2}");
        createToken 8 GROUP_CLOSE (lit ")");
        createToken 10 ESCAPE (lit "\undefined")].
Proof.
  assert (H : tokens_of 9 (lit "^(?!a{2})\") =
    Some [createToken 0 ANCHOR (lit "^"); createToken 1 GROUP_OPEN (lit "(");
          createToken 3 NEG_LOOKAHEAD (lit "(?!)");
          createToken 4 CHAR (lit "a"); createToken 8 QUANTIFIER (lit "2}");
          createToken 8 GROUP_CLOSE (lit ")");
          createToken 10 ESCAPE (lit "\undefined")])
    by (vm_compute; reflexivity).
  split; [exact H|]. exact (tokens_describe_the_input _ _ _ H).
Defined.

(** ** Delimiter tokens *)

Lemma kinds_among_app ks xs ys :
  kinds_among ks (xs ++ ys) = kinds_among ks xs ++ kinds_among ks ys.
Proof. unfold kinds_among. rewrite fmap_app, filter_app. reflexivity. Qed.

Lemma kinds_among_none ks ts :
  Forall (fun t => type t ∉ ks) ts -> kinds_among ks ts = [].
Proof.
  unfold kinds_among. induction 1 as [|t ts Ht _ IH]; [reflexivity|].
  rewrite fmap_cons, filter_cons_False by exact Ht. exact IH.
Qed.

Lemma kinds_among_cons_in ks t ts :
  type t ∈ ks -> kinds_among ks (t :: ts) = type t :: kinds_among ks ts.
Proof.
  intros H. unfold kinds_among. rewrite fmap_cons, filter_cons_True by exact H.
  reflexivity.
Qed.

Lemma kinds_among_cons_out ks t ts :
  type t ∉ ks -> kinds_among ks (t :: ts) = kinds_among ks ts.
Proof.
  intros H. unfold kinds_among. rewrite fmap_cons, filter_cons_False by exact H.
  reflexivity.
Qed.

Lemma flat_no_group_delims ts :
  Forall flat ts ->
  Forall (fun t => type t ∉ [GROUP_OPEN; GROUP_CLOSE]) ts.
Proof.
  intros H. eapply Forall_impl; [exact H|].
  intros t Hf Hin. unfold flat in Hf.
  repeat (apply elem_of_cons in Hin as [Hin|Hin];
          [rewrite Hin in Hf; discriminate Hf|]).
  apply elem_of_nil in Hin. exact Hin.
Qed.

Lemma single_kind_cases c :
  single_kind c = ANCHOR \/ single_kind c = META_CHAR \/
  single_kind c = PIPE \/ single_kind c = CHAR.
Proof.
  unfold single_kind.
  destruct (isAnchor c), (isMetaChar c), (eqc c "|"); auto.
Qed.

Lemma parseEscape_kind (input : str) pos t pos' :
  parseEscape input pos = (t, pos') ->
  type t = UNICODE_ESCAPE \/ type t = HEX_ESCAPE \/
  type t = BACKREFERENCE \/ type t = ESCAPE.
Proof.
  unfold parseEscape, parseUnicodeEscape, parseHexEscape, parseBackreference.
  intros H.
  repeat match type of H with
         | context [if ?b then _ else _] => destruct b
         | context [appendChars ?r ?n ?x ?p] =>
             destruct (appendChars r n x p) as [? ?]
         end;
    injection H as <- _; auto.
Qed.

(** Deciding that a kind is not in a list of kinds. *)
Ltac kind_out :=
  let H := fresh in
  intros H;
  repeat (apply elem_of_cons in H as [H|H]; [congruence|]);
  apply elem_of_nil in H; exact H.

Ltac kind_in :=
  repeat first [apply list_elem_of_here | apply list_elem_of_further].

Lemma chars_from_delims ks pos cs :
  CHAR ∉ ks -> kinds_among ks (chars_from pos cs) = [].
Proof.
  intros H. apply kinds_among_none, chars_from_Forall. intros i c _. exact H.
Qed.

(** X8: in the tokens that [tokenize] returns, the GROUP_OPEN and
    GROUP_CLOSE tokens alternate, starting with an opening and ending with
    a closing one, and so do the RANGE_OPEN and RANGE_CLOSE tokens: groups
    are never nested, classes are never nested, and every opening token has
    its closing token, whatever the input (an unmatched ["("] or ["["]
    included). *)
Theorem delimiter_tokens_alternate (input : str) (fuel : nat)
    (toks : list Token) :
  tokens_of fuel input = Some toks ->
  exists g r,
    kinds_among [GROUP_OPEN; GROUP_CLOSE] toks =
      concat (replicate g [GROUP_OPEN; GROUP_CLOSE]) /\
    kinds_among [RANGE_OPEN; RANGE_CLOSE] toks =
      concat (replicate r [RANGE_OPEN; RANGE_CLOSE]).
Proof.
  unfold tokens_of. intros H.
  destruct (tokenize fuel (new_Regsafe input)) as [[ts this']|] eqn:E;
    [|discriminate].
  injection H as <-.
  apply (tokenize_Q input
           (fun _ ts _ =>
              exists g r,
                kinds_among [GROUP_OPEN; GROUP_CLOSE] ts =
                  concat (replicate g [GROUP_OPEN; GROUP_CLOSE]) /\
                kinds_among [RANGE_OPEN; RANGE_CLOSE] ts =
                  concat (replicate r [RANGE_OPEN; RANGE_CLOSE])))
    in E; [exact (proj1 E)|..].
  - intros _. exists 0, 0. split; reflexivity.
  - intros a xs b ys c _ _ _ (g1 & r1 & Hg1 & Hr1) (g2 & r2 & Hg2 & Hr2).
    exists (g1 + g2), (r1 + r2).
    rewrite !kinds_among_app, Hg1, Hg2, Hr1, Hr2, !replicate_add, !concat_app.
    split; reflexivity.
  - intros pos c _. exists 0, 0.
    split; apply kinds_among_none, Forall_singleton; simpl;
      destruct (single_kind_cases c) as [->|[->|[->| ->]]]; kind_out.
  - intros pos n _ _ _ _. exists 0, 1. split.
    + rewrite kinds_among_cons_out by (simpl; kind_out).
      rewrite kinds_among_app, chars_from_delims by kind_out.
      apply kinds_among_none, Forall_singleton. simpl. kind_out.
    + rewrite kinds_among_cons_in by (simpl; kind_in).
      rewrite kinds_among_app, chars_from_delims by kind_out.
      rewrite kinds_among_cons_in by (simpl; kind_in). reflexivity.
  - intros pos n _ _ _ _. exists 0, 0.
    split; apply kinds_among_none, Forall_singleton; simpl; kind_out.
  - intros pos t pos' _ Ht. exists 0, 0. apply parseEscape_kind in Ht.
    split; apply kinds_among_none, Forall_singleton;
      destruct Ht as [->|[->|[->| ->]]]; kind_out.
  - intros pos pre p0 content p _ Hpre _ Hflat (g & r & _ & Hr) _.
    exists 1, r. rewrite !kinds_among_app, Hr.
    rewrite (kinds_among_none _ content (flat_no_group_delims _ Hflat)).
    apply parseGroup_prefix_cases in Hpre as [[-> _]|[[-> _]|[-> _]]];
      (split; [reflexivity|]);
      rewrite ?kinds_among_app;
      repeat rewrite (kinds_among_none [RANGE_OPEN; RANGE_CLOSE] [_])
        by (apply Forall_singleton; simpl; kind_out);
      rewrite ?app_nil_r; reflexivity.
Qed.

Lemma delimiter_tokens_alternate_witness :
  tokens_of 8 (lit "((a)[[b") =
    Some [createToken 0 GROUP_OPEN (lit "("); createToken 1 CHAR (lit "(");
          createToken 2 CHAR (lit "a"); createToken 3 GROUP_CLOSE (lit ")");
          createToken 4 RANGE_OPEN (lit "["); createToken 5 CHAR (lit "[");
          createToken 6 CHAR (lit "b"); createToken 7 RANGE_CLOSE (lit "]")]
  /\ exists g r,
    kinds_among [GROUP_OPEN; GROUP_CLOSE]
      [createToken 0 GROUP_OPEN (lit "("); createToken 1 CHAR (lit "(");
       createToken 2 CHAR (lit "a"); createToken 3 GROUP_CLOSE (lit ")");
       createToken 4 RANGE_OPEN (lit "["); createToken 5 CHAR (lit "[");
       createToken 6 CHAR (lit "b"); createToken 7 RANGE_CLOSE (lit "]")] =
      concat (replicate g [GROUP_OPEN; GROUP_CLOSE]) /\
    kinds_among [RANGE_OPEN; RANGE_CLOSE]
      [createToken 0 GROUP_OPEN (lit "("); createToken 1 CHAR (lit "(");
       createToken 2 CHAR (lit "a"); createToken 3 GROUP_CLOSE (lit ")");
       createToken 4 RANGE_OPEN (lit "["); createToken 5 CHAR (lit "[");
       createToken 6 CHAR (lit "b"); createToken 7 RANGE_CLOSE (lit "]")] =
      concat (replicate r [RANGE_OPEN; RANGE_CLOSE]).
Proof.
  assert (H : tokens_of 8 (lit "((a)[[b") =
    Some [createToken 0 GROUP_OPEN (lit "("); createToken 1 CHAR (lit "(");
          createToken 2 CHAR (lit "a"); createToken 3 GROUP_CLOSE (lit ")");
          createToken 4 RANGE_OPEN (lit "["); createToken 5 CHAR (lit "[");
          createToken 6 CHAR (lit "b"); createToken 7 RANGE_CLOSE (lit "]")])
    by (vm_compute; reflexivity).
  split; [exact H|]. exact (delimiter_tokens_alternate _ _ _ H).
Defined.

Lemma lookahead_after_open_none ts :
  Forall (fun t => type t <> LOOKAHEAD /\ type t <> NEG_LOOKAHEAD) ts ->
  lookahead_after_open ts.
Proof.
  intros H i t Hi Ht. rewrite Forall_forall in H.
  destruct (H t (list_elem_of_lookup_2 _ _ _ Hi)) as [H1 H2].
  destruct Ht; contradiction.
Qed.

Lemma lookahead_after_open_app xs ys :
  lookahead_after_open xs -> lookahead_after_open ys ->
  lookahead_after_open (xs ++ ys).
Proof.
  intros Hx Hy i t Hi Ht. apply lookup_app_Some in Hi as [Hi|[Hlen Hi]].
  - destruct (Hx i t Hi Ht) as (j & o & -> & Hj & Ho & Hp).
    exists j, o. repeat split; try assumption.
    apply lookup_app_l_Some. exact Hj.
  - destruct (Hy _ t Hi Ht) as (j & o & Hij & Hj & Ho & Hp).
    exists (length xs + j), o. split; [lia|]. split; [|split; assumption].
    rewrite lookup_app_r by lia.
    replace (length xs + j - length xs) with j by lia. exact Hj.
Qed.

Lemma flat_no_lookahead ts :
  Forall flat ts ->
  Forall (fun t => type t <> LOOKAHEAD /\ type t <> NEG_LOOKAHEAD) ts.
Proof.
  intros H. eapply Forall_impl; [exact H|].
  intros t Hf. unfold flat in Hf.
  split; intros E; rewrite E in Hf; discriminate Hf.
Qed.

(** X9: in the tokens that [tokenize] returns, every LOOKAHEAD and
    NEG_LOOKAHEAD token comes immediately after a GROUP_OPEN token, whose
    position is two less: a lookahead token never stands alone, never
    opens the sequence and never follows anything but the opening of its
    group. *)
Theorem lookahead_follows_group_open (input : str) (fuel : nat)
    (toks : list Token) (i : nat) (t : Token) :
  tokens_of fuel input = Some toks ->
  toks !! i = Some t -> type t = LOOKAHEAD \/ type t = NEG_LOOKAHEAD ->
  exists j o,
    i = S j /\ toks !! j = Some o /\ type o = GROUP_OPEN /\
    position t = position o + 2.
Proof.
  unfold tokens_of. intros H.
  destruct (tokenize fuel (new_Regsafe input)) as [[ts this']|] eqn:E;
    [|discriminate].
  injection H as <-. revert i t. change (lookahead_after_open ts).
  apply (tokenize_Q input (fun _ ts _ => lookahead_after_open ts))
    in E; [exact (proj1 E)|..].
  - intros _. apply lookahead_after_open_none. constructor.
  - intros a xs b ys c _ _ _. apply lookahead_after_open_app.
  - intros pos c _. apply lookahead_after_open_none, Forall_singleton. simpl.
    destruct (single_kind_cases c) as [->|[->|[->| ->]]]; split; discriminate.
  - intros pos n _ _ _ _. apply lookahead_after_open_none.
    constructor; [split; discriminate|]. apply Forall_app. split.
    + apply chars_from_Forall. intros; split; discriminate.
    + apply Forall_singleton. split; discriminate.
  - intros pos n _ _ _ _. apply lookahead_after_open_none, Forall_singleton.
    split; discriminate.
  - intros pos t pos' _ Ht. apply lookahead_after_open_none, Forall_singleton.
    apply parseEscape_kind in Ht.
    destruct Ht as [->|[->|[->| ->]]]; split; discriminate.
  - intros pos pre p0 content p _ Hpre _ Hflat _ _.
    apply lookahead_after_open_app; [|apply lookahead_after_open_app].
    + apply parseGroup_prefix_cases in Hpre as [[-> _]|[[-> _]|[-> _]]].
      * apply lookahead_after_open_none, Forall_singleton. split; discriminate.
      * intros [|[|i]] t Hi Ht; simpl in Hi; try discriminate Hi.
        { injection Hi as <-. destruct Ht as [Ht|Ht]; discriminate Ht. }
        injection Hi as <-. eexists 0, _. repeat split. simpl. lia.
      * intros [|[|i]] t Hi Ht; simpl in Hi; try discriminate Hi.
        { injection Hi as <-. destruct Ht as [Ht|Ht]; discriminate Ht. }
        injection Hi as <-. eexists 0, _. repeat split. simpl. lia.
    + apply lookahead_after_open_none, flat_no_lookahead, Hflat.
    + apply lookahead_after_open_none, Forall_singleton. split; discriminate.
Qed.

Lemma lookahead_follows_group_open_witness :
  tokens_of 9 (lit "a(?=b)(?!") =
    Some [createToken 0 CHAR (lit "a"); createToken 1 GROUP_OPEN (lit "(");
          createToken 3 LOOKAHEAD (lit "(?="); createToken 4 CHAR (lit "b");
          createToken 5 GROUP_CLOSE (lit ")");
          createToken 6 GROUP_OPEN (lit "(");
          createToken 8 NEG_LOOKAHEAD (lit "(?!)");
          createToken 9 GROUP_CLOSE (lit ")")]
  /\ exists j o,
    6 = S j /\
    [createToken 0 CHAR (lit "a"); createToken 1 GROUP_OPEN (lit "(");
     createToken 3 LOOKAHEAD (lit "(?="); createToken 4 CHAR (lit "b");
     createToken 5 GROUP_CLOSE (lit ")");
     createToken 6 GROUP_OPEN (lit "(");
     createToken 8 NEG_LOOKAHEAD (lit "(?!)");
     createToken 9 GROUP_CLOSE (lit ")")] !! j = Some o /\
    type o = GROUP_OPEN /\
    position (createToken 8 NEG_LOOKAHEAD (lit "(?!)")) = position o + 2.
Proof.
  assert (H : tokens_of 9 (lit "a(?=b)(?!") =
    Some [createToken 0 CHAR (lit "a"); createToken 1 GROUP_OPEN (lit "(");
          createToken 3 LOOKAHEAD (lit "(?="); createToken 4 CHAR (lit "b");
          createToken 5 GROUP_CLOSE (lit ")");
          createToken 6 GROUP_OPEN (lit "(");
          createToken 8 NEG_LOOKAHEAD (lit "(?!)");
          createToken 9 GROUP_CLOSE (lit ")")])
    by (vm_compute; reflexivity).
  split; [exact H|].
  apply (lookahead_follows_group_open _ _ _ 6
           (createToken 8 NEG_LOOKAHEAD (lit "(?!)")) H);
    [reflexivity | right; reflexivity].
Defined.

(** ** Inputs without scan routines *)

Lemma single_tokens_app pos xs ys :
  single_tokens pos (xs ++ ys) =
  single_tokens pos xs ++ single_tokens (pos + length xs) ys.
Proof.
  revert pos. induction xs as [|x xs IH]; intros pos; simpl.
  - rewrite Nat.add_0_r. reflexivity.
  - rewrite IH. do 3 f_equal. lia.
Qed.

(** X10: on an input that holds none of ["("], ["["], ["{"] and the
    backslash, [tokenize], given more fuel than the input has characters,
    returns exactly one token per character, in order: the token of the
    character at offset [i] has position [i], the character as text, and the
    kind ANCHOR for [^] and [$], META_CHAR for [*], [+], [?] and [.], PIPE
    for [|] and CHAR for anything else (a [")"], ["]"] or ["}"] included). *)
Theorem plain_input_one_token_per_character (input : str) (fuel : nat) :
  (forall c, c ∈ input ->
     c <> ch "(" /\ c <> ch "[" /\ c <> ch "{" /\ c <> ch "\") ->
  length input < fuel ->
  tokens_of fuel input = Some (single_tokens 0 input).
Proof.
  intros Hplain Hfuel. unfold tokens_of.
  destruct (tokenize fuel (new_Regsafe input)) as [[toks this']|] eqn:E.
  2:{ unfold tokenize in E. simpl in E.
      destruct (tokenize_loop_total input fuel 0 []) as [[ts p] Ht]; [lia|].
      rewrite Ht in E. discriminate E. }
  simpl. f_equal.
  apply (tokenize_Q input
           (fun a ts b =>
              a <= length input ->
              b <= length input /\
              ts = single_tokens a (sub input a (b - a)))) in E.
  - destruct E as [E Hexit]. destruct E as [Hle ->]; [lia|].
    replace (cursor this' - 0) with (length input) by lia.
    rewrite sub_all. reflexivity.
  - intros p Hp. rewrite Nat.sub_diag. split; [exact Hp | reflexivity].
  - intros a xs b ys c Hab Hbc Hb Hx Hy Ha.
    destruct (Hx Ha) as [_ ->]. destruct Hy as [Hc ->]; [lia|].
    split; [exact Hc|].
    rewrite <- (sub_join input a b c Hab Hbc), single_tokens_app,
      sub_length by lia.
    do 2 f_equal. lia.
  - intros pos c Hc _. apply lookup_lt_Some in Hc as Hlt. split; [lia|].
    replace (S pos - pos) with 1 by lia.
    rewrite (sub_cons _ _ _ _ Hc). reflexivity.
  - intros pos n Hc. apply list_elem_of_lookup_2, Hplain in Hc.
    destruct Hc as (_ & Hc & _). contradiction.
  - intros pos n Hc. apply list_elem_of_lookup_2, Hplain in Hc.
    destruct Hc as (_ & _ & Hc & _). contradiction.
  - intros pos t pos' Hc. apply list_elem_of_lookup_2, Hplain in Hc.
    destruct Hc as (_ & _ & _ & Hc). contradiction.
  - intros pos pre p0 content p Hc. apply list_elem_of_lookup_2, Hplain in Hc.
    destruct Hc as (Hc & _). contradiction.
Qed.

Ltac plain_input :=
  let c := fresh "c" in let Hc := fresh "Hc" in
  intros c Hc; apply list_elem_of_In in Hc; vm_compute in Hc;
  repeat (destruct Hc as [Hc|Hc];
          [subst c; repeat split; intros E; vm_compute in E; discriminate E|]);
  contradiction.

Lemma plain_input_one_token_per_character_witness :
  (forall c, c ∈ lit "^a.b|c)]}$" ->
     c <> ch "(" /\ c <> ch "[" /\ c <> ch "{" /\ c <> ch "\") /\
  length (lit "^a.b|c)]}$") < 11 /\
  tokens_of 11 (lit "^a.b|c)]}$") =
    Some [createToken 0 ANCHOR (lit "^"); createToken 1 CHAR (lit "a");
          createToken 2 META_CHAR (lit "."); createToken 3 CHAR (lit "b");
          createToken 4 PIPE (lit "|"); createToken 5 CHAR (lit "c");
          createToken 6 CHAR (lit ")"); createToken 7 CHAR (lit "]");
          createToken 8 CHAR (lit "}"); createToken 9 ANCHOR (lit "$")].
Proof.
  assert (H1 : forall c, c ∈ lit "^a.b|c)]}$" ->
     c <> ch "(" /\ c <> ch "[" /\ c <> ch "{" /\ c <> ch "\") by plain_input.
  assert (H2 : length (lit "^a.b|c)]}$") < 11) by (vm_compute; lia).
  split; [exact H1|]. split; [exact H2|].
  rewrite (plain_input_one_token_per_character _ 11 H1 H2). reflexivity.
Defined.

(** ** The two dispatchers *)

Lemma bodies_agree (input : str) fuel pos c :
  eqc c "(" = false ->
  tokenizeGroupContent_body input fuel pos c = tokenize_body input fuel pos c.
Proof.
  intros H. unfold tokenizeGroupContent_body, tokenize_body. rewrite H.
  reflexivity.
Qed.

(** X11: from a cursor after which the input holds no parenthesis, the
    content scan of a group and the top-level loop build the same tokens
    and leave the same cursor: the second dispatcher differs from the first
    only in how it treats ["("] and [")"]. *)
Theorem content_scan_agrees_with_top_level (input : str) (fuel pos : nat)
    (tokens : list Token) :
  (forall i c, pos <= i -> input !! i = Some c ->
     c <> ch "(" /\ c <> ch ")") ->
  tokenizeGroupContent_loop input fuel pos tokens =
  tokenize_loop input fuel pos tokens.
Proof.
  revert pos tokens. induction fuel as [|fuel IH]; intros pos tokens Hno;
    simpl; destruct (input !! pos) as [c|] eqn:Hc; try reflexivity;
    destruct (Hno pos c (Nat.le_refl _) Hc) as [Ho Hcl];
    (destruct (eqc c ")") eqn:E; [apply eqc_true in E; contradiction|]);
    [reflexivity|].
  rewrite bodies_agree
    by (destruct (eqc c "(") eqn:E'; [apply eqc_true in E'; contradiction
                                     |reflexivity]).
  destruct (tokenize_body input fuel pos c) as [[ts p]|] eqn:Eb;
    [|reflexivity].
  apply tokenize_body_chain in Eb as [Hlt _].
  apply IH. intros i c' Hi. apply Hno. lia.
Qed.

Lemma content_scan_agrees_with_top_level_witness :
  (forall i c, 1 <= i -> lit "(a{2}[b]|\d" !! i = Some c ->
     c <> ch "(" /\ c <> ch ")") /\
  tokenizeGroupContent_loop (lit "(a{2}[b]|\d") 11 1 [] =
  tokenize_loop (lit "(a{2}[b]|\d") 11 1 [].
Proof.
  assert (H : forall i c, 1 <= i -> lit "(a{2}[b]|\d" !! i = Some c ->
     c <> ch "(" /\ c <> ch ")").
  { intros i c Hi Hc. pose proof (lookup_lt_Some _ _ _ Hc) as Hlt.
    vm_compute in Hlt. destruct i as [|i]; [lia|].
    repeat (destruct i as [|i];
            [vm_compute in Hc; injection Hc as <-;
             split; intros E; vm_compute in E; discriminate E
            |try lia]). }
  split; [exact H|].
  exact (content_scan_agrees_with_top_level _ 11 1 [] H).
Defined.

(** ** Characters that reach no token *)

Lemma chars_from_elem pos cs k c :
  cs !! k = Some c -> createToken (pos + k) CHAR [c] ∈ chars_from pos cs.
Proof.
  revert pos k. induction cs as [|x cs IH]; intros pos k H; [discriminate|].
  destruct k as [|k]; simpl in *.
  - injection H as ->. rewrite Nat.add_0_r. apply list_elem_of_here.
  - apply list_elem_of_further. replace (pos + S k) with (S pos + k) by lia.
    apply IH, H.
Qed.

Lemma sub_lookup (s : str) a n k c :
  k < n -> s !! (a + k) = Some c -> sub s a n !! k = Some c.
Proof.
  intros Hk H. unfold sub. rewrite lookup_take_lt, lookup_drop by lia. exact H.
Qed.

Lemma read_text_elem (input : str) p n i c :
  p <= i -> i < p + n -> input !! i = Some c -> c ∈ read_text input p n.
Proof.
  revert p. induction n as [|n IH]; intros p Hp Hi Hc; [lia|]. simpl.
  apply elem_of_app. destruct (decide (i = p)) as [->|Hne].
  - left. rewrite Hc. apply list_elem_of_here.
  - right. apply IH; [lia | lia | exact Hc].
Qed.

Lemma parseEscape_covers (input : str) pos t pos' i c :
  input !! pos = Some (ch "\") ->
  parseEscape input pos = (t, pos') ->
  pos <= i -> i < pos' -> input !! i = Some c -> c ∈ value t.
Proof.
  unfold parseEscape, parseUnicodeEscape, parseHexEscape, parseBackreference.
  intros Hc H Hlo Hhi Hi.
  assert (Hcase : i = pos \/ i = S pos \/ S (S pos) <= i) by lia.
  destruct (is_char (input !! S pos) "u") eqn:Hu.
  { apply is_char_true in Hu. rewrite appendChars_read_text in H.
    apply pair_equal_spec in H as [<- <-]. cbn [value createToken].
    apply elem_of_app.
    destruct Hcase as [->|[->|Hge]].
    - left. rewrite Hc in Hi. injection Hi as <-.
      change (lit "\u") with [ch "\"; ch "u"]. apply list_elem_of_here.
    - left. rewrite Hu in Hi. injection Hi as <-.
      change (lit "\u") with [ch "\"; ch "u"].
      apply list_elem_of_further, list_elem_of_here.
    - right. apply (read_text_elem _ _ _ i); [lia | lia | exact Hi]. }
  destruct (is_char (input !! S pos) "x") eqn:Hx.
  { apply is_char_true in Hx. rewrite appendChars_read_text in H.
    apply pair_equal_spec in H as [<- <-]. cbn [value createToken].
    apply elem_of_app.
    destruct Hcase as [->|[->|Hge]].
    - left. rewrite Hc in Hi. injection Hi as <-.
      change (lit "\x") with [ch "\"; ch "x"]. apply list_elem_of_here.
    - left. rewrite Hx in Hi. injection Hi as <-.
      change (lit "\x") with [ch "\"; ch "x"].
      apply list_elem_of_further, list_elem_of_here.
    - right. apply (read_text_elem _ _ _ i); [lia | lia | exact Hi]. }
  assert (Ht : value t = lit "\" ++ toStr (input !! S pos) /\ pos' = S (S pos)).
  { destruct (isDigit (input !! S pos)); injection H as <- <-; auto. }
  destruct Ht as [-> ->]. apply elem_of_app.
  destruct Hcase as [->|[->|Hge]]; [| |lia].
  - left. rewrite Hc in Hi. injection Hi as <-.
    change (lit "\") with [ch "\"]. apply list_elem_of_here.
  - right. rewrite Hi. apply list_elem_of_here.
Qed.

Lemma parseGroup_prefix_skips (input : str) pos acc toks pos' :
  parseGroup_prefix input pos acc = (toks, pos') ->
  pos < pos' -> input !! pos = Some (ch "?").
Proof.
  unfold parseGroup_prefix. intros H Hlt.
  destruct (is_char (input !! pos) "?") eqn:Hq;
    [apply is_char_true, Hq | injection H as _ <-; lia].
Qed.

(** X12: apart from ["?"] and ["{"], no character of the input is lost:
    every character of the input other than these two occurs in the text of
    some token that [tokenize] returns. *)
Theorem only_question_marks_and_braces_are_dropped (input : str)
    (fuel : nat) (toks : list Token) (c : N) :
  tokens_of fuel input = Some toks ->
  c ∈ input -> c <> ch "?" -> c <> ch "{" ->
  exists t, t ∈ toks /\ c ∈ value t.
Proof.
  unfold tokens_of. intros H Hin Hq Hb.
  destruct (tokenize fuel (new_Regsafe input)) as [[ts this']|] eqn:E;
    [|discriminate].
  injection H as <-.
  apply list_elem_of_lookup_1 in Hin as [i Hi].
  apply (tokenize_Q input
           (fun a ts b =>
              forall i c, a <= i -> i < b -> input !! i = Some c ->
                          c <> ch "?" -> c <> ch "{" ->
                          exists t, t ∈ ts /\ c ∈ value t)) in E.
  - destruct E as [E Hexit]. apply lookup_lt_Some in Hi as Hlt.
    apply (E i c); [lia | lia | exact Hi | exact Hq | exact Hb].
  - intros p j d Hlo Hhi. lia.
  - intros a xs b ys d Hab Hbd Hb' Hx Hy j e Hlo Hhi Hj Hq' Hb''.
    destruct (Nat.lt_ge_cases j b) as [Hjb|Hjb].
    + destruct (Hx j e Hlo Hjb Hj Hq' Hb'') as (t & Ht & He).
      exists t. split; [apply elem_of_app; left; exact Ht | exact He].
    + destruct (Hy j e Hjb Hhi Hj Hq' Hb'') as (t & Ht & He).
      exists t. split; [apply elem_of_app; right; exact Ht | exact He].
  - intros pos d Hd j e Hlo Hhi Hj _ _. assert (j = pos) as -> by lia.
    rewrite Hd in Hj. injection Hj as <-.
    eexists. split; apply list_elem_of_here.
  - intros pos n Hc Hlen Hno Hstop j e Hlo Hhi Hj _ _.
    assert (Hcase : j = pos \/ (exists k, j = S pos + k /\ k < n)
                    \/ j = S pos + n).
    { destruct (decide (j = pos)); [auto|].
      destruct (decide (j = S pos + n)); [auto|].
      right; left. exists (j - S pos). lia. }
    destruct Hcase as [->|[(k & -> & Hk)| ->]].
    + rewrite Hc in Hj. injection Hj as <-.
      eexists. split; apply list_elem_of_here.
    + exists (createToken (S pos + k) CHAR [e]).
      split; [|apply list_elem_of_here].
      apply list_elem_of_further, elem_of_app. left.
      apply chars_from_elem, sub_lookup; assumption.
    + destruct Hstop as [Hstop|Hstop];
        [|apply lookup_lt_Some in Hj; lia].
      rewrite Hstop in Hj. injection Hj as <-.
      exists (createToken (S pos + n) RANGE_CLOSE (lit "]")).
      split; [|apply list_elem_of_here].
      apply list_elem_of_further, elem_of_app. right. apply list_elem_of_here.
  - intros pos n Hc Hlen Hno Hstop j e Hlo Hhi Hj _ Hbrace.
    eexists. split; [apply list_elem_of_here|]. simpl. apply elem_of_app.
    assert (Hcase : j = pos \/ (exists k, j = S pos + k /\ k < n)
                    \/ j = S pos + n).
    { destruct (decide (j = pos)); [auto|].
      destruct (decide (j = S pos + n)); [auto|].
      right; left. exists (j - S pos). lia. }
    destruct Hcase as [->|[(k & -> & Hk)| ->]].
    + rewrite Hc in Hj. injection Hj as <-. contradiction.
    + left. apply (list_elem_of_lookup_2 _ k), sub_lookup; assumption.
    + destruct Hstop as [Hstop|Hstop];
        [|apply lookup_lt_Some in Hj; lia].
      rewrite Hstop in Hj. injection Hj as <-.
      right. apply list_elem_of_here.
  - intros pos t pos' Hc Ht j e Hlo Hhi Hj _ _.
    exists t. split; [apply list_elem_of_here|].
    eapply parseEscape_covers; eassumption.
  - intros pos pre p0 content p Hc Hpre Hle Hflat Hcont Hstop j e Hlo Hhi Hj
      Hq' Hb'.
    assert (Hs : S pos <= length input) by (apply lookup_lt_Some in Hc; lia).
    pose proof (parseGroup_prefix_le _ _ _ _ _ Hs Hpre) as [Hp0 _].
    assert (Hcase : j = pos \/ (S pos <= j /\ j < p0)
                    \/ (p0 <= j /\ j < p) \/ j = p) by lia.
    destruct Hcase as [->|[[Hj1 Hj2]|[[Hj1 Hj2]| ->]]].
    + rewrite Hc in Hj. injection Hj as <-.
      apply parseGroup_prefix_head in Hpre as [rest ->].
      eexists. split; [apply list_elem_of_here|apply list_elem_of_here].
    + pose proof (parseGroup_prefix_skips _ _ _ _ _ Hpre ltac:(lia)) as Hskip.
      apply parseGroup_prefix_cases in Hpre
        as [[-> [->| ->]]|[(-> & -> & _ & He)|(-> & -> & _ & He)]];
        try lia.
      * assert (j = S pos) as -> by lia. rewrite Hskip in Hj.
        injection Hj as <-. contradiction.
      * destruct (decide (j = S pos)) as [->|Hne].
        { rewrite Hskip in Hj. injection Hj as <-. contradiction. }
        assert (j = S (S pos)) as -> by lia.
        rewrite He in Hj. injection Hj as <-.
        eexists. split;
          [apply list_elem_of_further, list_elem_of_here|].
        simpl. do 2 apply list_elem_of_further. apply list_elem_of_here.
      * destruct (decide (j = S pos)) as [->|Hne].
        { rewrite Hskip in Hj. injection Hj as <-. contradiction. }
        assert (j = S (S pos)) as -> by lia.
        rewrite He in Hj. injection Hj as <-.
        eexists. split;
          [apply list_elem_of_further, list_elem_of_here|].
        simpl. do 2 apply list_elem_of_further. apply list_elem_of_here.
    + destruct (Hcont j e Hj1 Hj2 Hj Hq' Hb') as (t & Ht & He).
      exists t. split; [|exact He].
      apply elem_of_app. right. apply elem_of_app. left. exact Ht.
    + destruct Hstop as [Hstop|Hstop];
        [|apply lookup_lt_Some in Hj; lia].
      rewrite Hstop in Hj. injection Hj as <-.
      exists (createToken p GROUP_CLOSE (lit ")")).
      split; [|apply list_elem_of_here].
      apply elem_of_app. right. apply elem_of_app. right.
      apply list_elem_of_here.
Qed.

Lemma only_question_marks_and_braces_are_dropped_witness :
  tokens_of 8 (lit "(?:a{2})") =
    Some [createToken 0 GROUP_OPEN (lit "("); createToken 2 CHAR (lit ":");
          createToken 3 CHAR (lit "a"); createToken 7 QUANTIFIER (lit "2}");
          createToken 7 GROUP_CLOSE (lit ")")]
  /\ ch ":" ∈ lit "(?:a{2})" /\ ch ":" <> ch "?" /\ ch ":" <> ch "{"
  /\ exists t,
       t ∈ [createToken 0 GROUP_OPEN (lit "("); createToken 2 CHAR (lit ":");
            createToken 3 CHAR (lit "a"); createToken 7 QUANTIFIER (lit "2}");
            createToken 7 GROUP_CLOSE (lit ")")]
       /\ ch ":" ∈ value t.
Proof.
  assert (H : tokens_of 8 (lit "(?:a{2})") =
    Some [createToken 0 GROUP_OPEN (lit "("); createToken 2 CHAR (lit ":");
          createToken 3 CHAR (lit "a"); createToken 7 QUANTIFIER (lit "2}");
          createToken 7 GROUP_CLOSE (lit ")")])
    by (vm_compute; reflexivity).
  assert (Hin : ch ":" ∈ lit "(?:a{2})")
    by (do 2 apply list_elem_of_further; apply list_elem_of_here).
  assert (H1 : ch ":" <> ch "?") by (intros E; vm_compute in E; discriminate E).
  assert (H2 : ch ":" <> ch "{") by (intros E; vm_compute in E; discriminate E).
  split; [exact H|]. split; [exact Hin|].
  split; [exact H1|]. split; [exact H2|].
  exact (only_question_marks_and_braces_are_dropped _ _ _ _ H Hin H1 H2).
Defined.

(** X13: no token that [tokenize] returns has an empty text. *)
Theorem token_text_is_never_empty (input : str) (fuel : nat)
    (toks : list Token) (t : Token) :
  tokens_of fuel input = Some toks -> t ∈ toks -> value t <> [].
Proof.
  unfold tokens_of. intros H Ht.
  destruct (tokenize fuel (new_Regsafe input)) as [[ts this']|] eqn:E;
    [|discriminate].
  injection H as <-.
  apply (tokenize_Q input (fun _ ts _ => Forall (fun t => value t <> []) ts))
    in E.
  - destruct E as [E _]. rewrite Forall_forall in E. exact (E t Ht).
  - constructor.
  - intros a xs b ys c _ _ _ Hx Hy. apply Forall_app. split; assumption.
  - intros pos c _. apply Forall_singleton. discriminate.
  - intros pos n _ _ _ _. constructor; [discriminate|].
    apply Forall_app. split; [|apply Forall_singleton; discriminate].
    apply chars_from_Forall. intros; discriminate.
  - intros pos n _ _ _ _. apply Forall_singleton. simpl. intros E'.
    apply app_eq_nil in E' as [_ E']. discriminate E'.
  - intros pos t' pos' Hc Ht'. apply Forall_singleton.
    pose proof (parseEscape_describes _ _ _ _ Hc Ht') as Hd.
    unfold token_describes in Hd. apply parseEscape_kind in Ht'.
    destruct Ht' as [Hk|[Hk|[Hk|Hk]]]; rewrite Hk in Hd.
    + destruct Hd as (? & _ & _ & _ & ->). discriminate.
    + destruct Hd as (? & _ & _ & _ & ->). discriminate.
    + destruct Hd as (? & ? & _ & _ & _ & _ & ->). discriminate.
    + destruct Hd as (? & _ & _ & _ & _ & _ & ->). discriminate.
  - intros pos pre p0 content p _ Hpre _ _ Hcont _.
    apply Forall_app. split;
      [|apply Forall_app; split;
        [exact Hcont|apply Forall_singleton; discriminate]].
    apply parseGroup_prefix_cases in Hpre as [[-> _]|[[-> _]|[-> _]]];
      repeat (constructor; [discriminate|]); constructor.
Qed.

Lemma token_text_is_never_empty_witness :
  tokens_of 3 (lit "{") = Some [createToken 2 QUANTIFIER (lit "}")]
  /\ value (createToken 2 QUANTIFIER (lit "}")) <> [].
Proof.
  assert (H : tokens_of 3 (lit "{") = Some [createToken 2 QUANTIFIER (lit "}")])
    by (vm_compute; reflexivity).
  split; [exact H|].
  apply (token_text_is_never_empty _ _ _ _ H). apply list_elem_of_here.
Defined.

(** ** The scan under an argument limit *)

(** *** A run that returns is a run of the scan without a limit *)

Lemma push_spread_Returned limit site tokens ts r :
  push_spread limit site tokens ts = Returned r ->
  r = tokens ++ ts /\ length ts <= limit site.
Proof.
  unfold push_spread. destruct (Nat.leb_spec (length ts) (limit site));
    [|discriminate].
  intros [= <-]. auto.
Qed.

Lemma push_spread_fits limit site tokens ts :
  length ts <= limit site ->
  push_spread limit site tokens ts = Returned (tokens ++ ts).
Proof.
  unfold push_spread. intros H.
  destruct (Nat.leb_spec (length ts) (limit site)); [reflexivity | lia].
Qed.

Lemma push_spread_over limit site tokens ts :
  limit site < length ts -> push_spread limit site tokens ts = RangeError.
Proof.
  unfold push_spread. intros H.
  destruct (Nat.leb_spec (length ts) (limit site)); [lia | reflexivity].
Qed.

Ltac unbind H :=
  unfold mbind, Outcome_bind, ran in H.

Section EngineSound.

Variable limit : SpreadSite -> nat.
Variable input : str.

Lemma tokenizeGroupContent_body_lim_sound fuel pos c tokens toks pos' :
  tokenizeGroupContent_body_lim limit input fuel pos c tokens
    = Returned (toks, pos') ->
  exists ts,
    tokenizeGroupContent_body input fuel pos c = Some (ts, pos') /\
    toks = tokens ++ ts.
Proof.
  unfold tokenizeGroupContent_body_lim, tokenizeGroupContent_body,
    isQuantifierStart.
  intros H. unbind H.
  repeat match type of H with
         | context [if ?b then _ else _] => destruct b eqn:?
         end;
    try (injection H as <- <-; eauto; fail).
  - destruct (parseRange input fuel pos) as [[ts p]|]; [|discriminate].
    destruct (push_spread limit ContentRange tokens ts) as [r| |] eqn:E;
      try discriminate.
    apply push_spread_Returned in E as [-> _].
    injection H as <- <-. eauto.
  - destruct (parseQuantifier input fuel pos) as [[t p]|]; [|discriminate].
    injection H as <- <-. eauto.
  - destruct (parseEscape input pos) as [t p].
    injection H as <- <-. eauto.
Qed.

Lemma tokenizeGroupContent_loop_lim_sound fuel pos acc r :
  tokenizeGroupContent_loop_lim limit input fuel pos acc = Returned r ->
  tokenizeGroupContent_loop input fuel pos acc = Some r.
Proof.
  revert pos acc. induction fuel as [|fuel IH]; simpl; intros pos acc H;
    destruct (input !! pos) as [c|]; try destruct (eqc c ")");
    try (injection H as <-; reflexivity); try discriminate.
  unbind H.
  destruct (tokenizeGroupContent_body_lim limit input fuel pos c acc)
    as [[toks p]| |] eqn:E; try discriminate.
  apply tokenizeGroupContent_body_lim_sound in E as (ts & -> & ->).
  apply IH. exact H.
Qed.

Lemma parseGroup_loop_lim_sound fuel pos acc r :
  parseGroup_loop_lim limit input fuel pos acc = Returned r ->
  parseGroup_loop input fuel pos acc = Some r.
Proof.
  revert pos acc. induction fuel as [|fuel IH]; simpl; intros pos acc H;
    destruct (input !! pos) as [c|]; try destruct (eqc c ")");
    try (injection H as <-; reflexivity); try discriminate.
  unbind H. unfold tokenizeGroupContent_lim in H.
  unfold tokenizeGroupContent.
  destruct (tokenizeGroupContent_loop_lim limit input fuel pos [])
    as [[ts p]| |] eqn:E; try discriminate.
  apply tokenizeGroupContent_loop_lim_sound in E. rewrite E.
  destruct (push_spread limit GroupContent acc ts) as [r'| |] eqn:E';
    try discriminate.
  apply push_spread_Returned in E' as [-> _].
  apply IH. exact H.
Qed.

Lemma parseGroup_lim_sound fuel pos r :
  parseGroup_lim limit input fuel pos = Returned r ->
  parseGroup input fuel pos = Some r.
Proof.
  unfold parseGroup_lim, parseGroup. intros H.
  destruct (parseGroup_prefix input (S pos) _) as [ts0 p0].
  unbind H.
  destruct (parseGroup_loop_lim limit input fuel p0 ts0) as [[ts p]| |] eqn:E;
    try discriminate.
  apply parseGroup_loop_lim_sound in E. rewrite E.
  injection H as <-. reflexivity.
Qed.

Lemma tokenize_body_lim_sound fuel pos c tokens toks pos' :
  tokenize_body_lim limit input fuel pos c tokens = Returned (toks, pos') ->
  exists ts,
    tokenize_body input fuel pos c = Some (ts, pos') /\ toks = tokens ++ ts.
Proof.
  unfold tokenize_body_lim, tokenize_body, isQuantifierStart.
  intros H. unbind H.
  repeat match type of H with
         | context [if ?b then _ else _] => destruct b eqn:?
         end;
    try (injection H as <- <-; eauto; fail).
  - destruct (parseGroup_lim limit input fuel pos) as [[ts p]| |] eqn:E;
      try discriminate.
    apply parseGroup_lim_sound in E.
    destruct (push_spread limit TokenizeGroup tokens ts) as [r| |] eqn:E';
      try discriminate.
    apply push_spread_Returned in E' as [-> _].
    injection H as <- <-. eauto.
  - destruct (parseRange input fuel pos) as [[ts p]|]; [|discriminate].
    destruct (push_spread limit TokenizeRange tokens ts) as [r| |] eqn:E;
      try discriminate.
    apply push_spread_Returned in E as [-> _].
    injection H as <- <-. eauto.
  - destruct (parseQuantifier input fuel pos) as [[t p]|]; [|discriminate].
    injection H as <- <-. eauto.
  - destruct (parseEscape input pos) as [t p].
    injection H as <- <-. eauto.
Qed.

Lemma tokenize_loop_lim_sound fuel pos acc r :
  tokenize_loop_lim limit input fuel pos acc = Returned r ->
  tokenize_loop input fuel pos acc = Some r.
Proof.
  revert pos acc. induction fuel as [|fuel IH]; simpl; intros pos acc H;
    destruct (input !! pos) as [c|];
    try (injection H as <-; reflexivity); try discriminate.
  unbind H.
  destruct (tokenize_body_lim limit input fuel pos c acc)
    as [[toks p]| |] eqn:E; try discriminate.
  apply tokenize_body_lim_sound in E as (ts & -> & ->).
  apply IH. exact H.
Qed.

End EngineSound.

Lemma tokenize_lim_sound limit fuel this r :
  tokenize_lim limit fuel this = Returned r -> tokenize fuel this = Some r.
Proof.
  unfold tokenize_lim, tokenize. intros H. unbind H.
  destruct (tokenize_loop_lim limit (regex this) fuel (cursor this) [])
    as [[toks p]| |] eqn:E; try discriminate.
  apply tokenize_loop_lim_sound in E. rewrite E.
  injection H as <-. reflexivity.
Qed.

(** *** The number of tokens a spread passes *)

Lemma segment_size_nil (input : str) p : segment_size input p [] p.
Proof. unfold segment_size. simpl. lia. Qed.

Lemma segment_size_app (input : str) a xs b ys c :
  a <= b -> b <= c -> b < length input ->
  segment_size input a xs b -> segment_size input b ys c ->
  segment_size input a (xs ++ ys) c.
Proof.
  intros Hab Hbc Hb [Hx1 Hx2] [Hy1 Hy2].
  unfold segment_size. rewrite length_app. split; [lia|]. intros Ha.
  destruct Hy2 as [Hy2 Hy3]; [lia|]. split; [|lia].
  intros Hf. apply Forall_app in Hf as [_ Hf]. specialize (Hy2 Hf). lia.
Qed.

Lemma segment_size_single (input : str) pos c :
  input !! pos = Some c ->
  segment_size input pos [createToken pos (single_kind c) [c]] (S pos).
Proof.
  intros Hc. apply lookup_lt_Some in Hc. unfold segment_size. simpl. lia.
Qed.

Lemma segment_size_range (input : str) pos n :
  input !! pos = Some (ch "[") ->
  length (sub input (S pos) n) = n ->
  (forall c, c ∈ sub input (S pos) n -> c <> ch "]") ->
  stops_at input "]" (S pos + n) ->
  segment_size input pos
    (createToken pos RANGE_OPEN (lit "[")
       :: chars_from (S pos) (sub input (S pos) n)
       ++ [createToken (S pos + n) RANGE_CLOSE (lit "]")])
    (S (S pos + n)).
Proof.
  intros Hc Hlen Hno Hstop. apply lookup_lt_Some in Hc.
  apply sub_length_le in Hlen as Hle; [|lia].
  unfold segment_size. simpl.
  rewrite length_app, chars_from_length, Hlen. simpl. lia.
Qed.

Lemma segment_size_quantifier (input : str) pos n :
  input !! pos = Some (ch "{") ->
  length (sub input (S pos) n) = n ->
  (forall c, c ∈ sub input (S pos) n -> c <> ch "}") ->
  stops_at input "}" (S pos + n) ->
  segment_size input pos
    [createToken (S (S pos + n)) QUANTIFIER (sub input (S pos) n ++ lit "}")]
    (S (S pos + n)).
Proof.
  intros Hc Hlen Hno Hstop. apply lookup_lt_Some in Hc.
  unfold segment_size. simpl. lia.
Qed.

Lemma segment_size_escape (input : str) pos t pos' :
  input !! pos = Some (ch "\") ->
  parseEscape input pos = (t, pos') ->
  segment_size input pos [t] pos'.
Proof.
  intros Hc E. apply lookup_lt_Some in Hc.
  apply parseEscape_chain in E. unfold segment_size. simpl. lia.
Qed.

Lemma segment_size_group (input : str) pos pre p0 content p :
  input !! pos = Some (ch "(") ->
  parseGroup_prefix input (S pos) [createToken pos GROUP_OPEN (lit "(")]
    = (pre, p0) ->
  p0 <= p -> Forall flat content -> segment_size input p0 content p ->
  stops_at input ")" p ->
  segment_size input pos
    (pre ++ content ++ [createToken p GROUP_CLOSE (lit ")")]) (S p).
Proof.
  intros Hc Hpre Hle Hflat [Hc1 Hc2] Hstop.
  apply lookup_lt_Some in Hc.
  pose proof (parseGroup_prefix_count _ _ _ _ _ Hpre) as Hn.
  assert (Hs : S pos <= length input) by lia.
  pose proof (parseGroup_prefix_le _ _ _ _ _ Hs Hpre) as [_ Hp0].
  apply parseGroup_prefix_head in Hpre as [rest ->].
  destruct (Hc2 Hp0) as [Hc3 _]. specialize (Hc3 Hflat).
  unfold segment_size. rewrite !length_app. simpl length.
  split; [simpl in Hn; lia|]. intros _. split; [|simpl in Hn; lia].
  intros Hf. apply group_open_not_flat in Hf. contradiction.
Qed.

Lemma parseRange_size (input : str) fuel pos c toks pos' :
  input !! pos = Some c ->
  parseRange input fuel pos = Some (toks, pos') ->
  length toks <= length input + 1.
Proof.
  intros Hc H. apply lookup_lt_Some in Hc.
  apply parseRange_inv in H as (n & Hlen & _ & _ & -> & _).
  apply sub_length_le in Hlen as Hle; [|lia].
  simpl. rewrite length_app, chars_from_length, Hlen. simpl. lia.
Qed.

Lemma tokenizeGroupContent_size (input : str) fuel pos toks pos' :
  pos <= length input ->
  tokenizeGroupContent input fuel pos = Some (toks, pos') ->
  length toks <= length input + 2.
Proof.
  unfold tokenizeGroupContent. intros Hle H.
  apply (tokenizeGroupContent_loop_Q input (segment_size input)
           (segment_size_nil input) (segment_size_app input)
           (segment_size_single input) (segment_size_range input)
           (segment_size_quantifier input) (segment_size_escape input))
    in H as (ts & -> & _ & _ & Hs).
  destruct (Hs Hle) as [_ Hs']. simpl. lia.
Qed.

Lemma parseGroup_size (input : str) fuel pos toks pos' :
  input !! pos = Some (ch "(") ->
  parseGroup input fuel pos = Some (toks, pos') ->
  length toks <= length input + 2.
Proof.
  intros Hc H. apply lookup_lt_Some in Hc as Hlt.
  apply (parseGroup_Q input (segment_size input)
           (segment_size_nil input) (segment_size_app input)
           (segment_size_single input) (segment_size_range input)
           (segment_size_quantifier input) (segment_size_escape input)
           (segment_size_group input) _ _ _ _ Hc) in H as [_ Hs].
  destruct Hs as [_ Hs]; lia.
Qed.

(** *** Within the limit the scan returns *)

Section EngineFits.

Variable limit : SpreadSite -> nat.
Variable input : str.

Hypothesis limit_fits : forall site, length input + 2 <= limit site.

Lemma tokenizeGroupContent_body_lim_fits fuel pos c tokens ts pos' :
  input !! pos = Some c ->
  tokenizeGroupContent_body input fuel pos c = Some (ts, pos') ->
  tokenizeGroupContent_body_lim limit input fuel pos c tokens
    = Returned (tokens ++ ts, pos').
Proof.
  unfold tokenizeGroupContent_body_lim, tokenizeGroupContent_body,
    isQuantifierStart.
  intros Hc H. unfold mbind, Outcome_bind, ran.
  repeat match type of H with
         | context [if ?b then _ else _] => destruct b eqn:?
         end;
    try (injection H as <- <-; reflexivity).
  - rewrite H. rewrite push_spread_fits; [reflexivity|].
    pose proof (parseRange_size _ _ _ _ _ _ Hc H).
    specialize (limit_fits ContentRange). lia.
  - destruct (parseQuantifier input fuel pos) as [[t p]|]; [|discriminate].
    injection H as <- <-. reflexivity.
  - destruct (parseEscape input pos) as [t p].
    injection H as <- <-. reflexivity.
Qed.

Lemma tokenizeGroupContent_loop_lim_fits fuel pos acc r :
  tokenizeGroupContent_loop input fuel pos acc = Some r ->
  tokenizeGroupContent_loop_lim limit input fuel pos acc = Returned r.
Proof.
  revert pos acc. induction fuel as [|fuel IH]; simpl; intros pos acc H;
    destruct (input !! pos) as [c|] eqn:Hc; try destruct (eqc c ")");
    try (injection H as <-; reflexivity); try discriminate.
  destruct (tokenizeGroupContent_body input fuel pos c) as [[ts p]|] eqn:E;
    [|discriminate].
  rewrite (tokenizeGroupContent_body_lim_fits _ _ _ acc _ _ Hc E).
  simpl. apply IH. exact H.
Qed.

Lemma parseGroup_loop_lim_fits fuel pos acc r :
  parseGroup_loop input fuel pos acc = Some r ->
  parseGroup_loop_lim limit input fuel pos acc = Returned r.
Proof.
  revert pos acc. induction fuel as [|fuel IH]; simpl; intros pos acc H;
    destruct (input !! pos) as [c|] eqn:Hc; try destruct (eqc c ")");
    try (injection H as <-; reflexivity); try discriminate.
  destruct (tokenizeGroupContent input fuel pos) as [[ts p]|] eqn:E;
    [|discriminate].
  unfold tokenizeGroupContent_lim.
  rewrite (tokenizeGroupContent_loop_lim_fits _ _ _ _ E). simpl.
  apply lookup_lt_Some in Hc.
  rewrite push_spread_fits.
  - simpl. apply IH. exact H.
  - assert (Hle : pos <= length input) by lia.
    pose proof (tokenizeGroupContent_size _ _ _ _ _ Hle E).
    specialize (limit_fits GroupContent). lia.
Qed.

Lemma parseGroup_lim_fits fuel pos r :
  parseGroup input fuel pos = Some r ->
  parseGroup_lim limit input fuel pos = Returned r.
Proof.
  unfold parseGroup_lim, parseGroup. intros H.
  destruct (parseGroup_prefix input (S pos) _) as [ts0 p0].
  destruct (parseGroup_loop input fuel p0 ts0) as [[ts p]|] eqn:E;
    [|discriminate].
  rewrite (parseGroup_loop_lim_fits _ _ _ _ E). simpl.
  injection H as <-. reflexivity.
Qed.

Lemma tokenize_body_lim_fits fuel pos c tokens ts pos' :
  input !! pos = Some c ->
  tokenize_body input fuel pos c = Some (ts, pos') ->
  tokenize_body_lim limit input fuel pos c tokens
    = Returned (tokens ++ ts, pos').
Proof.
  unfold tokenize_body_lim, tokenize_body, isQuantifierStart.
  intros Hc H. unfold mbind, Outcome_bind, ran.
  repeat match type of H with
         | context [if ?b then _ else _] => destruct b eqn:?
         end;
    try (injection H as <- <-; reflexivity).
  - rewrite (parseGroup_lim_fits _ _ _ H).
    rewrite push_spread_fits; [reflexivity|].
    match goal with E : eqc c "(" = true |- _ =>
      apply eqc_true in E; subst c end.
    pose proof (parseGroup_size _ _ _ _ _ Hc H).
    specialize (limit_fits TokenizeGroup). lia.
  - rewrite H. rewrite push_spread_fits; [reflexivity|].
    pose proof (parseRange_size _ _ _ _ _ _ Hc H).
    specialize (limit_fits TokenizeRange). lia.
  - destruct (parseQuantifier input fuel pos) as [[t p]|]; [|discriminate].
    injection H as <- <-. reflexivity.
  - destruct (parseEscape input pos) as [t p].
    injection H as <- <-. reflexivity.
Qed.

Lemma tokenize_loop_lim_fits fuel pos acc r :
  tokenize_loop input fuel pos acc = Some r ->
  tokenize_loop_lim limit input fuel pos acc = Returned r.
Proof.
  revert pos acc. induction fuel as [|fuel IH]; simpl; intros pos acc H;
    destruct (input !! pos) as [c|] eqn:Hc;
    try (injection H as <-; reflexivity); try discriminate.
  destruct (tokenize_body input fuel pos c) as [[ts p]|] eqn:E;
    [|discriminate].
  rewrite (tokenize_body_lim_fits _ _ _ acc _ _ Hc E).
  simpl. apply IH. exact H.
Qed.

End EngineFits.

(** Within the limit the scan returns.  When every spread site accepts two
    arguments more than the input has characters, no spread raises: with
    more fuel than the input has characters the run of a fresh instance
    returns, and it returns what the scan without a limit returns, unmatched
    ["("], ["["], ["{"] and a trailing backslash included.  The group scan,
    entered at any cursor, returns as well, and the last token it returns is
    a GROUP_CLOSE built at the cursor where its loop stopped: on a [")"], or
    at or past the end of the input when the input was exhausted first. *)
Lemma tokenize_lim_returns (limit : SpreadSite -> nat) (input : str)
    (fuel : nat) :
  (forall site, length input + 2 <= limit site) -> length input < fuel ->
  (exists toks this',
      tokenize_lim limit fuel (new_Regsafe input) = Returned (toks, this') /\
      tokenize fuel (new_Regsafe input) = Some (toks, this'))
  /\
  (forall pos, exists ts p,
      parseGroup_lim limit input fuel pos =
        Returned (ts ++ [createToken p GROUP_CLOSE (lit ")")], S p)
      /\ stops_at input ")" p).
Proof.
  intros Hlim Hfuel. split.
  - unfold tokenize_lim, tokenize. simpl.
    destruct (tokenize_loop_total input fuel 0 []) as [[ts p] E]; [lia|].
    rewrite E, (tokenize_loop_lim_fits limit input Hlim _ _ _ _ E). simpl.
    eauto.
  - intros pos.
    destruct (parseGroup_total input fuel pos) as [[toks pos'] E]; [lia|].
    pose proof (parseGroup_lim_fits limit input Hlim _ _ _ E) as E'.
    destruct (parseGroup_shape _ _ _ _ _ E) as (ts & p & -> & -> & Hstop).
    exists ts, p. split; [exact E' | exact Hstop].
Qed.

Example tokenize_lim_returns_on_unmatched_group :
  tokenize_lim (fun _ => 4) 3 (new_Regsafe (lit "(a")) =
    Returned ([createToken 0 GROUP_OPEN (lit "(");
               createToken 1 CHAR (lit "a");
               createToken 2 GROUP_CLOSE (lit ")")],
              {| regex := lit "(a"; cursor := 3 |}).
Proof. vm_compute. reflexivity. Qed.

(** *** Past the limit a spread raises *)

Lemma framed_length (c0 d : N) n :
  length (c0 :: replicate n (ch "a") ++ [d]) = n + 2.
Proof. simpl. rewrite length_app, length_replicate. simpl. lia. Qed.

Lemma framed_lookup_plain (c0 d : N) n i :
  i < n -> (c0 :: replicate n (ch "a") ++ [d]) !! S i = Some (ch "a").
Proof.
  intros H. simpl. rewrite lookup_app_l by (rewrite length_replicate; lia).
  apply lookup_replicate_2. exact H.
Qed.

Lemma framed_lookup_last (c0 d : N) n :
  (c0 :: replicate n (ch "a") ++ [d]) !! S n = Some d.
Proof.
  simpl. rewrite lookup_app_r by (rewrite length_replicate; lia).
  rewrite length_replicate, Nat.sub_diag. reflexivity.
Qed.

Lemma tokenize_loop_lim_step limit (input : str) fuel pos c acc :
  input !! pos = Some c ->
  tokenize_loop_lim limit input (S fuel) pos acc =
    '(tokens, pos) ← tokenize_body_lim limit input fuel pos c acc;
    tokenize_loop_lim limit input fuel pos tokens.
Proof. intros H. simpl. rewrite H. reflexivity. Qed.

Lemma parseGroup_loop_lim_step limit (input : str) fuel pos c acc :
  input !! pos = Some c -> eqc c ")" = false ->
  parseGroup_loop_lim limit input (S fuel) pos acc =
    '(ts, pos) ← tokenizeGroupContent_lim limit input fuel pos;
    tokens ← push_spread limit GroupContent acc ts;
    parseGroup_loop_lim limit input fuel pos tokens.
Proof. intros H Hc. simpl. rewrite H, Hc. reflexivity. Qed.

Lemma tokenize_body_lim_class limit (input : str) fuel pos tokens :
  tokenize_body_lim limit input fuel pos (ch "[") tokens =
    '(ts, pos) ← ran (parseRange input fuel pos);
    tokens ← push_spread limit TokenizeRange tokens ts;
    Returned (tokens, pos).
Proof. reflexivity. Qed.

Lemma tokenize_body_lim_group limit (input : str) fuel pos tokens :
  tokenize_body_lim limit input fuel pos (ch "(") tokens =
    '(ts, pos) ← parseGroup_lim limit input fuel pos;
    tokens ← push_spread limit TokenizeGroup tokens ts;
    Returned (tokens, pos).
Proof. reflexivity. Qed.

Lemma parseRange_long_class n fuel ts p :
  parseRange (long_class n) fuel 0 = Some (ts, p) -> n + 2 <= length ts.
Proof.
  intros H. apply parseRange_inv in H as (k & Hlen & _ & Hstop & -> & _).
  simpl. rewrite length_app, chars_from_length, Hlen. simpl.
  destruct (Nat.le_gt_cases n k) as [Hle|Hgt]; [lia|].
  unfold long_class in Hstop. destruct Hstop as [Hs|Hs].
  - simpl "+" in Hs. rewrite framed_lookup_plain in Hs by exact Hgt.
    injection Hs as Hs. vm_compute in Hs. discriminate Hs.
  - rewrite framed_length in Hs. lia.
Qed.

Lemma tokenizeGroupContent_loop_lim_plain limit (input : str) k :
  forall fuel pos acc,
    k <= fuel ->
    (forall i, i < k -> input !! (pos + i) = Some (ch "a")) ->
    input !! (pos + k) = Some (ch ")") ->
    exists ts,
      length ts = k /\
      tokenizeGroupContent_loop_lim limit input fuel pos acc
        = Returned (acc ++ ts, pos + k).
Proof.
  induction k as [|k IH]; intros fuel pos acc Hfuel Hplain Hend.
  - rewrite Nat.add_0_r in *. exists []. split; [reflexivity|].
    rewrite app_nil_r. destruct fuel; simpl; rewrite Hend, eqc_refl;
      reflexivity.
  - destruct fuel as [|fuel]; [lia|].
    pose proof (Hplain 0 ltac:(lia)) as H0. rewrite Nat.add_0_r in H0.
    destruct (IH fuel (S pos)
                (acc ++ [createToken pos CHAR [ch "a"]])) as (ts & Hl & E).
    + lia.
    + intros i Hi. rewrite <- (Hplain (S i)) by lia. f_equal. lia.
    + rewrite <- Hend. f_equal. lia.
    + exists (createToken pos CHAR [ch "a"] :: ts).
      split; [simpl; lia|].
      simpl. rewrite H0.
      change (eqc (ch "a") ")") with false. cbv iota.
      change (tokenizeGroupContent_body_lim limit input fuel pos (ch "a") acc)
        with (Returned (acc ++ [createToken pos CHAR [ch "a"]], S pos)
                : Outcome (list Token * nat)).
      cbn [mbind Outcome_bind]. rewrite E, <- app_assoc.
      do 2 f_equal. lia.
Qed.

Lemma parseGroup_lim_long_group limit n fuel :
  limit GroupContent < n -> n < fuel ->
  parseGroup_lim limit (long_group n) fuel 0 = RangeError.
Proof.
  intros Hlim Hfuel. unfold parseGroup_lim, long_group.
  assert (Hpre : forall acc,
    parseGroup_prefix (ch "(" :: replicate n (ch "a") ++ [ch ")"]) 1 acc
      = (acc, 1)).
  { intros acc. unfold parseGroup_prefix.
    rewrite framed_lookup_plain by lia. reflexivity. }
  cbv zeta. rewrite Hpre.
  destruct fuel as [|fuel]; [lia|].
  destruct (tokenizeGroupContent_loop_lim_plain limit
              (ch "(" :: replicate n (ch "a") ++ [ch ")"]) n fuel 1 [])
    as (ts & Hl & E).
  - lia.
  - intros i Hi. apply framed_lookup_plain. exact Hi.
  - apply framed_lookup_last.
  - rewrite (parseGroup_loop_lim_step _ _ _ _ (ch "a"));
      [|apply framed_lookup_plain; lia|reflexivity].
    unfold tokenizeGroupContent_lim. rewrite E, app_nil_l.
    cbn [mbind Outcome_bind]. rewrite push_spread_over by lia.
    reflexivity.
Qed.

(** C3: [tokenize] raises an error on some input strings.  Whatever number
    of arguments the engine accepts in one call, the spread of
    [tokens.push(...this.parseRange())] in [tokenize] raises [RangeError] on
    the well-formed character class of [n] plain characters once the [n + 2]
    tokens of the class are more than the engine accepts there, and the
    spread of [tokens.push(...this.tokenizeGroupContent())] in [parseGroup]
    raises [RangeError] on the well-formed group of [n] plain characters
    once the [n] tokens of its content are more than the engine accepts
    there.  The run has fuel to spare: it ends with the error, not for want
    of fuel. *)
Theorem spread_push_raises_range_error (limit : SpreadSite -> nat)
    (n fuel : nat) :
  n + 2 < fuel ->
  (limit TokenizeRange < n + 2 ->
   tokenize_lim limit fuel (new_Regsafe (long_class n)) = RangeError) /\
  (limit GroupContent < n ->
   tokenize_lim limit fuel (new_Regsafe (long_group n)) = RangeError).
Proof.
  intros Hfuel.
  destruct fuel as [|fuel]; [lia|]. unfold tokenize_lim. split; intros Hlim.
  - cbn [regex cursor new_Regsafe].
    rewrite (tokenize_loop_lim_step _ _ _ _ (ch "[")) by reflexivity.
    rewrite tokenize_body_lim_class.
    destruct (parseRange_total (long_class n) fuel 0) as [[ts p] E].
    { unfold long_class. rewrite framed_length. lia. }
    rewrite E. apply parseRange_long_class in E.
    cbn [ran mbind Outcome_bind]. rewrite push_spread_over by lia.
    reflexivity.
  - cbn [regex cursor new_Regsafe].
    rewrite (tokenize_loop_lim_step _ _ _ _ (ch "(")) by reflexivity.
    rewrite tokenize_body_lim_group.
    rewrite parseGroup_lim_long_group by lia. reflexivity.
Qed.

Lemma spread_push_raises_range_error_witness :
  4 + 2 < 7 /\
  tokenize_lim (fun _ => 5) 7 (new_Regsafe (long_class 4)) = RangeError /\
  tokenize_lim (fun _ => 3) 7 (new_Regsafe (long_group 4)) = RangeError.
Proof.
  assert (H : 4 + 2 < 7) by lia.
  split; [exact H|]. split.
  - destruct (spread_push_raises_range_error (fun _ => 5) 4 7 H) as [A _].
    apply A. simpl. lia.
  - destruct (spread_push_raises_range_error (fun _ => 3) 4 7 H) as [_ B].
    apply B. simpl. lia.
Defined.
